(** * audio-tools: sample codec, LCG noise source, test-signal assembly and
      step-response differentiation

    A shallow embedding of [signal-gen.py] and [sr-to-ir.py].

    - Python integers are [Z]; byte strings are [list byte].
    - Python floats and numpy [float64] values are IEEE 754 binary64 numbers,
      taken from the Standard Library's executable specification
      ([spec_float] with [prec = 53], [emax = 1024], round to nearest even).
    - Calls that can raise ([struct.pack], [struct.unpack], list indexing,
      [np.max] of an empty array) return [option]; [None] is the exception. *)

From Stdlib Require Import ZArith List Bool Lia.
From Stdlib Require Import Floats.SpecFloat.
From coqutil Require Import Byte Word.LittleEndianList.
Import ListNotations.
Local Open Scope Z_scope.

(* ===================================================================== *)
(** ** Option monad for code that can raise                               *)
(* ===================================================================== *)

Definition bind {A B : Type} (m : option A) (f : A -> option B) : option B :=
  match m with
  | Some x => f x
  | None => None
  end.

Notation "x <- m ;; k" := (bind m (fun x => k))
  (at level 61, m at next level, right associativity).

(* ===================================================================== *)
(** ** binary64 arithmetic                                                *)
(* ===================================================================== *)

(** A binary64 value. *)
Definition float : Type := spec_float.

Module F64.

Definition prec : Z := 53.
Definition emax : Z := 1024.

(** Well-formed binary64 values: the mantissa is normalised for its exponent
    and the exponent is in range.  Every value an array holds is of this
    kind. *)
Definition valid (x : float) : bool := valid_binary prec emax x.

(** Conversion of a Python integer ([float(z)], or numpy's promotion of an
    integer operand). *)
Definition of_Z (z : Z) : float := binary_normalize prec emax z 0 false.

Definition zero : float := S754_zero false.
Definition one : float := of_Z 1.
Definition nan : float := S754_nan.

Definition neg (x : float) : float := SFopp x.
Definition abs (x : float) : float := SFabs x.
Definition add (x y : float) : float := SFadd prec emax x y.
Definition sub (x y : float) : float := SFsub prec emax x y.
Definition mul (x y : float) : float := SFmul prec emax x y.
Definition div (x y : float) : float := SFdiv prec emax x y.

Definition eqb (x y : float) : bool := SFeqb x y.
Definition ltb (x y : float) : bool := SFltb x y.
Definition leb (x y : float) : bool := SFleb x y.
Definition gtb (x y : float) : bool := SFltb y x.
Definition geb (x y : float) : bool := SFleb y x.

Definition is_nan (x : float) : bool :=
  match x with
  | S754_nan => true
  | _ => false
  end.

Definition is_finite (x : float) : bool :=
  match x with
  | S754_zero _ | S754_finite _ _ _ => true
  | _ => false
  end.

(** Integer part of a finite value, rounding toward zero. *)
Definition trunc (x : float) : option Z :=
  match x with
  | S754_zero _ => Some 0
  | S754_finite s m e =>
      Some (cond_Zopp s (if 0 <=? e then Zpos m * 2 ^ e else Zpos m / 2 ^ (- e)))
  | _ => None
  end.

Definition int64_min : Z := - 2 ^ 63.
Definition int64_max : Z := 2 ^ 63 - 1.

(** [x.astype(np.int64)]: the C conversion, which truncates toward zero.  For
    NaN, the infinities and values outside the 64-bit range the C result is
    not defined; numpy on x86-64 yields the "integer indefinite" value
    [-2^63], which is what is modelled. *)
Definition to_int64 (x : float) : Z :=
  match trunc x with
  | Some z => if (int64_min <=? z) && (z <=? int64_max) then z else int64_min
  | None => int64_min
  end.

End F64.

(* ===================================================================== *)
(** ** The numpy functions the programs call                              *)
(* ===================================================================== *)

Module Np.

(** [np.absolute] on one element. *)
Definition absolute (x : float) : float := F64.abs x.

(** [np.maximum]: [(a >= b || isnan(a)) ? a : b], so a NaN on either side
    comes out. *)
Definition maximum (a b : float) : float :=
  if F64.geb a b || F64.is_nan a then a else b.

(** [np.max]: a reduction with [maximum] from the first element; raises
    [ValueError] on an empty array. *)
Definition max (a : list float) : option float :=
  match a with
  | [] => None
  | x :: rest => Some (fold_left maximum rest x)
  end.

(** [np.clip(x, lo, hi)] on one element: neither comparison holds for a NaN,
    which passes through. *)
Definition clip1 (lo hi x : float) : float :=
  if F64.ltb x lo then lo else if F64.gtb x hi then hi else x.

Definition clip (a : list float) (lo hi : float) : list float :=
  map (clip1 lo hi) a.

Definition zeros (n : nat) : list float := repeat F64.zero n.
Definition ones (n : nat) : list float := repeat F64.one n.
Definition zeros_like (a : list float) : list float := zeros (length a).

(** [np.fft.fftfreq(n, d)]: the integers [0 .. (n-1)//2] followed by
    [-(n//2) .. -1], each multiplied by [1.0 / (n * d)]. *)
Definition fftfreq (n : Z) (d : float) : list float :=
  let val := F64.div F64.one (F64.mul (F64.of_Z n) d) in
  let N := (n - 1) / 2 + 1 in
  let p1 := map (fun k => Z.of_nat k) (seq 0 (Z.to_nat N)) in
  let p2 := map (fun k => - (n / 2) + Z.of_nat k) (seq 0 (Z.to_nat (n / 2))) in
  map (fun k => F64.mul (F64.of_Z k) val) (p1 ++ p2).

End Np.

(* ===================================================================== *)
(** ** Python's [struct] module, for the formats the codec uses           *)
(* ===================================================================== *)

Module Struct.

(** Byte order prefix: ["<"] or [">"] (both select standard sizes, no
    padding). *)
Inductive endianness : Type := Little | Big.

(** Format characters: ["h"] (signed 16-bit) and ["i"] (signed 32-bit). *)
Inductive code : Type := h | i.

Definition format : Type := (endianness * list code)%type.

Definition size (c : code) : nat :=
  match c with
  | h => 2
  | i => 4
  end.

Definition calcsize (fmt : format) : nat :=
  fold_right (fun c acc => (size c + acc)%nat) 0%nat (snd fmt).

Definition bits (c : code) : Z := 8 * Z.of_nat (size c).

Definition in_range (c : code) (v : Z) : bool :=
  (- 2 ^ (bits c - 1) <=? v) && (v <=? 2 ^ (bits c - 1) - 1).

Definition order (en : endianness) (bs : list byte) : list byte :=
  match en with
  | Little => bs
  | Big => rev bs
  end.

(** One item, two's complement in the requested byte order; [struct.error]
    when the value does not fit. *)
Definition pack1 (en : endianness) (c : code) (v : Z) : option (list byte) :=
  if in_range c v then Some (order en (le_split (size c) v)) else None.

Definition unpack1 (en : endianness) (c : code) (bs : list byte) : Z :=
  let u := le_combine (order en bs) in
  if u <? 2 ^ (bits c - 1) then u else u - 2 ^ bits c.

(** [struct.pack(fmt, v1, v2, ...)]: [struct.error] when the number of values
    differs from the number of format characters or a value is out of
    range. *)
Fixpoint pack_items (en : endianness) (cs : list code) (vs : list Z)
  : option (list byte) :=
  match cs, vs with
  | [], [] => Some []
  | c :: cs', v :: vs' =>
      b <- pack1 en c v ;;
      rest <- pack_items en cs' vs' ;;
      Some (b ++ rest)
  | _, _ => None
  end.

Definition pack (fmt : format) (vs : list Z) : option (list byte) :=
  pack_items (fst fmt) (snd fmt) vs.

Fixpoint unpack_items (en : endianness) (cs : list code) (s : list byte)
  : list Z :=
  match cs with
  | [] => []
  | c :: cs' =>
      unpack1 en c (firstn (size c) s) :: unpack_items en cs' (skipn (size c) s)
  end.

(** [struct.unpack(fmt, s)]: the string must contain exactly [calcsize(fmt)]
    bytes, otherwise [struct.error] is raised. *)
Definition unpack (fmt : format) (s : list byte) : option (list Z) :=
  if (length s =? calcsize fmt)%nat
  then Some (unpack_items (fst fmt) (snd fmt) s)
  else None.

End Struct.

(* ===================================================================== *)
(** ** class Audio (identical in both programs)                           *)
(* ===================================================================== *)

Module Audio.

Record t : Type := mk {
  __stride : Z;
  __low_res : bool;
  __pre_post : Z
}.

Definition __init__ (low_res : bool) : t :=
  {| __stride := 4; __low_res := low_res; __pre_post := 0 |}.

(** The [for elem in a: s += struct.pack(fmt, elem)] loop. *)
Fixpoint serialize_loop (fmt : Struct.format) (a : list Z) (s : list byte)
  : option (list byte) :=
  match a with
  | [] => Some s
  | elem :: a' =>
      p <- Struct.pack fmt [elem] ;;
      serialize_loop fmt a' (s ++ p)
  end.

Definition serialize (self : t) (a : list Z) : option (list byte) :=
  let fmt := if __low_res self then (Struct.Little, [Struct.h])
             else (Struct.Big, [Struct.i]) in
  serialize_loop fmt a [].

Definition deserialize (self : t) (s : list byte) : option (list Z) :=
  let '(endianness, fmt, the_stride) :=
    if __low_res self then (Struct.Little, Struct.h, __stride self / 2)
    else (Struct.Big, Struct.i, __stride self) in
  Struct.unpack
    (endianness, repeat fmt (Z.to_nat (Z.of_nat (length s) / the_stride))) s.

Definition normalize (self : t) (data : list Z) (max_val : Z) : list float :=
  let fac := F64.div F64.one (F64.of_Z max_val) in
  map (fun x => F64.mul fac (F64.of_Z x)) data.

Definition denormalize (self : t) (data : list float) (max_val : Z) : list Z :=
  let fac := F64.mul F64.one (F64.of_Z max_val) in
  let data := Np.clip data (F64.of_Z (-1)) F64.one in
  map (fun x => F64.to_int64 (F64.mul fac x)) data.

End Audio.

(* ===================================================================== *)
(** ** Python lists: indexing, slices, [range]                            *)
(* ===================================================================== *)

Definition len {A : Type} (l : list A) : Z := Z.of_nat (length l).

(** [l[i]]: negative indices count from the end, [IndexError] outside. *)
Definition index {A : Type} (l : list A) (i : Z) : option A :=
  if (0 <=? i) && (i <? len l) then nth_error l (Z.to_nat i)
  else if (- len l <=? i) && (i <? 0) then nth_error l (Z.to_nat (len l + i))
  else None.

Fixpoint set_nth {A : Type} (l : list A) (k : nat) (v : A) : list A :=
  match l, k with
  | [], _ => []
  | _ :: l', O => v :: l'
  | x :: l', S k' => x :: set_nth l' k' v
  end.

(** [l[i] = v] for [0 <= i]; [IndexError] outside. *)
Definition set_index {A : Type} (l : list A) (i : Z) (v : A) : option (list A) :=
  if (0 <=? i) && (i <? len l) then Some (set_nth l (Z.to_nat i) v) else None.

(** [range(start, stop)]. *)
Definition range (start stop : Z) : list Z :=
  map (fun k => start + Z.of_nat k) (seq 0 (Z.to_nat (stop - start))).

(** [range(start, stop, step)] for a positive [step]. *)
Definition range_step (start stop step : Z) : list Z :=
  map (fun k => start + Z.of_nat k * step)
      (seq 0 (Z.to_nat ((stop - start + step - 1) / step))).

(** [l[lo : hi]] for [0 <= lo <= hi]; slices never raise, they shorten. *)
Definition slice {A : Type} (l : list A) (lo hi : Z) : list A :=
  firstn (Z.to_nat (hi - lo)) (skipn (Z.to_nat lo) l).

(** [l[lo :]] for [0 <= lo]. *)
Definition slice_from {A : Type} (l : list A) (lo : Z) : list A :=
  skipn (Z.to_nat lo) l.

(* ===================================================================== *)
(** ** sr-to-ir.py: differentiation, band limiting, rescaling             *)
(* ===================================================================== *)

(** The [for i in range(1, n - 1)] loop of [derive]. *)
Fixpoint derive_loop (ir : list float) (idx : list Z) (der : list float)
  : option (list float) :=
  match idx with
  | [] => Some der
  | i :: rest =>
      hi <- index ir (i + 1) ;;
      lo <- index ir (i - 1) ;;
      derive_loop ir rest (der ++ [F64.sub hi lo])
  end.

Definition derive (ir : list float) : option (list float) :=
  let der := [] in
  let n := len ir in
  let der := der ++ [F64.zero] in
  der <- derive_loop ir (range 1 (n - 1)) der ;;
  let der := der ++ [F64.zero] in
  Some der.

(** Elements of the transformed array are complex numbers. *)
Record complex : Type := Complex { re : float; im : float }.

(** Storing the float [0.0] into a complex array element. *)
Definition complex_of_float (x : float) : complex :=
  {| re := x; im := F64.zero |}.

(** The test [(freq < 20.0) | (freq > 20000.0)] on [freq = |freqs[i]|]. *)
Definition inaudible (f : float) : bool :=
  let freq := Np.absolute f in
  F64.ltb freq (F64.of_Z 20) || F64.gtb freq (F64.of_Z 20000).

(** The [for i in range(0, len(freqs))] loop of the post-processing step. *)
Fixpoint clear_loop (freqs : list float) (idx : list Z) (ndata_fft : list complex)
  : option (list complex) :=
  match idx with
  | [] => Some ndata_fft
  | i :: rest =>
      f <- index freqs i ;;
      if inaudible f
      then (ndata_fft' <- set_index ndata_fft i (complex_of_float F64.zero) ;;
            clear_loop freqs rest ndata_fft')
      else clear_loop freqs rest ndata_fft
  end.

Definition clear_inaudible (freqs : list float) (ndata_fft : list complex)
  : option (list complex) :=
  clear_loop freqs (range 0 (len freqs)) ndata_fft.

(** "Scale samples into unit range": the four statements before the output
    loop. *)
Definition rescale (ndata : list float) : option (list float) :=
  let ndata_abs := map Np.absolute ndata in
  peak <- Np.max ndata_abs ;;
  let scale := F64.div F64.one peak in
  Some (map (fun x => F64.mul x scale) ndata).

(** The divisor of [scale = 1.0 / peak]. *)
Definition peak (ndata : list float) : option float :=
  Np.max (map Np.absolute ndata).

Section Converter.

(** The discrete Fourier transform and its inverse ([np.fft.fft],
    [np.fft.ifft]) are library primitives. *)
Variable fft ifft : list complex -> list complex.

Definition post_process_stage (samplerate : Z) (ndata : list float)
  (data_length : Z) : option (list float) :=
  let zeros := Np.zeros_like ndata in
  let ndata := ndata ++ zeros in
  let samplerate_inv := F64.div F64.one (F64.of_Z samplerate) in
  let ndata_fft := fft (map complex_of_float ndata) in
  let n := len ndata_fft in
  let freqs := Np.fftfreq n samplerate_inv in
  ndata_fft <- clear_inaudible freqs ndata_fft ;;
  let ndata_ifft := ifft ndata_fft in
  let ndata := map re ndata_ifft in
  Some (slice ndata 0 data_length).

(** Decoding and normalising the buffers read from the input file. *)
Fixpoint read_loop (audio : Audio.t) (data : list (list byte))
  (ndata : list float) : option (list float) :=
  match data with
  | [] => Some ndata
  | buf :: data' =>
      pbuf <- Audio.deserialize audio buf ;;
      let nbuf := Audio.normalize audio pbuf 32767 in
      read_loop audio data' (ndata ++ nbuf)
  end.

(** The output loop: blocks of 8192 samples, denormalised and encoded. *)
Fixpoint write_loop (audio : Audio.t) (ndata : list float) (idx : list Z)
  (data : list (list byte)) : option (list (list byte)) :=
  match idx with
  | [] => Some data
  | i :: rest =>
      let nbuf := slice ndata i (i + 8192) in
      let pbuf := Audio.denormalize audio nbuf 32767 in
      buf <- Audio.serialize audio pbuf ;;
      write_loop audio ndata rest (data ++ [buf])
  end.

(** The body of the program from the buffers read from the input file
    ([data], the last one empty) to the buffers written to the output
    file. *)
Definition convert (post_process : bool) (samplerate : Z)
  (data : list (list byte)) : option (list (list byte)) :=
  let audio := Audio.__init__ true in
  ndata <- read_loop audio data [] ;;
  ndata <- derive ndata ;;
  let data_length := len ndata in
  ndata <- (if post_process
            then post_process_stage samplerate ndata data_length
            else Some ndata) ;;
  ndata <- rescale ndata ;;
  write_loop audio ndata (range_step 0 (len ndata) 8192) [].

End Converter.

(* ===================================================================== *)
(** ** signal-gen.py: the linear congruential generator                   *)
(* ===================================================================== *)

Module LCG.

Record t : Type := mk {
  __a : Z;
  __b : Z;
  __c : Z;
  __state : Z
}.

Definition __init__ (seed : Z) : t :=
  let scale := 64979 in
  let offset := 83 in
  let c := 2 ^ 31 - 1 in
  {| __a := 7 ^ 5;
     __b := 0;
     __c := c;
     __state := (scale * seed + offset) mod c |}.

(** [__iter__] returns the object itself. *)
Definition __iter__ (self : t) : t := self.

(** [next] updates the state and returns it. *)
Definition next (self : t) : Z * t :=
  let state := (__a self * __state self + __b self) mod __c self in
  (state, {| __a := __a self; __b := __b self; __c := __c self;
             __state := state |}).

Definition get_c (self : t) : Z := __c self.

(** [list(itertools.islice(self, n))]: the results of [n] calls of [next]. *)
Fixpoint islice (self : t) (n : nat) : list Z * t :=
  match n with
  | O => ([], self)
  | S n' =>
      let '(x, self1) := next self in
      let '(xs, self2) := islice self1 n' in
      (x :: xs, self2)
  end.

(** [np.array(...) / self.__c] under true division: every element and the
    divisor are converted to binary64. *)
Definition draw_uniform (self : t) (n : nat) : list float * t :=
  let '(xs, self') := islice self n in
  (map (fun x => F64.div (F64.of_Z x) (F64.of_Z (__c self))) xs, self').

End LCG.

(* ===================================================================== *)
(** ** signal-gen.py: waveform assembly and the replay loop               *)
(* ===================================================================== *)

Definition rate : Z := 96000.
Definition num : Z := rate / 50.

Definition lcg : LCG.t := LCG.__init__ 1337.
Definition silence : list float := Np.zeros (Z.to_nat rate).
Definition plusone : list float := Np.ones (Z.to_nat rate).
Definition minusone : list float := map F64.neg (Np.ones (Z.to_nat rate)).
Definition noise : list float := fst (LCG.draw_uniform lcg (Z.to_nat rate)).

(** [np.concatenate((silence, noise, ...))]. *)
Definition ndata : list float :=
  concat [silence; noise; silence; plusone; silence; minusone; silence;
          plusone; minusone; silence].

(** How a loop ends: normally, with an exception, or not within the steps
    granted. *)
Inductive outcome (A : Type) : Type :=
| Finished (a : A)
| Raised
| OutOfFuel.
Arguments Finished {A} a.
Arguments Raised {A}.
Arguments OutOfFuel {A}.

(** The playback device is a sink; its state is the list of blocks written
    so far. *)
Definition pcm : Type := list (list byte).

Definition write (outp : pcm) (data : list byte) : pcm := outp ++ [data].

(** The inner [while len(rdata) > 0] loop. *)
Fixpoint chunk_loop (fuel : nat) (audio : Audio.t) (num : Z)
  (rdata : list float) (outp : pcm) : outcome pcm :=
  match fuel with
  | O => OutOfFuel
  | S fuel' =>
      if 0 <? len rdata then
        let ldata := slice rdata 0 num in
        let rdata := slice_from rdata num in
        let pdata := Audio.denormalize audio ldata 2147483647 in
        match Audio.serialize audio pdata with
        | Some data => chunk_loop fuel' audio num rdata (write outp data)
        | None => Raised
        end
      else Finished outp
  end.

(** The first [cycles] rounds of the outer [while True] loop, each granted
    [fuel] inner steps. *)
Fixpoint replay (cycles fuel : nat) (audio : Audio.t) (num : Z)
  (ndata : list float) (outp : pcm) : outcome pcm :=
  match cycles with
  | O => Finished outp
  | S cycles' =>
      let rdata := ndata in
      match chunk_loop fuel audio num rdata outp with
      | Finished outp' => replay cycles' fuel audio num ndata outp'
      | Raised => Raised
      | OutOfFuel => OutOfFuel
      end
  end.

(* ===================================================================== *)
(** ** Notions used in the statements                                     *)
(* ===================================================================== *)

(** The two codec configurations the programs use: 16-bit little-endian
    with full scale [0x7fff] ([low_res = True]) and 32-bit big-endian with
    full scale [0x7fffffff]. *)
Definition full_scale (low_res : bool) : Z :=
  if low_res then 2 ^ 15 - 1 else 2 ^ 31 - 1.

Definition width (low_res : bool) : Z := if low_res then 2 else 4.

Definition sample_code (low_res : bool) : Struct.code :=
  if low_res then Struct.h else Struct.i.

Definition sample_order (low_res : bool) : Struct.endianness :=
  if low_res then Struct.Little else Struct.Big.

(** The bytes of one sample as the loop body of [serialize] produces them. *)
Definition encoding (en : Struct.endianness) (c : Struct.code) (v : Z)
  : list byte :=
  Struct.order en (le_split (Struct.size c) v).

(** What silent truncation would mean for a byte string [b]: decoding
    succeeds with [len b // width] samples, those of the longest prefix of
    whole samples. *)
Definition silent_truncation (low_res : bool) (b : list byte) : Prop :=
  exists a,
    Audio.deserialize (Audio.__init__ low_res) b = Some a /\
    len a = len b / width low_res /\
    Audio.deserialize (Audio.__init__ low_res)
      (slice b 0 (width low_res * (len b / width low_res))) = Some a.

(** The central difference at position [i], read with a default outside the
    list. *)
Definition central_difference (ir : list float) (i : Z) : float :=
  F64.sub (nth (Z.to_nat (i + 1)) ir F64.zero)
          (nth (Z.to_nat (i - 1)) ir F64.zero).

(** Whether the bin at position [j] has an inaudible frequency. *)
Definition inaudible_at (freqs : list float) (j : nat) : bool :=
  match nth_error freqs j with
  | Some f => inaudible f
  | None => false
  end.

(** The test [x != 0.0]. *)
Definition nonzero (x : float) : Prop := F64.eqb x F64.zero = false.

(** Rounding works on shift records.  [upper] is the smallest integer that
    is not below the value a record stands for, [loc_upper] the same for a
    mantissa with a location. *)
Definition inexact (mrs : shr_record) : bool := shr_r mrs || shr_s mrs.

Definition upper (mrs : shr_record) : Z :=
  shr_m mrs + (if inexact mrs then 1 else 0).

Definition loc_upper (m : Z) (l : location) : Z :=
  m + match l with loc_Exact => 0 | loc_Inexact _ => 1 end.

(** A zero or a finite value of magnitude at most one. *)
Definition unit_magnitude (x : float) : Prop :=
  match x with
  | S754_zero _ => True
  | S754_finite _ m e => e < 0 /\ Zpos m <= 2 ^ (- e)
  | _ => False
  end.

(** The range postcondition of [denormalize] for one input. *)
Definition denormalize_in_range (data : list float) (fs : Z) : Prop :=
  Forall (fun v => - fs <= v <= fs)
         (Audio.denormalize (Audio.__init__ true) data fs).

(** The modulus of the generator and its sequence of states:
    [state_0 = (64979 * seed + 83) mod c],
    [state_i = (7^5 * state_(i-1) + 0) mod c]. *)
Definition lcg_c : Z := 2 ^ 31 - 1.

Fixpoint lcg_state (seed : Z) (i : nat) : Z :=
  match i with
  | O => (64979 * seed + 83) mod lcg_c
  | S j => (7 ^ 5 * lcg_state seed j + 0) mod lcg_c
  end.

(** The generator object after [k] calls of [next]. *)
Definition lcg_at (seed : Z) (k : nat) : LCG.t :=
  {| LCG.__a := 7 ^ 5; LCG.__b := 0; LCG.__c := lcg_c;
     LCG.__state := lcg_state seed k |}.

(** Applying the rescale step twice gives what applying it once gives. *)
Definition rescale_idempotent (ndata : list float) : Prop :=
  (once <- rescale ndata ;; rescale once) = rescale ndata.

(** The chunks the replay loop cuts a waveform into, one per step. *)
Fixpoint chunk_list (k : nat) (num : Z) (rdata : list float)
  : list (list float) :=
  match k with
  | O => []
  | S k' => slice rdata 0 num :: chunk_list k' num (slice_from rdata num)
  end.

(** The block written for one chunk: its samples denormalised with full
    scale [0x7fffffff] and encoded as 32-bit big-endian integers. *)
Definition emit (ldata : list float) : list byte :=
  flat_map (encoding Struct.Big Struct.i)
           (Audio.denormalize (Audio.__init__ false) ldata 2147483647).

(** Samples the clamp of [denormalize] turns into a zero or a finite value
    of magnitude at most one. *)
Definition playable (x : float) : Prop :=
  unit_magnitude (Np.clip1 (F64.of_Z (-1)) F64.one x).

(** The period size set on the playback device, [outp.setperiodsize(num * 4)]:
    the number of bytes the device takes per write. *)
Definition periodsize : Z := num * 4.

(** The values the converter works with.  A normalised 16-bit sample is
    [+0.0] or a finite number with a full 53-bit mantissa and an exponent
    between -67 and -50; a difference of two of them is a zero or a finite
    number with a full mantissa and an exponent between -120 and -30. *)
Definition sample_value (x : float) : Prop :=
  match x with
  | S754_zero s => s = false
  | S754_finite _ m e => Zpos (digits2_pos m) = 53 /\ -67 <= e <= -50
  | _ => False
  end.

Definition difference_value (x : float) : Prop :=
  match x with
  | S754_zero _ => True
  | S754_finite _ m e => Zpos (digits2_pos m) = 53 /\ -120 <= e <= -30
  | _ => False
  end.

(** One normalised sample, [fac * x] with [fac = 1.0 / 0x7fff]. *)
Definition normalize1 (v : Z) : float :=
  F64.mul (F64.div F64.one (F64.of_Z 32767)) (F64.of_Z v).

(* ===================================================================== *)
(** ** sr-to-ir.py: the wave files and the program entry point            *)
(* ===================================================================== *)

From Stdlib Require String.
Import String.StringSyntax.
Delimit Scope string_scope with string.

(** Python's [wave] module, as far as the program uses it. *)
Module Wave.

(** The numbers in the tuple [getparams()] returns and [setparams()]
    takes. *)
Record params : Type := mk_params {
  nchannels : Z;
  sampwidth : Z;
  framerate : Z;
  nframes : Z
}.

(** A file opened with mode ["rb"]: its parameters and the audio data not
    read yet. *)
Record Wave_read : Type := mk_read {
  r_params : params;
  r_data : list byte
}.

(** A file opened with mode ["wb"]: the parameters set, if any, and the
    audio data written. *)
Record Wave_write : Type := mk_write {
  w_params : option params;
  w_data : list byte
}.

Definition getparams (self : Wave_read) : params := r_params self.

Definition getframerate (self : Wave_read) : Z := framerate (r_params self).

(** [readframes(n)]: the next [n] frames of [nchannels * sampwidth] bytes,
    fewer at the end of the data and the empty string after it. *)
Definition readframes (self : Wave_read) (n : Z) : list byte * Wave_read :=
  let p := r_params self in
  let k := Z.to_nat (n * (nchannels p * sampwidth p)) in
  (firstn k (r_data self), {| r_params := p; r_data := skipn k (r_data self) |}).

Definition setparams (self : Wave_write) (p : params) : Wave_write :=
  {| w_params := Some p; w_data := w_data self |}.

Definition writeframes (self : Wave_write) (data : list byte) : Wave_write :=
  {| w_params := w_params self; w_data := w_data self ++ data |}.

End Wave.

(** The [while len(buf) > 0] loop that reads the input file. *)
Fixpoint read_frames (fuel : nat) (in_wav : Wave.Wave_read) (buf : list byte)
  (data : list (list byte))
  : outcome (list (list byte) * list byte * Wave.Wave_read) :=
  match fuel with
  | O => OutOfFuel
  | S fuel' =>
      if 0 <? len buf then
        let data := data ++ [buf] in
        let '(buf, in_wav) := Wave.readframes in_wav 8192 in
        read_frames fuel' in_wav buf data
      else Finished (data, buf, in_wav)
  end.

Section Program.

Variable fft ifft : list complex -> list complex.

(** The program, run with the argument vector [argv] on the input file
    [in_wav] (the one [argv[1]] names) and the freshly created output file
    [out_wav] (the one [argv[2]] names).  Its result is the output file as
    it is when the program ends, or nothing when there are too few
    arguments. *)
Definition main (fuel : nat) (argv : list String.string)
  (in_wav : Wave.Wave_read) (out_wav : Wave.Wave_write)
  : outcome (option Wave.Wave_write) :=
  if len argv <? 3 then Finished None
  else
    let post_process := false in
    let post_process :=
      if 3 <? len argv
      then (if String.eqb (nth 3 argv ""%string) "postprocess"%string
            then true else post_process)
      else post_process in
    let params := Wave.getparams in_wav in
    let out_wav := Wave.setparams out_wav params in
    let '(buf, in_wav) := Wave.readframes in_wav 8192 in
    match read_frames fuel in_wav buf [] with
    | Finished (data, buf, in_wav) =>
        let data := data ++ [buf] in
        match convert fft ifft post_process (Wave.getframerate in_wav) data with
        | Some data => Finished (Some (fold_left Wave.writeframes data out_wav))
        | None => Raised
        end
    | Raised => Raised
    | OutOfFuel => OutOfFuel
    end.

End Program.

(** The bytes of one frame of a file. *)
Definition framesize (p : Wave.params) : Z :=
  Wave.nchannels p * Wave.sampwidth p.

(** The output file as [wave.open(name, "wb")] creates it. *)
Definition new_wave : Wave.Wave_write :=
  {| Wave.w_params := None; Wave.w_data := [] |}.

(* ===================================================================== *)
(** ** Lists, indices and ranges                                          *)
(* ===================================================================== *)

Lemma index_in_range {A : Type} (l : list A) (i : Z) (d : A) :
  0 <= i < len l -> index l i = Some (nth (Z.to_nat i) l d).
Proof.
  intros H. unfold index.
  replace ((0 <=? i) && (i <? len l)) with true
    by (symmetry; apply andb_true_intro; split; [apply Z.leb_le | apply Z.ltb_lt]; lia).
  apply nth_error_nth'. unfold len in H. lia.
Qed.

Lemma index_out_of_range {A : Type} (l : list A) (i : Z) :
  len l <= i -> index l i = None.
Proof.
  intros H. unfold index. unfold len in *.
  destruct (Z.leb_spec 0 i); destruct (Z.ltb_spec i (Z.of_nat (length l)));
    destruct (Z.leb_spec (- Z.of_nat (length l)) i); destruct (Z.ltb_spec i 0);
    simpl; try lia; reflexivity.
Qed.

Lemma range_In (start stop i : Z) :
  In i (range start stop) <-> start <= i < stop.
Proof.
  unfold range. rewrite in_map_iff. split.
  - intros [k [<- Hk]]. apply in_seq in Hk. lia.
  - intros H. exists (Z.to_nat (i - start)). split; [lia|].
    apply in_seq. lia.
Qed.

Lemma range_length (start stop : Z) :
  length (range start stop) = Z.to_nat (stop - start).
Proof. unfold range. now rewrite length_map, length_seq. Qed.

Lemma range_nth (start stop : Z) (k : nat) (d : Z) :
  (k < Z.to_nat (stop - start))%nat ->
  nth k (range start stop) d = start + Z.of_nat k.
Proof.
  intros H. unfold range.
  pose proof (map_nth (fun j => start + Z.of_nat j)
                (seq 0 (Z.to_nat (stop - start))) 0%nat k) as E.
  simpl in E.
  rewrite nth_indep with (d' := start + 0)
    by (rewrite length_map, length_seq; exact H).
  rewrite E, seq_nth by exact H. reflexivity.
Qed.

Lemma set_nth_length {A : Type} (l : list A) (k : nat) (v : A) :
  length (set_nth l k v) = length l.
Proof.
  revert k. induction l as [|x l IH]; intros [|k]; simpl; auto.
Qed.

Lemma nth_error_set_nth_same {A : Type} (l : list A) (k : nat) (v : A) :
  (k < length l)%nat -> nth_error (set_nth l k v) k = Some v.
Proof.
  revert k. induction l as [|x l IH]; intros [|k] H; simpl in *; try lia; auto.
  apply IH. lia.
Qed.

Lemma nth_error_set_nth_other {A : Type} (l : list A) (k j : nat) (v : A) :
  j <> k -> nth_error (set_nth l k v) j = nth_error l j.
Proof.
  revert k j. induction l as [|x l IH]; intros [|k] [|j] H; simpl; auto.
  congruence.
Qed.

Lemma seq_from (n m : nat) : seq n m = map (Nat.add n) (seq 0 m).
Proof.
  revert n. induction m as [|m IH]; intros n; [reflexivity|].
  cbn [seq map]. rewrite Nat.add_0_r. f_equal.
  rewrite (IH (S n)), (IH 1%nat), map_map. apply map_ext. intros i. lia.
Qed.

Lemma slice_0 {A : Type} (l : list A) (n : Z) :
  slice l 0 n = firstn (Z.to_nat n) l.
Proof. unfold slice. now rewrite Z.sub_0_r. Qed.

Lemma len_app {A : Type} (l1 l2 : list A) : len (l1 ++ l2) = len l1 + len l2.
Proof. unfold len. rewrite length_app. lia. Qed.

Lemma Forall_firstn_skipn {A : Type} (P : A -> Prop) (n : nat) (l : list A) :
  Forall P l -> Forall P (firstn n l) /\ Forall P (skipn n l).
Proof.
  intros H. rewrite <- (firstn_skipn n l) in H. now apply Forall_app in H.
Qed.

Lemma Forall_repeat {A : Type} (P : A -> Prop) (x : A) (n : nat) :
  P x -> Forall P (repeat x n).
Proof. intros H. induction n; simpl; constructor; assumption. Qed.

(* ===================================================================== *)
(** ** The sample codec                                                   *)
(* ===================================================================== *)

Lemma order_involutive (en : Struct.endianness) (bs : list byte) :
  Struct.order en (Struct.order en bs) = bs.
Proof. destruct en; simpl; [reflexivity | apply rev_involutive]. Qed.

Lemma order_length (en : Struct.endianness) (bs : list byte) :
  length (Struct.order en bs) = length bs.
Proof. destruct en; simpl; [reflexivity | apply length_rev]. Qed.

Lemma in_range_bounds (c : Struct.code) (v : Z) :
  Struct.in_range c v = true ->
  - 2 ^ (Struct.bits c - 1) <= v <= 2 ^ (Struct.bits c - 1) - 1.
Proof. unfold Struct.in_range. intros H. apply andb_prop in H. lia. Qed.

Lemma unpack1_pack (en : Struct.endianness) (c : Struct.code) (v : Z) :
  Struct.in_range c v = true ->
  Struct.unpack1 en c (Struct.order en (le_split (Struct.size c) v)) = v.
Proof.
  intros H. apply in_range_bounds in H.
  unfold Struct.unpack1. rewrite order_involutive, le_combine_split.
  replace (Z.of_nat (Struct.size c) * 8) with (Struct.bits c)
    by (unfold Struct.bits; lia).
  assert (Hb : 2 ^ Struct.bits c = 2 * 2 ^ (Struct.bits c - 1)).
  { destruct c; reflexivity. }
  assert (Hp : 0 < 2 ^ (Struct.bits c - 1)) by (destruct c; reflexivity).
  destruct (Z_lt_le_dec v 0) as [Hneg | Hpos].
  - replace (v mod 2 ^ Struct.bits c) with (v + 2 ^ Struct.bits c).
    + destruct (Z.ltb_spec (v + 2 ^ Struct.bits c) (2 ^ (Struct.bits c - 1))); lia.
    + apply Z.mod_unique with (q := -1); lia.
  - rewrite Z.mod_small by lia.
    destruct (Z.ltb_spec v (2 ^ (Struct.bits c - 1))); lia.
Qed.

Lemma pack1_length en c v b :
  Struct.pack1 en c v = Some b -> length b = Struct.size c.
Proof.
  unfold Struct.pack1. destruct (Struct.in_range c v); [|discriminate].
  intros [= <-]. now rewrite order_length, length_le_split.
Qed.

Lemma pack_single en c v :
  Struct.in_range c v = true ->
  Struct.pack (en, [c]) [v] = Some (encoding en c v).
Proof.
  intros H. unfold Struct.pack, Struct.pack1, encoding; simpl.
  unfold Struct.pack1. rewrite H. simpl. now rewrite app_nil_r.
Qed.

Lemma serialize_loop_ok en c (a : list Z) : forall s,
  Forall (fun v => Struct.in_range c v = true) a ->
  Audio.serialize_loop (en, [c]) a s =
    Some (s ++ flat_map (encoding en c) a).
Proof.
  induction a as [|v a IH]; intros s Ha; simpl.
  - now rewrite app_nil_r.
  - inversion Ha as [|? ? Hv Ha']; subst.
    rewrite pack_single by assumption. simpl.
    rewrite IH by assumption. now rewrite <- app_assoc.
Qed.

Lemma encoding_length en c v : length (encoding en c v) = Struct.size c.
Proof. unfold encoding. now rewrite order_length, length_le_split. Qed.

Lemma flat_map_encoding_length en c (a : list Z) :
  length (flat_map (encoding en c) a) = (length a * Struct.size c)%nat.
Proof.
  induction a as [|v a IH]; simpl; [reflexivity|].
  rewrite length_app, encoding_length, IH. lia.
Qed.

Lemma calcsize_repeat en c n :
  Struct.calcsize (en, repeat c n) = (n * Struct.size c)%nat.
Proof.
  unfold Struct.calcsize; simpl. induction n as [|n IH]; simpl; [reflexivity|].
  now rewrite IH.
Qed.

Lemma unpack_items_encoded en c (a : list Z) :
  Forall (fun v => Struct.in_range c v = true) a ->
  Struct.unpack_items en (repeat c (length a)) (flat_map (encoding en c) a) = a.
Proof.
  induction a as [|v a IH]; intros Ha; simpl; [reflexivity|].
  inversion Ha as [|? ? Hv Ha']; subst.
  rewrite firstn_app, skipn_app, encoding_length.
  rewrite Nat.sub_diag. simpl firstn at 2. simpl skipn at 2.
  rewrite app_nil_r.
  rewrite firstn_all2 by (rewrite encoding_length; lia).
  rewrite skipn_all2 by (rewrite encoding_length; lia).
  simpl. rewrite IH by assumption. f_equal.
  unfold encoding. now apply unpack1_pack.
Qed.

Lemma serialize_eq low_res a :
  Audio.serialize (Audio.__init__ low_res) a =
  Audio.serialize_loop (sample_order low_res, [sample_code low_res]) a [].
Proof. destruct low_res; reflexivity. Qed.

Lemma deserialize_eq low_res s :
  Audio.deserialize (Audio.__init__ low_res) s =
  Struct.unpack (sample_order low_res,
                 repeat (sample_code low_res)
                        (Z.to_nat (len s / width low_res))) s.
Proof. destruct low_res; reflexivity. Qed.

Lemma width_size low_res :
  width low_res = Z.of_nat (Struct.size (sample_code low_res)).
Proof. destruct low_res; reflexivity. Qed.

Lemma full_scale_in_range low_res v :
  - full_scale low_res <= v <= full_scale low_res ->
  Struct.in_range (sample_code low_res) v = true.
Proof.
  unfold Struct.in_range, full_scale.
  destruct low_res; simpl; intros H; apply andb_true_intro; split;
    apply Z.leb_le; lia.
Qed.

Lemma deserialize_encoded low_res (a : list Z) :
  Forall (fun v => Struct.in_range (sample_code low_res) v = true) a ->
  Audio.deserialize (Audio.__init__ low_res)
    (flat_map (encoding (sample_order low_res) (sample_code low_res)) a) = Some a.
Proof.
  intros Ha. rewrite deserialize_eq. unfold Struct.unpack, len.
  rewrite flat_map_encoding_length, width_size.
  assert (Hs : (0 < Struct.size (sample_code low_res))%nat)
    by (destruct low_res; simpl; lia).
  rewrite Nat2Z.inj_mul, Z.div_mul by lia. rewrite Nat2Z.id.
  rewrite calcsize_repeat, Nat.eqb_refl. simpl.
  now rewrite unpack_items_encoded.
Qed.

(** C4 (codec round trip).  For both configurations of the codec, every
    sequence of integers within [-full_scale, full_scale] is encoded without
    error and decoding the result restores the sequence exactly; in
    particular this holds for each one-element sequence [[v]]. *)
Theorem codec_round_trip (low_res : bool) (a : list Z) :
  Forall (fun v => - full_scale low_res <= v <= full_scale low_res) a ->
  (exists s, Audio.serialize (Audio.__init__ low_res) a = Some s /\
             Audio.deserialize (Audio.__init__ low_res) s = Some a) /\
  (forall v, In v a ->
     exists s, Audio.serialize (Audio.__init__ low_res) [v] = Some s /\
               Audio.deserialize (Audio.__init__ low_res) s = Some [v]).
Proof.
  intros Ha.
  assert (Hall : forall l,
    Forall (fun v => - full_scale low_res <= v <= full_scale low_res) l ->
    exists s, Audio.serialize (Audio.__init__ low_res) l = Some s /\
              Audio.deserialize (Audio.__init__ low_res) s = Some l).
  { intros l Hl.
    assert (Hr : Forall (fun v => Struct.in_range (sample_code low_res) v = true) l).
    { eapply Forall_impl; [|exact Hl]. intros v. apply full_scale_in_range. }
    eexists. split.
    - rewrite serialize_eq. apply serialize_loop_ok. exact Hr.
    - simpl. now apply deserialize_encoded. }
  split; [now apply Hall|].
  intros v Hv. apply Hall. constructor; [|constructor].
  rewrite Forall_forall in Ha. now apply Ha.
Qed.

Lemma codec_round_trip_witness :
  (exists s, Audio.serialize (Audio.__init__ true) [32767; -32767; 0; 1] = Some s /\
             Audio.deserialize (Audio.__init__ true) s = Some [32767; -32767; 0; 1]) /\
  (exists s, Audio.serialize (Audio.__init__ false) [2147483647; -2147483647] = Some s /\
             Audio.deserialize (Audio.__init__ false) s = Some [2147483647; -2147483647]).
Proof.
  split.
  - apply (codec_round_trip true [32767; -32767; 0; 1]).
    repeat constructor; simpl; lia.
  - apply (codec_round_trip false [2147483647; -2147483647]).
    repeat constructor; simpl; lia.
Defined.

Lemma unpack_items_length en cs (s : list byte) :
  length (Struct.unpack_items en cs s) = length cs.
Proof.
  revert s. induction cs as [|c cs IH]; intros s; simpl; [reflexivity|].
  now rewrite IH.
Qed.

Lemma deserialize_not_multiple low_res (s : list byte) :
  len s mod width low_res <> 0 ->
  Audio.deserialize (Audio.__init__ low_res) s = None.
Proof.
  intros H. rewrite deserialize_eq. unfold Struct.unpack.
  rewrite calcsize_repeat.
  destruct (Nat.eqb_spec (length s)
    (Z.to_nat (len s / width low_res) * Struct.size (sample_code low_res)))
    as [e|]; [|reflexivity].
  exfalso. apply H. unfold len in *. rewrite e at 1.
  rewrite Nat2Z.inj_mul, <- width_size. apply Z.mod_mul.
  destruct low_res; discriminate.
Qed.

Lemma deserialize_multiple low_res (s : list byte) :
  len s mod width low_res = 0 ->
  exists a, Audio.deserialize (Audio.__init__ low_res) s = Some a /\
            len a = len s / width low_res.
Proof.
  intros H. rewrite deserialize_eq. unfold Struct.unpack.
  rewrite calcsize_repeat.
  assert (Hw : 0 < width low_res) by (destruct low_res; reflexivity).
  assert (Hq : 0 <= len s / width low_res)
    by (apply Z.div_pos; unfold len; lia).
  assert (Hlen : length s =
    (Z.to_nat (len s / width low_res) * Struct.size (sample_code low_res))%nat).
  { apply Nat2Z.inj. rewrite Nat2Z.inj_mul, <- width_size.
    rewrite Z2Nat.id by exact Hq.
    fold (len s). rewrite (Z.div_mod (len s) (width low_res)) at 1 by lia.
    rewrite H. lia. }
  rewrite <- Hlen, Nat.eqb_refl. eexists. split; [reflexivity|].
  unfold len at 1. simpl fst; simpl snd.
  rewrite unpack_items_length, repeat_length. now rewrite Z2Nat.id.
Qed.

(** C7, as the code behaves.  [struct.unpack] checks the length of its
    argument: a byte string whose length is not a multiple of the sample
    width makes [deserialize] raise, and nothing is returned; a byte string
    of whole samples decodes to [len s // width] samples. *)
Theorem deserialize_length_check (low_res : bool) (s : list byte) :
  (len s mod width low_res <> 0 ->
     Audio.deserialize (Audio.__init__ low_res) s = None) /\
  (len s mod width low_res = 0 ->
     exists a, Audio.deserialize (Audio.__init__ low_res) s = Some a /\
               len a = len s / width low_res).
Proof.
  split; [apply deserialize_not_multiple | apply deserialize_multiple].
Qed.

Lemma deserialize_length_check_witness :
  Audio.deserialize (Audio.__init__ true) [Byte.x01; Byte.x00; Byte.x02] = None /\
  (exists a, Audio.deserialize (Audio.__init__ false)
               [Byte.x00; Byte.x00; Byte.x01; Byte.x00] = Some a /\
             len a = 1).
Proof.
  split.
  - apply (proj1 (deserialize_length_check true [Byte.x01; Byte.x00; Byte.x02])).
    vm_compute. discriminate.
  - apply (proj2 (deserialize_length_check false
                    [Byte.x00; Byte.x00; Byte.x01; Byte.x00])).
    reflexivity.
Defined.

(** C7, as stated, fails: three bytes given to the 16-bit codec are not
    decoded to the one sample of their two-byte prefix; the call raises. *)
Lemma deserialize_truncation_refuted :
  ~ silent_truncation true [Byte.x01; Byte.x00; Byte.x02].
Proof.
  intros [a [H _]]. vm_compute in H. discriminate H.
Qed.

(* ===================================================================== *)
(** ** binary64: comparisons                                              *)
(* ===================================================================== *)

Lemma SFcompare_swap (x y : float) :
  SFcompare y x = option_map CompOpp (SFcompare x y).
Proof.
  destruct x as [sx|sx| |sx mx ex], y as [sy|sy| |sy my ey]; simpl;
    try reflexivity;
    try (destruct sx; reflexivity); try (destruct sy; reflexivity);
    try (destruct sx, sy; reflexivity).
  destruct sx, sy; simpl; try reflexivity; f_equal;
    rewrite (Z.compare_antisym ex ey); destruct (ex ?= ey); simpl;
    try reflexivity;
    rewrite (Pos.compare_cont_antisym mx my Eq); simpl;
    try reflexivity.
Qed.

Lemma leb_not_gtb (x y : float) : F64.leb x y = true -> F64.gtb x y = false.
Proof.
  unfold F64.leb, F64.gtb, SFleb, SFltb. rewrite (SFcompare_swap x y).
  destruct (SFcompare x y) as [[| |]|]; simpl; congruence.
Qed.

Lemma leb_not_ltb (x y : float) : F64.leb x y = true -> F64.ltb y x = false.
Proof. apply leb_not_gtb. Qed.

(* ===================================================================== *)
(** ** binary64: rounding                                                 *)
(* ===================================================================== *)

(** *** Number of binary digits *)

Lemma digits2_pos_bounds (p : positive) :
  2 ^ (Zpos (digits2_pos p) - 1) <= Zpos p < 2 ^ Zpos (digits2_pos p).
Proof.
  induction p as [p IH | p IH |]; simpl digits2_pos.
  - rewrite Pos2Z.inj_succ.
    replace (Z.succ (Zpos (digits2_pos p)) - 1) with (Z.succ (Zpos (digits2_pos p) - 1)) by lia.
    rewrite !Z.pow_succ_r by lia. lia.
  - rewrite Pos2Z.inj_succ.
    replace (Z.succ (Zpos (digits2_pos p)) - 1) with (Z.succ (Zpos (digits2_pos p) - 1)) by lia.
    rewrite !Z.pow_succ_r by lia. lia.
  - simpl. lia.
Qed.

Lemma Zdigits2_bounds (m : Z) :
  0 < m -> 2 ^ (Zdigits2 m - 1) <= m < 2 ^ Zdigits2 m.
Proof. destruct m as [|p|p]; try lia. intros _. apply digits2_pos_bounds. Qed.

Lemma Zdigits2_nonneg (m : Z) : 0 <= Zdigits2 m.
Proof. destruct m; simpl; lia. Qed.

Lemma Zdigits2_le (m k : Z) : 0 <= k -> 0 <= m < 2 ^ k -> Zdigits2 m <= k.
Proof.
  intros Hk [H0 Hm]. destruct (Z.eq_dec m 0) as [-> | Hne]; [simpl; lia|].
  pose proof (Zdigits2_bounds m ltac:(lia)) as [Hlo _].
  destruct (Z_lt_le_dec k (Zdigits2 m)) as [Hlt | Hle]; [|exact Hle].
  exfalso.
  assert (2 ^ k <= 2 ^ (Zdigits2 m - 1)) by (apply Z.pow_le_mono_r; lia).
  lia.
Qed.

Lemma Zdigits2_unique (m k : Z) :
  0 < k -> 2 ^ (k - 1) <= m < 2 ^ k -> Zdigits2 m = k.
Proof.
  intros Hk [Hlo Hhi].
  assert (0 < m) by (pose proof (Z.pow_pos_nonneg 2 (k - 1)); lia).
  pose proof (Zdigits2_bounds m ltac:(lia)) as [Hlo' Hhi'].
  pose proof (Zdigits2_nonneg m).
  destruct (Z_lt_le_dec k (Zdigits2 m)) as [Hlt | Hle].
  - assert (2 ^ k <= 2 ^ (Zdigits2 m - 1)) by (apply Z.pow_le_mono_r; lia). lia.
  - destruct (Z_lt_le_dec (Zdigits2 m) k) as [Hlt | Hle']; [|lia].
    assert (2 ^ Zdigits2 m <= 2 ^ (k - 1)) by (apply Z.pow_le_mono_r; lia). lia.
Qed.

(** *** Shifting right *)

Lemma iter_pos_nat {A : Type} (f : A -> A) (p : positive) : forall x : A,
  SpecFloat.iter_pos f p x = Nat.iter (Pos.to_nat p) f x.
Proof.
  induction p as [p IH | p IH |]; intros x; simpl SpecFloat.iter_pos.
  - rewrite !IH, Pos2Nat.inj_xI.
    replace (S (2 * Pos.to_nat p)) with (Pos.to_nat p + (Pos.to_nat p + 1))%nat by lia.
    rewrite !Nat.iter_add. reflexivity.
  - rewrite !IH, Pos2Nat.inj_xO.
    replace (2 * Pos.to_nat p)%nat with (Pos.to_nat p + Pos.to_nat p)%nat by lia.
    rewrite Nat.iter_add. reflexivity.
  - reflexivity.
Qed.

Lemma shr_1_spec (mrs : shr_record) :
  0 <= shr_m mrs ->
  0 <= shr_m (shr_1 mrs) /\
  2 * shr_m (shr_1 mrs) <= shr_m mrs < 2 * shr_m (shr_1 mrs) + 2 /\
  2 * upper (shr_1 mrs) - 1 <= upper mrs <= 2 * upper (shr_1 mrs).
Proof.
  destruct mrs as [m r s]. unfold upper, inexact. simpl shr_m.
  intros Hm. destruct m as [|[p|p|]|p]; try lia;
    destruct r, s; simpl; lia.
Qed.

Lemma shr_iter_spec (n : nat) (mrs : shr_record) :
  0 <= shr_m mrs ->
  let mrs' := Nat.iter n shr_1 mrs in
  0 <= shr_m mrs' /\
  shr_m mrs' * 2 ^ Z.of_nat n <= shr_m mrs < (shr_m mrs' + 1) * 2 ^ Z.of_nat n /\
  (upper mrs' - 1) * 2 ^ Z.of_nat n < upper mrs <= upper mrs' * 2 ^ Z.of_nat n.
Proof.
  intros Hm. induction n as [|n IH].
  - simpl. lia.
  - cbv zeta in *. rewrite Nat.iter_succ.
    destruct IH as [H0 [Hlo Hup]].
    destruct (shr_1_spec (Nat.iter n shr_1 mrs) H0) as [H0' [Hlo' Hup']].
    rewrite Nat2Z.inj_succ, Z.pow_succ_r by lia.
    assert (0 < 2 ^ Z.of_nat n) by (apply Z.pow_pos_nonneg; lia).
    split; [exact H0'|]. split; nia.
Qed.

Lemma shr_spec (mrs : shr_record) (e n : Z) :
  0 <= shr_m mrs ->
  let k := Z.max n 0 in
  snd (shr mrs e n) = e + k /\
  0 <= shr_m (fst (shr mrs e n)) /\
  shr_m (fst (shr mrs e n)) * 2 ^ k <= shr_m mrs
    < (shr_m (fst (shr mrs e n)) + 1) * 2 ^ k /\
  (upper (fst (shr mrs e n)) - 1) * 2 ^ k < upper mrs
    <= upper (fst (shr mrs e n)) * 2 ^ k.
Proof.
  intros Hm k. unfold shr. destruct n as [|p|p]; subst k; simpl fst; simpl snd.
  - simpl. lia.
  - rewrite iter_pos_nat.
    pose proof (shr_iter_spec (Pos.to_nat p) mrs Hm) as H. cbv zeta in H.
    rewrite positive_nat_Z in H.
    replace (Z.max (Z.pos p) 0) with (Z.pos p) by lia.
    split; [reflexivity | exact H].
  - replace (Z.max (Z.neg p) 0) with 0 by lia. simpl. lia.
Qed.

Lemma fexp64 (e : Z) : fexp F64.prec F64.emax e = Z.max (e - 53) (-1074).
Proof. reflexivity. Qed.

Lemma shr_record_of_loc_m (m : Z) (l : location) :
  shr_m (shr_record_of_loc m l) = m.
Proof. destruct l as [|[| |]]; reflexivity. Qed.

Lemma shr_record_of_loc_upper (m : Z) (l : location) :
  upper (shr_record_of_loc m l) = loc_upper m l.
Proof. destruct l as [|[| |]]; reflexivity. Qed.

Lemma round_nearest_even_bounds (mrs : shr_record) :
  shr_m mrs <= round_nearest_even (shr_m mrs) (loc_of_shr_record mrs) <= upper mrs.
Proof.
  destruct mrs as [m [|] [|]]; unfold upper, inexact; simpl; try lia.
  destruct (Z.even m); lia.
Qed.

Lemma round_nearest_even_exact (mrs : shr_record) :
  inexact mrs = false ->
  round_nearest_even (shr_m mrs) (loc_of_shr_record mrs) = shr_m mrs.
Proof. destruct mrs as [m [|] [|]]; unfold inexact; simpl; congruence. Qed.

(** A value bounded by [gm * 2^ge], where [gm] has at most [k <= 53] bits,
    stays bounded by it when its mantissa is brought to the exponent of its
    magnitude, and that exponent is not above the one of the bound. *)
Lemma shr_fexp_bound (m e : Z) (l : location) (gm ge k : Z) :
  0 <= m -> 0 <= k <= 53 -> 0 < gm < 2 ^ k -> -1074 <= ge -> e <= ge ->
  loc_upper m l <= gm * 2 ^ (ge - e) ->
  let mrs' := fst (shr_fexp F64.prec F64.emax m e l) in
  let e' := snd (shr_fexp F64.prec F64.emax m e l) in
  0 <= shr_m mrs' /\
  e <= e' <= ge /\ e' <= Z.max e (Z.max (ge + k - 53) (-1074)) /\
  upper mrs' <= gm * 2 ^ (ge - e').
Proof.
  intros Hm Hk Hgm Hge He Hb. unfold shr_fexp. rewrite fexp64.
  set (n := Z.max (Zdigits2 m + e - 53) (-1074) - e).
  pose proof (shr_spec (shr_record_of_loc m l) e n) as H.
  rewrite shr_record_of_loc_m, shr_record_of_loc_upper in H.
  specialize (H Hm). cbv zeta in H. destruct H as [He' [H0 [_ [Hup _]]]].
  cbv zeta. rewrite He'. split; [exact H0|].
  assert (Hpow : 0 < 2 ^ (ge - e)) by (apply Z.pow_pos_nonneg; lia).
  assert (Hd : Zdigits2 m <= k + (ge - e)).
  { apply Zdigits2_le; [lia|]. split; [exact Hm|].
    rewrite Z.pow_add_r by lia.
    assert (m <= loc_upper m l) by (unfold loc_upper; destruct l; lia).
    nia. }
  destruct (Z_le_gt_dec n 0) as [Hn | Hn].
  - replace (Z.max n 0) with 0 in * by lia.
    rewrite Z.add_0_r. rewrite Z.pow_0_r, Z.mul_1_r in Hup.
    split; [lia|]. split; lia.
  - replace (Z.max n 0) with n in * by lia.
    assert (Hen : e + n <= ge) by (unfold n in *; lia).
    split; [lia|]. split; [unfold n in *; lia|].
    assert (Hsplit : 2 ^ (ge - e) = 2 ^ (ge - (e + n)) * 2 ^ n).
    { rewrite <- Z.pow_add_r by lia. f_equal. lia. }
    assert (0 < 2 ^ n) by (apply Z.pow_pos_nonneg; lia).
    assert (0 < 2 ^ (ge - (e + n))) by (apply Z.pow_pos_nonneg; lia).
    rewrite Hsplit in Hb. nia.
Qed.

(** The result of rounding a nonnegative value that does not exceed
    [gm * 2^ge] is zero or a finite number that does not exceed it. *)
Lemma binary_round_aux_bound (s : bool) (m e : Z) (l : location) (gm ge k : Z) :
  0 <= m -> 0 <= k <= 53 -> 0 < gm < 2 ^ k -> -1074 <= ge <= 971 -> e <= ge ->
  loc_upper m l <= gm * 2 ^ (ge - e) ->
  binary_round_aux F64.prec F64.emax s m e l = S754_zero s \/
  exists m' e',
    binary_round_aux F64.prec F64.emax s m e l = S754_finite s m' e' /\
    e <= e' <= ge /\ e' <= Z.max e (Z.max (ge + k - 53) (-1074)) /\
    Zpos m' <= gm * 2 ^ (ge - e').
Proof.
  intros Hm Hk Hgm Hge He Hb. unfold binary_round_aux.
  pose proof (shr_fexp_bound m e l gm ge k Hm Hk Hgm ltac:(lia) He Hb) as H1.
  cbv zeta in H1.
  destruct (shr_fexp F64.prec F64.emax m e l) as [mrs' e'] eqn:E1.
  simpl fst in H1; simpl snd in H1. destruct H1 as [H0 [He' [Hmax Hup]]].
  pose proof (round_nearest_even_bounds mrs') as Hr.
  set (r := round_nearest_even (shr_m mrs') (loc_of_shr_record mrs')) in *.
  pose proof (shr_fexp_bound r e' loc_Exact gm ge k ltac:(lia) Hk Hgm ltac:(lia)
                ltac:(lia)) as H2.
  unfold loc_upper in H2 at 1. rewrite Z.add_0_r in H2.
  specialize (H2 ltac:(lia)). cbv zeta in H2.
  destruct (shr_fexp F64.prec F64.emax r e' loc_Exact) as [mrs'' e''] eqn:E2.
  simpl fst in H2; simpl snd in H2. destruct H2 as [H0' [He'' [Hmax' Hup']]].
  assert (Hm'' : shr_m mrs'' <= upper mrs'')
    by (unfold upper; destruct (inexact mrs''); lia).
  destruct (shr_m mrs'') as [|p|p] eqn:Em; [now left | | lia].
  right. exists p, e''.
  replace (e'' <=? F64.emax - F64.prec) with true
    by (symmetry; apply Z.leb_le; change (F64.emax - F64.prec) with 971; lia).
  split; [reflexivity|]. split; [lia|]. split; lia.
Qed.

(** *** Values that need no rounding *)

Lemma canonical_digits (m : positive) (e : Z) :
  canonical_mantissa F64.prec F64.emax m e = true ->
  Z.max (Zpos (digits2_pos m) + e - 53) (-1074) = e.
Proof.
  unfold canonical_mantissa. rewrite fexp64. intros H.
  apply Z.eqb_eq in H. exact H.
Qed.

Lemma valid_finite (s : bool) (m : positive) (e : Z) :
  F64.valid (S754_finite s m e) = true ->
  Z.max (Zpos (digits2_pos m) + e - 53) (-1074) = e /\ e <= 971.
Proof.
  unfold F64.valid, valid_binary, bounded. intros H.
  apply andb_prop in H. destruct H as [Hc He].
  split; [now apply canonical_digits|].
  apply Z.leb_le in He. exact He.
Qed.

Lemma Zdigits2_mul_pow2 (m : positive) (k : Z) :
  0 <= k -> Zdigits2 (Zpos m * 2 ^ k) = Zpos (digits2_pos m) + k.
Proof.
  intros Hk. apply Zdigits2_unique; [lia|].
  pose proof (digits2_pos_bounds m) as [Hlo Hhi].
  replace (Zpos (digits2_pos m) + k - 1) with (Zpos (digits2_pos m) - 1 + k) by lia.
  rewrite !Z.pow_add_r by lia.
  assert (0 < 2 ^ k) by (apply Z.pow_pos_nonneg; lia).
  split; nia.
Qed.

Lemma floor_of_multiple (x m p : Z) :
  0 < p -> x * p <= m * p < (x + 1) * p -> x = m.
Proof.
  intros Hp [H1 H2].
  apply Z.mul_le_mono_pos_r in H1; [|exact Hp].
  apply Z.mul_lt_mono_pos_r in H2; [|exact Hp]. lia.
Qed.

Lemma ceil_of_multiple (u m p : Z) :
  0 < p -> (u - 1) * p < m * p <= u * p -> u = m.
Proof.
  intros Hp [H1 H2].
  apply Z.mul_lt_mono_pos_r in H1; [|exact Hp].
  apply Z.mul_le_mono_pos_r in H2; [|exact Hp]. lia.
Qed.

(** A canonical mantissa scaled by a power of two rounds back to itself. *)
Lemma binary_round_aux_exact (s : bool) (m : positive) (e k : Z) :
  0 <= k ->
  Z.max (Zpos (digits2_pos m) + e - 53) (-1074) = e -> e <= 971 ->
  binary_round_aux F64.prec F64.emax s (Zpos m * 2 ^ k) (e - k) loc_Exact
  = S754_finite s m e.
Proof.
  intros Hk Hc He. unfold binary_round_aux.
  assert (Hpow : 0 < 2 ^ k) by (apply Z.pow_pos_nonneg; lia).
  pose proof (Zdigits2_mul_pow2 m k Hk) as Hd.
  remember (Zpos m * 2 ^ k) as M eqn:HM.
  assert (HM0 : 0 <= M) by nia.
  assert (E1 : exists mrs,
            shr_fexp F64.prec F64.emax M (e - k) loc_Exact = (mrs, e)
            /\ shr_m mrs = Zpos m /\ inexact mrs = false).
  { unfold shr_fexp. rewrite fexp64, Hd.
    replace (Zpos (digits2_pos m) + k + (e - k) - 53)
      with (Zpos (digits2_pos m) + e - 53) by lia.
    rewrite Hc. replace (e - (e - k)) with k by lia.
    change (shr_record_of_loc M loc_Exact) with (Build_shr_record M false false).
    pose proof (shr_spec (Build_shr_record M false false) (e - k) k HM0) as H.
    cbv zeta in H. replace (Z.max k 0) with k in H by lia.
    destruct (shr (Build_shr_record M false false) (e - k) k) as [mrs e'].
    cbn [fst snd] in H. destruct H as [He' [H0 [Hm Hu]]].
    change (upper (Build_shr_record M false false)) with (M + 0) in Hu.
    change (shr_m (Build_shr_record M false false)) with M in Hm.
    rewrite Z.add_0_r, HM in Hu. rewrite HM in Hm.
    apply floor_of_multiple in Hm; [|exact Hpow].
    apply ceil_of_multiple in Hu; [|exact Hpow].
    exists mrs. split; [f_equal; lia|]. split; [exact Hm|].
    unfold upper in Hu. destruct (inexact mrs); [lia | reflexivity]. }
  destruct E1 as [mrs [E1 [Hm1 Hi1]]]. rewrite E1.
  rewrite round_nearest_even_exact by exact Hi1. rewrite Hm1.
  unfold shr_fexp. rewrite fexp64.
  change (Zdigits2 (Zpos m)) with (Zpos (digits2_pos m)).
  rewrite Hc, Z.sub_diag.
  cbn [shr shr_record_of_loc shr_m].
  replace (e <=? F64.emax - F64.prec) with true
    by (symmetry; apply Z.leb_le; change (F64.emax - F64.prec) with 971; lia).
  reflexivity.
Qed.

(** *** Multiplication *)

Lemma one_eq : F64.one = S754_finite false (2 ^ 52) (-52).
Proof. reflexivity. Qed.

Lemma mul_one_r (x : float) : F64.valid x = true -> F64.mul x F64.one = x.
Proof.
  intros Hv. rewrite one_eq. destruct x as [[|]|[|]| |s m e]; try reflexivity.
  apply valid_finite in Hv. destruct Hv as [Hc He].
  unfold F64.mul, SFmul. rewrite xorb_false_r, Pos2Z.inj_mul.
  change (Zpos (2 ^ 52)) with (2 ^ 52).
  change (e + -52) with (e - 52).
  apply binary_round_aux_exact; [lia | exact Hc | exact He].
Qed.

Lemma mul_one_l (x : float) : F64.valid x = true -> F64.mul F64.one x = x.
Proof.
  intros Hv. rewrite one_eq. destruct x as [[|]|[|]| |s m e]; try reflexivity.
  apply valid_finite in Hv. destruct Hv as [Hc He].
  unfold F64.mul, SFmul. rewrite xorb_false_l, Pos2Z.inj_mul.
  change (Zpos (2 ^ 52)) with (2 ^ 52).
  rewrite Z.mul_comm. replace (-52 + e) with (e - 52) by lia.
  apply binary_round_aux_exact; [lia | exact Hc | exact He].
Qed.

Lemma mul_bound (sx sy : bool) (mx my : positive) (ex ey gm ge k : Z) :
  0 <= k <= 53 -> 0 < gm < 2 ^ k -> -1074 <= ge <= 971 -> ex + ey <= ge ->
  Zpos mx * Zpos my <= gm * 2 ^ (ge - (ex + ey)) ->
  F64.mul (S754_finite sx mx ex) (S754_finite sy my ey) = S754_zero (xorb sx sy) \/
  exists m' e',
    F64.mul (S754_finite sx mx ex) (S754_finite sy my ey)
      = S754_finite (xorb sx sy) m' e' /\
    ex + ey <= e' <= ge /\
    e' <= Z.max (ex + ey) (Z.max (ge + k - 53) (-1074)) /\
    Zpos m' <= gm * 2 ^ (ge - e').
Proof.
  intros Hk Hgm Hge He Hb. unfold F64.mul, SFmul.
  apply binary_round_aux_bound; try assumption; unfold loc_upper; lia.
Qed.

(** *** Conversion from integers *)

Lemma iter_xO (m d : positive) :
  Zpos (Pos.iter xO m d) = Zpos m * 2 ^ Zpos d.
Proof.
  induction d as [|d IH] using Pos.peano_ind.
  - simpl. lia.
  - rewrite Pos.iter_succ, Pos2Z.inj_succ, Z.pow_succ_r by lia.
    rewrite Pos2Z.inj_xO, IH. lia.
Qed.

Lemma shl_align_spec (mx : positive) (ex ex' : Z) :
  ex' <= ex ->
  snd (shl_align mx ex ex') = ex' /\
  Zpos (fst (shl_align mx ex ex')) = Zpos mx * 2 ^ (ex - ex').
Proof.
  intros H. unfold shl_align. destruct (ex' - ex) as [|d|d] eqn:E; try lia.
  - cbn [fst snd]. replace (ex - ex') with 0 by lia.
    rewrite Z.pow_0_r. split; lia.
  - cbn [fst snd]. rewrite iter_xO. split; [reflexivity|]. f_equal. f_equal. lia.
Qed.

Lemma of_Z_pos (z : Z) :
  0 < z < 2 ^ 53 ->
  exists m, F64.of_Z z = S754_finite false m (Zdigits2 z - 53) /\
            Zpos m = z * 2 ^ (53 - Zdigits2 z).
Proof.
  intros [H0 Hz]. destruct z as [|p|p]; try lia.
  assert (Hd : Zpos (digits2_pos p) <= 53)
    by (apply (Zdigits2_le (Zpos p) 53); lia).
  unfold F64.of_Z, binary_normalize, binary_round. rewrite fexp64.
  replace (Z.max (Zpos (digits2_pos p) + 0 - 53) (-1074))
    with (Zpos (digits2_pos p) - 53) by lia.
  pose proof (shl_align_spec p 0 (Zpos (digits2_pos p) - 53) ltac:(lia)) as [He Hm].
  destruct (shl_align p 0 (Zpos (digits2_pos p) - 53)) as [mz ez].
  simpl fst in *; simpl snd in *. subst ez.
  exists mz. simpl Zdigits2.
  replace (0 - (Zpos (digits2_pos p) - 53)) with (53 - Zpos (digits2_pos p)) in Hm by lia.
  split; [|exact Hm].
  replace (Zpos mz) with (Zpos mz * 2 ^ 0) by (rewrite Z.pow_0_r; lia).
  replace (Zpos (digits2_pos p) - 53) with (Zpos (digits2_pos p) - 53 - 0) at 1 by lia.
  apply binary_round_aux_exact; [lia | | lia].
  assert (Hdz : Zpos (digits2_pos mz) = 53).
  { change (Zpos (digits2_pos mz)) with (Zdigits2 (Zpos mz)). rewrite Hm.
    rewrite Zdigits2_mul_pow2 by lia. lia. }
  rewrite Hdz. lia.
Qed.

Lemma Zdigits2_pos (z : Z) : 0 < z -> 1 <= Zdigits2 z.
Proof. destruct z as [|p|p]; try lia. intros _. cbn [Zdigits2]. lia. Qed.

Lemma Zdigits2_scaled (z k : Z) :
  0 < z -> 0 <= k -> Zdigits2 (z * 2 ^ k) = Zdigits2 z + k.
Proof.
  destruct z as [|p|p]; try lia. intros _ Hk. now apply Zdigits2_mul_pow2.
Qed.

(** The mantissa of a converted integer has all 53 bits. *)
Lemma of_Z_pos_digits (z : Z) :
  0 < z < 2 ^ 53 ->
  exists m, F64.of_Z z = S754_finite false m (Zdigits2 z - 53) /\
            Zpos m = z * 2 ^ (53 - Zdigits2 z) /\
            Zpos (digits2_pos m) = 53 /\
            1 <= Zdigits2 z <= 53.
Proof.
  intros Hz. destruct (of_Z_pos z Hz) as [m [E Hm]]. exists m.
  assert (Hd : 1 <= Zdigits2 z <= 53).
  { split; [apply Zdigits2_pos; lia | apply Zdigits2_le; lia]. }
  split; [exact E|]. split; [exact Hm|]. split; [|exact Hd].
  change (Zpos (digits2_pos m)) with (Zdigits2 (Zpos m)).
  rewrite Hm, Zdigits2_scaled by lia. lia.
Qed.

(** *** Division *)

Lemma new_location_upper (nb_steps q r : Z) :
  loc_upper q (new_location nb_steps r) = q + (if r =? 0 then 0 else 1).
Proof.
  unfold loc_upper, new_location, new_location_even, new_location_odd.
  destruct (Z.even nb_steps); destruct (r =? 0); reflexivity.
Qed.

Lemma SFdiv_core_spec (m1 e1 m2 e2 : Z) :
  0 < m1 -> 0 < m2 ->
  let e0 := Z.min (fexp F64.prec F64.emax (Zdigits2 m1 + e1 - (Zdigits2 m2 + e2)))
                  (e1 - e2) in
  let '(q, e', l) := SFdiv_core_binary F64.prec F64.emax m1 e1 m2 e2 in
  e' = e0 /\ 0 <= q /\
  m2 * (loc_upper q l - 1) < m1 * 2 ^ (e1 - e2 - e0) <= m2 * loc_upper q l.
Proof.
  intros H1 H2 e0. unfold SFdiv_core_binary. fold e0.
  assert (Hs : 0 <= e1 - e2 - e0) by (unfold e0; lia).
  set (m' := match e1 - e2 - e0 with
             | 0 => m1
             | Zpos _ => Z.shiftl m1 (e1 - e2 - e0)
             | Zneg _ => 0
             end).
  assert (Hm' : m' = m1 * 2 ^ (e1 - e2 - e0)).
  { unfold m'. remember (e1 - e2 - e0) as sh eqn:E.
    destruct sh as [|p|p]; try lia.
    rewrite Z.shiftl_mul_pow2 by lia. reflexivity. }
  assert (Hpos : 0 <= m').
  { rewrite Hm'. apply Z.mul_nonneg_nonneg; [lia|]. apply Z.pow_nonneg. lia. }
  pose proof (Z_div_mod m' m2 ltac:(lia)) as Hdm.
  destruct (Z.div_eucl m' m2) as [q r]. destruct Hdm as [Hq Hr].
  rewrite new_location_upper, <- Hm'.
  assert (0 <= q) by nia.
  split; [reflexivity|]. split; [assumption|].
  destruct (Z.eqb_spec r 0); nia.
Qed.

Lemma div_bound (sx sy : bool) (mx my : positive) (ex ey gm ge k : Z) :
  let e0 := Z.min (fexp F64.prec F64.emax
                     (Zpos (digits2_pos mx) + ex - (Zpos (digits2_pos my) + ey)))
                  (ex - ey) in
  0 <= k <= 53 -> 0 < gm < 2 ^ k -> -1074 <= ge <= 971 -> e0 <= ge ->
  Zpos mx * 2 ^ (ex - ey - e0) <= Zpos my * (gm * 2 ^ (ge - e0)) ->
  F64.div (S754_finite sx mx ex) (S754_finite sy my ey) = S754_zero (xorb sx sy) \/
  exists m' e',
    F64.div (S754_finite sx mx ex) (S754_finite sy my ey)
      = S754_finite (xorb sx sy) m' e' /\
    e0 <= e' <= ge /\
    e' <= Z.max e0 (Z.max (ge + k - 53) (-1074)) /\
    Zpos m' <= gm * 2 ^ (ge - e').
Proof.
  intros e0 Hk Hgm Hge He Hb. unfold F64.div, SFdiv.
  pose proof (SFdiv_core_spec (Zpos mx) ex (Zpos my) ey ltac:(lia) ltac:(lia)) as H.
  cbv zeta in H. fold e0 in H.
  change (Zdigits2 (Zpos mx)) with (Zpos (digits2_pos mx)) in H.
  change (Zdigits2 (Zpos my)) with (Zpos (digits2_pos my)) in H.
  fold e0 in H.
  destruct (SFdiv_core_binary F64.prec F64.emax (Zpos mx) ex (Zpos my) ey)
    as [[q e'] l].
  destruct H as [-> [Hq [Hlo Hhi]]].
  apply binary_round_aux_bound; try assumption.
  assert (0 < gm * 2 ^ (ge - e0)).
  { apply Z.mul_pos_pos; [lia|]. apply Z.pow_pos_nonneg; lia. }
  nia.
Qed.

(** *** Results of rounding are well formed *)

Lemma Zdigits2_ge (m k : Z) : 0 <= k -> 2 ^ k <= m -> k + 1 <= Zdigits2 m.
Proof.
  intros Hk Hm.
  assert (0 < m) by (pose proof (Z.pow_pos_nonneg 2 k); lia).
  pose proof (Zdigits2_bounds m ltac:(lia)) as [_ Hhi].
  pose proof (Zdigits2_nonneg m).
  destruct (Z_lt_le_dec k (Zdigits2 m)) as [Hlt | Hle]; [lia|].
  assert (2 ^ Zdigits2 m <= 2 ^ k) by (apply Z.pow_le_mono_r; lia). lia.
Qed.

Lemma valid_finite_intro (s : bool) (m : positive) (e : Z) :
  Z.max (Zpos (digits2_pos m) + e - 53) (-1074) = e -> e <= 971 ->
  F64.valid (S754_finite s m e) = true.
Proof.
  intros Hc He. unfold F64.valid, valid_binary, bounded, canonical_mantissa.
  rewrite fexp64. apply andb_true_intro. split.
  - apply Z.eqb_eq. exact Hc.
  - apply Z.leb_le. exact He.
Qed.

(** Rounding a mantissa that is already at its canonical exponent. *)
Lemma shr_fexp_fixed (m e : Z) :
  0 <= m -> Z.max (Zdigits2 m + e - 53) (-1074) = e ->
  shr_fexp F64.prec F64.emax m e loc_Exact
  = (Build_shr_record m false false, e).
Proof.
  intros Hm Hc. unfold shr_fexp. rewrite fexp64, Hc, Z.sub_diag. reflexivity.
Qed.

Lemma binary_round_aux_valid (s : bool) (m e : Z) (l : location) :
  0 <= m -> e <= Z.max (Zdigits2 m + e - 53) (-1074) ->
  F64.valid (binary_round_aux F64.prec F64.emax s m e l) = true.
Proof.
  intros Hm He. unfold binary_round_aux.
  set (d := Zdigits2 m) in *.
  assert (Hd0 : 0 <= d) by apply Zdigits2_nonneg.
  assert (Hmd : m < 2 ^ d).
  { destruct (Z.eq_dec m 0) as [-> | Hne]; [apply Z.pow_pos_nonneg; lia|].
    apply Zdigits2_bounds. lia. }
  (* first shift *)
  set (e' := Z.max (d + e - 53) (-1074)) in *.
  pose proof (shr_spec (shr_record_of_loc m l) e (e' - e)) as H.
  rewrite shr_record_of_loc_m, shr_record_of_loc_upper in H.
  specialize (H Hm). cbv zeta in H.
  replace (Z.max (e' - e) 0) with (e' - e) in H by lia.
  assert (E1 : shr_fexp F64.prec F64.emax m e l
               = shr (shr_record_of_loc m l) e (e' - e)) by reflexivity.
  rewrite E1.
  destruct (shr (shr_record_of_loc m l) e (e' - e)) as [mrs e1].
  cbn [fst snd] in H. destruct H as [He1 [H0 [Hfl Hup]]].
  replace (e + (e' - e)) with e' in He1 by lia. subst e1.
  assert (Hk : 0 < 2 ^ (e' - e)) by (apply Z.pow_pos_nonneg; lia).
  assert (Hlu : loc_upper m l <= 2 ^ d)
    by (unfold loc_upper; destruct l; lia).
  pose proof (round_nearest_even_bounds mrs) as Hr.
  set (r := round_nearest_even (shr_m mrs) (loc_of_shr_record mrs)) in *.
  assert (Hr0 : 0 <= r) by lia.
  destruct (Z_le_gt_dec (-1074) (d + e - 53)) as [Hnorm | Hsub].
  - (* normal range: the shifted mantissa has 53 bits *)
    assert (He' : e' = d + e - 53) by (unfold e'; lia).
    assert (Hdk : d = 53 + (e' - e)) by lia.
    assert (Hmpos : 0 < m).
    { destruct (Z.eq_dec m 0) as [E | ]; [|lia].
      exfalso. unfold d in *. rewrite E in *. simpl in *. lia. }
    assert (Hlo : 2 ^ (d - 1) <= m) by (apply Zdigits2_bounds; exact Hmpos).
    assert (Hsplit : 2 ^ d = 2 ^ 53 * 2 ^ (e' - e)).
    { rewrite <- Z.pow_add_r by lia. f_equal. exact Hdk. }
    assert (Hsplit' : 2 ^ (d - 1) = 2 ^ 52 * 2 ^ (e' - e)).
    { rewrite <- Z.pow_add_r by lia. f_equal. lia. }
    assert (Hm52 : 2 ^ 52 <= shr_m mrs) by nia.
    assert (Hu53 : upper mrs <= 2 ^ 53) by nia.
    destruct (Z_lt_le_dec r (2 ^ 53)) as [Hlt | Hge].
    + assert (Hdr : Zdigits2 r = 53) by (apply Zdigits2_unique; lia).
      rewrite shr_fexp_fixed by (rewrite ?Hdr; lia).
      cbn [shr_m]. destruct r as [|p|p]; try lia.
      destruct (e' <=? F64.emax - F64.prec) eqn:Hle; [|reflexivity].
      apply valid_finite_intro.
      * change (Zpos (digits2_pos p)) with (Zdigits2 (Zpos p)). rewrite Hdr. lia.
      * apply Z.leb_le in Hle. exact Hle.
    + assert (Hr53 : r = 2 ^ 53) by lia. rewrite Hr53.
      unfold shr_fexp. rewrite fexp64.
      change (Zdigits2 (2 ^ 53)) with 54.
      replace (Z.max (54 + e' - 53) (-1074) - e') with 1 by lia.
      cbn [shr shr_record_of_loc SpecFloat.iter_pos shr_1 shr_m].
      change (2 ^ 53) with (Zpos (xO (2 ^ 52))). cbn [shr_1 shr_m orb].
      destruct (e' + 1 <=? F64.emax - F64.prec) eqn:Hle; [|reflexivity].
      apply valid_finite_intro.
      * change (Zpos (digits2_pos (2 ^ 52))) with 53. lia.
      * apply Z.leb_le in Hle. exact Hle.
  - (* subnormal range: nothing more to shift *)
    assert (He' : e' = -1074) by (unfold e'; lia).
    assert (Hu52 : upper mrs <= 2 ^ 52).
    { destruct (Z_le_gt_dec (e' - e) d) as [Hle | Hgt].
      - assert (Hsplit : 2 ^ d = 2 ^ (d - (e' - e)) * 2 ^ (e' - e)).
        { rewrite <- Z.pow_add_r by lia. f_equal. lia. }
        assert (2 ^ (d - (e' - e)) <= 2 ^ 52) by (apply Z.pow_le_mono_r; lia).
        assert (0 < 2 ^ (d - (e' - e))) by (apply Z.pow_pos_nonneg; lia).
        nia.
      - assert (2 ^ d < 2 ^ (e' - e)) by (apply Z.pow_lt_mono_r; lia).
        assert (upper mrs <= 1) by nia.
        assert (1 <= 2 ^ 52) by (vm_compute; discriminate). lia. }
    assert (Hdr : Zdigits2 r <= 53).
    { apply Zdigits2_le; [lia|]. change (2 ^ 53) with (2 * 2 ^ 52). lia. }
    pose proof (Zdigits2_nonneg r) as Hdr0.
    rewrite shr_fexp_fixed by lia.
    cbn [shr_m]. destruct r as [|p|p]; try lia; [reflexivity|].
    destruct (e' <=? F64.emax - F64.prec) eqn:Hle; [|reflexivity].
    apply valid_finite_intro.
    + change (Zpos (digits2_pos p)) with (Zdigits2 (Zpos p)). lia.
    + lia.
Qed.

Lemma binary_round_valid (s : bool) (m : positive) (e : Z) :
  F64.valid (binary_round F64.prec F64.emax s m e) = true.
Proof.
  unfold binary_round. rewrite fexp64.
  set (e' := Z.max (Zpos (digits2_pos m) + e - 53) (-1074)).
  destruct (Z_le_gt_dec e' e) as [Hle | Hgt].
  - pose proof (shl_align_spec m e e' Hle) as [Hs Hm].
    destruct (shl_align m e e') as [mz ez]. cbn [fst snd] in *. subst ez.
    apply binary_round_aux_valid; [lia|].
    rewrite Hm, Zdigits2_mul_pow2 by lia. unfold e'. lia.
  - assert (E : shl_align m e e' = (m, e)).
    { unfold shl_align. destruct (e' - e) as [|p|p] eqn:Ep; try reflexivity. lia. }
    rewrite E. apply binary_round_aux_valid; [lia|].
    change (Zdigits2 (Zpos m)) with (Zpos (digits2_pos m)). fold e'. lia.
Qed.

Lemma binary_normalize_valid (m e : Z) (szero : bool) :
  F64.valid (binary_normalize F64.prec F64.emax m e szero) = true.
Proof.
  destruct m as [|p|p]; simpl; [reflexivity | |]; apply binary_round_valid.
Qed.

Lemma of_Z_valid (z : Z) : F64.valid (F64.of_Z z) = true.
Proof. apply binary_normalize_valid. Qed.

Lemma neg_valid (x : float) : F64.valid x = true -> F64.valid (F64.neg x) = true.
Proof. destruct x; auto. Qed.

Lemma abs_valid (x : float) : F64.valid x = true -> F64.valid (F64.abs x) = true.
Proof. destruct x; auto. Qed.

Lemma sub_valid (x y : float) :
  F64.valid x = true -> F64.valid y = true -> F64.valid (F64.sub x y) = true.
Proof.
  intros Hx Hy. unfold F64.sub, SFsub.
  destruct x as [[|]|[|]| |sx mx ex], y as [[|]|[|]| |sy my ey];
    try reflexivity; try assumption; apply binary_normalize_valid.
Qed.

Lemma add_valid (x y : float) :
  F64.valid x = true -> F64.valid y = true -> F64.valid (F64.add x y) = true.
Proof.
  intros Hx Hy. unfold F64.add, SFadd.
  destruct x as [[|]|[|]| |sx mx ex], y as [[|]|[|]| |sy my ey];
    try reflexivity; try assumption; apply binary_normalize_valid.
Qed.

Lemma mul_valid (x y : float) :
  F64.valid x = true -> F64.valid y = true -> F64.valid (F64.mul x y) = true.
Proof.
  intros Hx Hy. unfold F64.mul, SFmul.
  destruct x as [sx|sx| |sx mx ex], y as [sy|sy| |sy my ey]; try reflexivity.
  apply valid_finite in Hx. apply valid_finite in Hy.
  destruct Hx as [Hcx _], Hy as [Hcy _].
  apply binary_round_aux_valid; [lia|].
  pose proof (digits2_pos_bounds mx) as [Hlx _].
  pose proof (digits2_pos_bounds my) as [Hly _].
  assert (Hd : (Zpos (digits2_pos mx) - 1 + (Zpos (digits2_pos my) - 1)) + 1
               <= Zdigits2 (Zpos (mx * my))).
  { apply Zdigits2_ge; [lia|]. rewrite Z.pow_add_r, Pos2Z.inj_mul by lia.
    apply Z.mul_le_mono_nonneg; try assumption; apply Z.pow_nonneg; lia. }
  lia.
Qed.

Lemma div_valid (x y : float) :
  F64.valid x = true -> F64.valid y = true -> F64.valid (F64.div x y) = true.
Proof.
  intros Hx Hy. unfold F64.div, SFdiv.
  destruct x as [sx|sx| |sx mx ex], y as [sy|sy| |sy my ey]; try reflexivity.
  pose proof (SFdiv_core_spec (Zpos mx) ex (Zpos my) ey ltac:(lia) ltac:(lia)) as H.
  cbv zeta in H. rewrite fexp64 in H.
  change (Zdigits2 (Zpos mx)) with (Zpos (digits2_pos mx)) in H.
  change (Zdigits2 (Zpos my)) with (Zpos (digits2_pos my)) in H.
  destruct (SFdiv_core_binary F64.prec F64.emax (Zpos mx) ex (Zpos my) ey)
    as [[q e'] l].
  destruct H as [He' [Hq [_ Hhi]]].
  apply binary_round_aux_valid; [exact Hq|].
  set (d1 := Zpos (digits2_pos mx)) in *. set (d2 := Zpos (digits2_pos my)) in *.
  destruct (Z_le_gt_dec e' (-1074)) as [Hlow | Hhigh]; [lia|].
  assert (Hs : 53 - d1 + d2 <= ex - ey - e') by lia.
  pose proof (digits2_pos_bounds mx) as [Hlx _]. fold d1 in Hlx.
  pose proof (digits2_pos_bounds my) as [_ Hhy]. fold d2 in Hhy.
  assert (Hd1 : 1 <= d1) by (unfold d1; lia).
  assert (Hd2 : 1 <= d2) by (unfold d2; lia).
  set (k := d1 - 1 + (ex - ey - e') - d2) in *.
  assert (Hk : 52 <= k) by (unfold k; lia).
  assert (Hqk : 2 ^ k <= q).
  { assert (Hu : loc_upper q l <= q + 1) by (unfold loc_upper; destruct l; lia).
    rewrite <- He' in Hhi.
    assert (Hsplit : 2 ^ (d1 - 1) * 2 ^ (ex - ey - e') = 2 ^ k * 2 ^ d2).
    { rewrite <- !Z.pow_add_r by lia. f_equal. unfold k. lia. }
    assert (0 < 2 ^ k) by (apply Z.pow_pos_nonneg; lia).
    assert (0 < 2 ^ (ex - ey - e')) by (apply Z.pow_pos_nonneg; lia).
    assert (2 ^ k * 2 ^ d2 <= Zpos mx * 2 ^ (ex - ey - e')).
    { rewrite <- Hsplit. apply Z.mul_le_mono_nonneg_r; lia. }
    nia. }
  pose proof (Zdigits2_ge q k ltac:(lia) Hqk). unfold k in *. lia.
Qed.

(* ===================================================================== *)
(** ** Differentiation                                                    *)
(* ===================================================================== *)

Lemma derive_loop_eq (ir : list float) (idx : list Z) : forall der,
  (forall i, In i idx -> 1 <= i /\ i + 1 < len ir) ->
  derive_loop ir idx der = Some (der ++ map (central_difference ir) idx).
Proof.
  induction idx as [|i idx IH]; intros der Hidx; simpl.
  - now rewrite app_nil_r.
  - destruct (Hidx i (or_introl eq_refl)) as [H1 H2].
    rewrite (index_in_range ir (i + 1) F64.zero) by lia.
    rewrite (index_in_range ir (i - 1) F64.zero) by lia.
    simpl. rewrite IH by (intros j Hj; apply Hidx; now right).
    now rewrite <- app_assoc.
Qed.

(** [derive] never raises, and its result has this shape for every input. *)
Lemma derive_eq (ir : list float) :
  derive ir =
  Some (F64.zero :: map (central_difference ir) (range 1 (len ir - 1)) ++ [F64.zero]).
Proof.
  unfold derive. rewrite derive_loop_eq.
  - reflexivity.
  - intros i Hi. apply range_In in Hi. lia.
Qed.

(** C1 (central differences).  For every signal [s] of length [n >= 2],
    [derive] returns a signal of length exactly [n] whose first and last
    samples are [0.0] and whose sample [i], for [1 <= i <= n - 2], is
    [s[i+1] - s[i-1]]; and [derive([0, 1, 2, 3, 4]) = [0, 2, 2, 2, 0]]. *)
Theorem derive_central_difference :
  (forall s : list float, (2 <= length s)%nat ->
     exists der, derive s = Some der /\
       length der = length s /\
       nth_error der 0 = Some F64.zero /\
       nth_error der (length s - 1) = Some F64.zero /\
       forall (i : nat) (hi lo : float), (1 <= i <= length s - 2)%nat ->
         nth_error s (i + 1) = Some hi ->
         nth_error s (i - 1) = Some lo ->
         nth_error der i = Some (F64.sub hi lo)) /\
  derive (map F64.of_Z [0; 1; 2; 3; 4]) = Some (map F64.of_Z [0; 2; 2; 2; 0]).
Proof.
  split; [|reflexivity].
  intros s Hn. eexists. split; [apply derive_eq|].
  set (mid := map (central_difference s) (range 1 (len s - 1))).
  assert (Hmid : length mid = (length s - 2)%nat).
  { unfold mid. rewrite length_map, range_length. unfold len. lia. }
  split; [|split; [|split]].
  - simpl. rewrite length_app, Hmid. simpl. lia.
  - reflexivity.
  - replace (length s - 1)%nat with (S (length mid)) by lia. simpl.
    rewrite nth_error_app2 by lia. now rewrite Nat.sub_diag.
  - intros i hi lo Hi Hhi Hlo.
    destruct i as [|k]; [lia|]. simpl.
    rewrite nth_error_app1 by lia.
    unfold mid. rewrite nth_error_map.
    rewrite nth_error_nth' with (d := 0) by (rewrite range_length; unfold len; lia).
    rewrite range_nth by (unfold len; lia). cbn [option_map].
    unfold central_difference. do 2 f_equal.
    + apply nth_error_nth. rewrite <- Hhi. f_equal. lia.
    + apply nth_error_nth. rewrite <- Hlo. f_equal. lia.
Qed.

Lemma derive_central_difference_witness :
  exists der, derive [F64.one; F64.zero; F64.one] = Some der /\
    length der = 3%nat /\
    nth_error der 0 = Some F64.zero /\
    nth_error der 2 = Some F64.zero /\
    forall (i : nat) (hi lo : float), (1 <= i <= 1)%nat ->
      nth_error [F64.one; F64.zero; F64.one] (i + 1) = Some hi ->
      nth_error [F64.one; F64.zero; F64.one] (i - 1) = Some lo ->
      nth_error der i = Some (F64.sub hi lo).
Proof.
  apply (proj1 derive_central_difference [F64.one; F64.zero; F64.one]).
  simpl. lia.
Defined.

(** C10 (short inputs).  For every signal of length 0 or 1, [derive]
    returns the two-sample signal [[0.0, 0.0]], which is longer than its
    input. *)
Theorem derive_short (s : list float) :
  (length s <= 1)%nat ->
  exists der, derive s = Some der /\ der = [F64.zero; F64.zero] /\
              (length s < length der)%nat.
Proof.
  intros H. rewrite derive_eq.
  assert (Hr : range 1 (len s - 1) = []).
  { apply length_zero_iff_nil. rewrite range_length. unfold len. lia. }
  rewrite Hr. eexists. split; [reflexivity|]. split; [reflexivity|].
  simpl. lia.
Qed.

Lemma derive_short_witness :
  (exists der, derive [] = Some der /\ der = [F64.zero; F64.zero] /\
               (0 < length der)%nat) /\
  (exists der, derive [F64.one] = Some der /\ der = [F64.zero; F64.zero] /\
               (1 < length der)%nat).
Proof.
  split.
  - apply (derive_short []). simpl. lia.
  - apply (derive_short [F64.one]). simpl. lia.
Defined.

(* ===================================================================== *)
(** ** Band limiting                                                      *)
(* ===================================================================== *)

Lemma clear_loop_spec (freqs : list float) (idx : list Z) :
  forall ndata_fft : list complex,
  (forall i, In i idx -> 0 <= i < len freqs /\ i < len ndata_fft) ->
  exists out,
    clear_loop freqs idx ndata_fft = Some out /\
    length out = length ndata_fft /\
    forall (j : nat) (x : complex), nth_error ndata_fft j = Some x ->
      nth_error out j =
      Some (if existsb (Z.eqb (Z.of_nat j)) idx && inaudible_at freqs j
            then complex_of_float F64.zero else x).
Proof.
  induction idx as [|i idx IH]; intros ndata_fft Hidx.
  - exists ndata_fft. simpl. auto.
  - destruct (Hidx i (or_introl eq_refl)) as [Hi1 Hi2].
    simpl. rewrite (index_in_range freqs i F64.zero) by lia. simpl.
    assert (Hf : inaudible_at freqs (Z.to_nat i) =
                 inaudible (nth (Z.to_nat i) freqs F64.zero)).
    { unfold inaudible_at.
      rewrite nth_error_nth' with (d := F64.zero) by (unfold len in Hi1; lia).
      reflexivity. }
    destruct (inaudible (nth (Z.to_nat i) freqs F64.zero)) eqn:Hin.
    + unfold set_index.
      replace ((0 <=? i) && (i <? len ndata_fft)) with true
        by (symmetry; apply andb_true_intro; split;
            [apply Z.leb_le | apply Z.ltb_lt]; lia).
      simpl.
      destruct (IH (set_nth ndata_fft (Z.to_nat i) (complex_of_float F64.zero)))
        as [out [Hout [Hlen Hnth]]].
      { intros k Hk. unfold len. rewrite set_nth_length.
        apply Hidx. now right. }
      exists out. split; [exact Hout|]. split.
      { now rewrite Hlen, set_nth_length. }
      intros j x Hx.
      destruct (Nat.eq_dec j (Z.to_nat i)) as [-> | Hne].
      * rewrite (Hnth (Z.to_nat i) (complex_of_float F64.zero))
          by (apply nth_error_set_nth_same; unfold len in Hi2; lia).
        rewrite Z2Nat.id, Z.eqb_refl, Hf by lia. simpl.
        now destruct (existsb _ idx && true).
      * rewrite (Hnth j x) by (now rewrite nth_error_set_nth_other).
        replace (Z.of_nat j =? i) with false
          by (symmetry; apply Z.eqb_neq; lia).
        reflexivity.
    + destruct (IH ndata_fft) as [out [Hout [Hlen Hnth]]].
      { intros k Hk. apply Hidx. now right. }
      exists out. split; [exact Hout|]. split; [exact Hlen|].
      intros j x Hx. rewrite (Hnth j x Hx).
      destruct (Z.eqb_spec (Z.of_nat j) i) as [e | ne]; [|reflexivity].
      simpl. replace j with (Z.to_nat i) by lia. rewrite Hf.
      now rewrite !andb_false_r.
Qed.

Lemma existsb_range (n : Z) (j : nat) :
  Z.of_nat j < n -> existsb (Z.eqb (Z.of_nat j)) (range 0 n) = true.
Proof.
  intros H. apply existsb_exists. exists (Z.of_nat j). split.
  - apply range_In. lia.
  - apply Z.eqb_refl.
Qed.

Lemma fftfreq_length (n : Z) (d : float) :
  0 <= n -> len (Np.fftfreq n d) = n.
Proof.
  intros H. unfold len, Np.fftfreq.
  rewrite length_map, length_app, !length_map, !length_seq.
  destruct (Z.eq_dec n 0) as [-> | Hn]; [reflexivity|].
  pose proof (Z.div_mod (n - 1) 2 ltac:(lia)).
  pose proof (Z.mod_pos_bound (n - 1) 2 ltac:(lia)).
  pose proof (Z.div_mod n 2 ltac:(lia)).
  pose proof (Z.mod_pos_bound n 2 ltac:(lia)).
  lia.
Qed.

(** The loop on its own: with one frequency per bin it never raises, keeps
    the number of bins, and sets the bin at [i] to zero exactly when
    [|freqs[i]| < 20.0] or [|freqs[i]| > 20000.0]. *)
Lemma clear_inaudible_spec (freqs : list float) (ndata_fft : list complex) :
  length freqs = length ndata_fft ->
  exists out,
    clear_inaudible freqs ndata_fft = Some out /\
    length out = length ndata_fft /\
    forall (i : nat) (f : float) (x : complex),
      nth_error freqs i = Some f ->
      nth_error ndata_fft i = Some x ->
      nth_error out i =
        Some (if F64.ltb (F64.abs f) (F64.of_Z 20)
                 || F64.ltb (F64.of_Z 20000) (F64.abs f)
              then complex_of_float F64.zero else x) /\
      (F64.leb (F64.of_Z 20) (F64.abs f) = true ->
       F64.leb (F64.abs f) (F64.of_Z 20000) = true ->
       nth_error out i = Some x).
Proof.
  intros Hlen. unfold clear_inaudible.
  destruct (clear_loop_spec freqs (range 0 (len freqs)) ndata_fft)
    as [out [Hout [Hl Hnth]]].
  { intros i Hi. apply range_In in Hi. unfold len in *. lia. }
  exists out. split; [exact Hout|]. split; [exact Hl|].
  intros i f x Hf Hx.
  assert (Hi : (i < length freqs)%nat) by (apply nth_error_Some; congruence).
  assert (E : nth_error out i =
    Some (if F64.ltb (F64.abs f) (F64.of_Z 20)
             || F64.ltb (F64.of_Z 20000) (F64.abs f)
          then complex_of_float F64.zero else x)).
  { rewrite (Hnth i x Hx).
    rewrite existsb_range by (unfold len; lia).
    unfold inaudible_at. rewrite Hf. reflexivity. }
  split; [exact E|].
  intros Hlo Hhi. rewrite E.
  rewrite (leb_not_ltb _ _ Hlo).
  change (F64.ltb (F64.of_Z 20000) (F64.abs f))
    with (F64.gtb (F64.abs f) (F64.of_Z 20000)).
  now rewrite (leb_not_gtb _ _ Hhi).
Qed.

(** C2 (band limiting).  In the post-processing step the bins are the
    transform of the zero-padded signal and their frequencies are
    [np.fft.fftfreq(len(bins), 1.0 / samplerate)], one per bin.  For every
    signal, every transform and every sample rate a wave file can carry (a
    positive 32-bit number, so that [1.0 / samplerate] is defined), the step
    does not raise: it passes to the inverse transform an array [out] with as
    many bins, in which the bin at [i] is zero exactly when
    [|freqs[i]| < 20.0] or [|freqs[i]| > 20000.0] and is the bin of the
    transform otherwise; in particular a bin with
    [20.0 <= |freqs[i]| <= 20000.0] keeps its value.  The result of the step
    is the real part of the inverse transform of [out], cut to [data_length]
    samples. *)
Theorem band_limit_bins (fft ifft : list complex -> list complex)
    (samplerate : Z) (ndata : list float) (data_length : Z) :
  0 < samplerate < 2 ^ 32 ->
  let bins := fft (map complex_of_float (ndata ++ Np.zeros_like ndata)) in
  let freqs := Np.fftfreq (len bins) (F64.div F64.one (F64.of_Z samplerate)) in
  exists out,
    post_process_stage fft ifft samplerate ndata data_length
      = Some (slice (map re (ifft out)) 0 data_length) /\
    clear_inaudible freqs bins = Some out /\
    length freqs = length bins /\
    length out = length bins /\
    forall (i : nat) (x : complex),
      nth_error bins i = Some x ->
      exists f,
        nth_error freqs i = Some f /\
        nth_error out i =
          Some (if F64.ltb (F64.abs f) (F64.of_Z 20)
                   || F64.ltb (F64.of_Z 20000) (F64.abs f)
                then complex_of_float F64.zero else x) /\
        (F64.leb (F64.of_Z 20) (F64.abs f) = true ->
         F64.leb (F64.abs f) (F64.of_Z 20000) = true ->
         nth_error out i = Some x).
Proof.
  intros Hrate bins freqs.
  assert (Hlen : length freqs = length bins).
  { apply Nat2Z.inj. apply (fftfreq_length (len bins)). unfold len. lia. }
  destruct (clear_inaudible_spec freqs bins Hlen) as [out [Hout [Hl Hnth]]].
  exists out. split.
  { unfold post_process_stage. fold bins. fold freqs. rewrite Hout. reflexivity. }
  split; [exact Hout|]. split; [exact Hlen|]. split; [exact Hl|].
  intros i x Hx.
  assert (Hi : (i < length freqs)%nat)
    by (rewrite Hlen; apply nth_error_Some; congruence).
  destruct (nth_error freqs i) as [f|] eqn:Hf;
    [|apply nth_error_None in Hf; lia].
  exists f. split; [reflexivity|]. exact (Hnth i f x Hf Hx).
Qed.

Lemma band_limit_bins_witness :
  let bins := map complex_of_float ([F64.of_Z 3; F64.of_Z 4] ++ Np.zeros_like [F64.of_Z 3; F64.of_Z 4]) in
  let freqs := Np.fftfreq (len bins) (F64.div F64.one (F64.of_Z 48000)) in
  exists out,
    post_process_stage (fun x => x) (fun x => x) 48000 [F64.of_Z 3; F64.of_Z 4] 2
      = Some (slice (map re out) 0 2) /\
    clear_inaudible freqs bins = Some out /\
    length freqs = length bins /\
    length out = length bins /\
    forall (i : nat) (x : complex),
      nth_error bins i = Some x ->
      exists f,
        nth_error freqs i = Some f /\
        nth_error out i =
          Some (if F64.ltb (F64.abs f) (F64.of_Z 20)
                   || F64.ltb (F64.of_Z 20000) (F64.abs f)
                then complex_of_float F64.zero else x) /\
        (F64.leb (F64.of_Z 20) (F64.abs f) = true ->
         F64.leb (F64.abs f) (F64.of_Z 20000) = true ->
         nth_error out i = Some x).
Proof.
  apply (band_limit_bins (fun x => x) (fun x => x) 48000
           [F64.of_Z 3; F64.of_Z 4] 2).
  split; reflexivity.
Defined.

(* ===================================================================== *)
(** ** The rescale step: its divisor                                      *)
(* ===================================================================== *)

Lemma nonzero_abs (x : float) : nonzero x -> nonzero (Np.absolute x).
Proof. destruct x as [s|s| |s m e]; try destruct s; unfold nonzero; simpl; auto. Qed.

Lemma abs_abs (x : float) : F64.abs (Np.absolute x) = Np.absolute x.
Proof. destruct x; reflexivity. Qed.

Lemma maximum_choice (a b : float) : Np.maximum a b = a \/ Np.maximum a b = b.
Proof. unfold Np.maximum. destruct (F64.geb a b || F64.is_nan a); auto. Qed.

Lemma maximum_abs (a b : float) :
  F64.abs a = a -> F64.abs b = b -> F64.abs (Np.maximum a b) = Np.maximum a b.
Proof. intros Ha Hb. destruct (maximum_choice a b) as [-> | ->]; assumption. Qed.

Lemma maximum_nonzero (a b : float) :
  F64.abs a = a -> F64.abs b = b -> nonzero a \/ nonzero b ->
  nonzero (Np.maximum a b).
Proof.
  unfold nonzero, Np.maximum.
  destruct a as [[|]|[|]| |[|] ma ea], b as [[|]|[|]| |[|] mb eb];
    simpl; intros Ha Hb [H | H]; try discriminate; try reflexivity;
    match goal with
    | |- context [if ?c then _ else _] => destruct c; reflexivity
    end.
Qed.

Lemma fold_maximum_nonzero (rest : list float) : forall acc : float,
  F64.abs acc = acc ->
  Forall (fun y => F64.abs y = y) rest ->
  nonzero acc \/ Exists nonzero rest ->
  nonzero (fold_left Np.maximum rest acc).
Proof.
  induction rest as [|y rest IH]; intros acc Hacc Hrest H; simpl.
  - destruct H as [H | H]; [exact H | inversion H].
  - inversion Hrest as [|? ? Hy Hrest']; subst.
    apply IH; [now apply maximum_abs | exact Hrest' |].
    destruct H as [H | H].
    + left. apply maximum_nonzero; auto.
    + inversion H as [? ? Hy0 | ? ? Hex]; subst.
      * left. apply maximum_nonzero; auto.
      * now right.
Qed.

Lemma peak_nonzero (ndata : list float) :
  Exists nonzero ndata ->
  exists p, peak ndata = Some p /\ nonzero p.
Proof.
  intros H. unfold peak. destruct ndata as [|x rest]; [inversion H|].
  simpl. eexists. split; [reflexivity|].
  apply fold_maximum_nonzero.
  - apply abs_abs.
  - apply Forall_map. apply Forall_forall. intros y _. apply abs_abs.
  - inversion H as [? ? Hx | ? ? Hex]; subst.
    + left. now apply nonzero_abs.
    + right. apply Exists_map. eapply Exists_impl; [|exact Hex].
      intros y. apply nonzero_abs.
Qed.

Lemma eqb_zero_inv (x : float) :
  F64.eqb x F64.zero = true -> exists s, x = S754_zero s.
Proof.
  destruct x as [s|[|]| |[|] m e]; simpl; try discriminate.
  intros _. now exists s.
Qed.

Lemma fold_maximum_zero (rest : list float) :
  Forall (fun y => y = F64.zero) rest ->
  fold_left Np.maximum rest F64.zero = F64.zero.
Proof.
  induction rest as [|y rest IH]; intros H; simpl; [reflexivity|].
  inversion H as [|? ? Hy Hrest]; subst. simpl. now apply IH.
Qed.

Lemma peak_zero (ndata : list float) :
  ndata <> [] ->
  Forall (fun x => F64.eqb x F64.zero = true) ndata ->
  peak ndata = Some F64.zero.
Proof.
  intros Hne H. unfold peak.
  assert (Ha : Forall (fun y => y = F64.zero) (map Np.absolute ndata)).
  { apply Forall_map. eapply Forall_impl; [|exact H].
    intros x Hx. destruct (eqb_zero_inv x Hx) as [s ->]. reflexivity. }
  destruct ndata as [|x rest]; [congruence|].
  simpl in *. inversion Ha as [|? ? Hx Hrest]; subst.
  rewrite Hx. f_equal. now apply fold_maximum_zero.
Qed.

Lemma rescale_peak (ndata : list float) :
  rescale ndata =
  (p <- peak ndata ;; Some (map (fun x => F64.mul x (F64.div F64.one p)) ndata)).
Proof. reflexivity. Qed.



(* ===================================================================== *)
(** ** Denormalisation                                                    *)
(* ===================================================================== *)

Lemma valid_mantissa_lt (s : bool) (m : positive) (e : Z) :
  F64.valid (S754_finite s m e) = true -> Zpos m < 2 ^ 53.
Proof.
  intros Hv. apply valid_finite in Hv. destruct Hv as [Hc _].
  pose proof (digits2_pos_bounds m) as [_ Hhi].
  assert (Zpos (digits2_pos m) <= 53) by lia.
  assert (2 ^ Zpos (digits2_pos m) <= 2 ^ 53) by (apply Z.pow_le_mono_r; lia).
  lia.
Qed.

Lemma minus_one_eq : F64.of_Z (-1) = S754_finite true (2 ^ 52) (-52).
Proof. reflexivity. Qed.

Lemma pos_compare_cont_Eq (p q : positive) :
  Pos.compare_cont Eq p q = (Zpos p ?= Zpos q).
Proof. reflexivity. Qed.

Lemma clip1_unit (x : float) :
  F64.valid x = true -> F64.is_nan x = false ->
  unit_magnitude (Np.clip1 (F64.of_Z (-1)) F64.one x).
Proof.
  intros Hv Hn. unfold Np.clip1. rewrite minus_one_eq, one_eq.
  destruct x as [s|[|]| |[|] m e]; try discriminate; try exact I;
    try (simpl; split; [lia | reflexivity]).
  - (* negative *)
    pose proof (valid_mantissa_lt _ _ _ Hv) as Hm.
    unfold F64.ltb, F64.gtb, SFltb, SFcompare.
    destruct (Z.compare_spec e (-52)) as [He | He | He].
    + rewrite pos_compare_cont_Eq.
      destruct (Z.compare_spec (Zpos m) (Zpos (2 ^ 52))) as [Hc | Hc | Hc];
        simpl; try (split; [lia | reflexivity]).
      * split; [lia|]. subst e. rewrite Hc. reflexivity.
      * split; [lia|]. subst e. change (2 ^ (- -52)) with (Zpos (2 ^ 52)). lia.
    + simpl. split; [lia|].
      assert (2 ^ 53 <= 2 ^ (- e)) by (apply Z.pow_le_mono_r; lia). lia.
    + simpl. split; [lia | reflexivity].
  - (* positive *)
    pose proof (valid_mantissa_lt _ _ _ Hv) as Hm.
    unfold F64.ltb, F64.gtb, SFltb, SFcompare.
    destruct (Z.compare_spec (-52) e) as [He | He | He].
    + rewrite pos_compare_cont_Eq.
      destruct (Z.compare_spec (Zpos (2 ^ 52)) (Zpos m)) as [Hc | Hc | Hc];
        simpl; try (split; [lia | reflexivity]).
      * split; [lia|]. subst e. rewrite <- Hc. reflexivity.
      * split; [lia|]. subst e. change (2 ^ (- -52)) with (Zpos (2 ^ 52)). lia.
    + simpl. split; [lia | reflexivity].
    + simpl. split; [lia|].
      assert (2 ^ 53 <= 2 ^ (- e)) by (apply Z.pow_le_mono_r; lia). lia.
Qed.

Lemma to_int64_finite_bound (s : bool) (m : positive) (e fs : Z) :
  0 < fs < 2 ^ 53 -> e <= 0 -> Zpos m <= fs * 2 ^ (0 - e) ->
  - fs <= F64.to_int64 (S754_finite s m e) <= fs.
Proof.
  intros Hfs He Hm. unfold F64.to_int64, F64.trunc.
  set (v := if 0 <=? e then Zpos m * 2 ^ e else Zpos m / 2 ^ (- e)).
  assert (Hv : 0 <= v <= fs).
  { unfold v. destruct (Z.leb_spec 0 e).
    - replace e with 0 in * by lia. simpl in Hm. lia.
    - assert (0 < 2 ^ (- e)) by (apply Z.pow_pos_nonneg; lia).
      replace (0 - e) with (- e) in Hm by lia.
      split; [apply Z.div_pos; lia|].
      apply Z.div_le_upper_bound; lia. }
  assert (Hc : - fs <= cond_Zopp s v <= fs) by (destruct s; simpl; lia).
  assert (H63 : (2 ^ 53 < 2 ^ 63)) by reflexivity.
  replace ((F64.int64_min <=? cond_Zopp s v) && (cond_Zopp s v <=? F64.int64_max))
    with true; [exact Hc|].
  symmetry. apply andb_true_intro. unfold F64.int64_min, F64.int64_max.
  split; [apply Z.leb_le | apply Z.leb_le]; lia.
Qed.

(** One sample of [denormalize]: scaled, then truncated. *)
Lemma scale_unit_bound (fs : Z) (c : float) :
  0 < fs < 2 ^ 53 -> unit_magnitude c ->
  - fs <= F64.to_int64 (F64.mul (F64.of_Z fs) c) <= fs.
Proof.
  intros Hfs Hc. destruct (of_Z_pos fs Hfs) as [mf [Ef Hmf]]. rewrite Ef.
  pose proof (Zdigits2_nonneg fs) as Hd0.
  assert (Hd : Zdigits2 fs <= 53) by (apply Zdigits2_le; lia).
  destruct c as [sc|sc| |sc mc ec]; try contradiction.
  - change (F64.to_int64 (F64.mul (S754_finite false mf (Zdigits2 fs - 53))
                                  (S754_zero sc))) with 0. lia.
  - destruct Hc as [Hec Hmc].
    destruct (mul_bound false sc mf mc (Zdigits2 fs - 53) ec fs 0 53)
      as [E | [m' [e' [E [He' [_ Hm']]]]]]; try lia.
    + rewrite Hmf.
      replace (0 - (Zdigits2 fs - 53 + ec)) with ((53 - Zdigits2 fs) + (- ec)) by lia.
      rewrite Z.pow_add_r by lia.
      assert (0 < 2 ^ (53 - Zdigits2 fs)) by (apply Z.pow_pos_nonneg; lia).
      nia.
    + rewrite E. change (F64.to_int64 (S754_zero (xorb false sc))) with 0. lia.
    + rewrite E. apply to_int64_finite_bound; [exact Hfs | lia | exact Hm'].
Qed.

Lemma denormalize_eq (audio : Audio.t) (data : list float) (fs : Z) :
  Audio.denormalize audio data fs =
  map (fun x => F64.to_int64
                  (F64.mul (F64.of_Z fs) (Np.clip1 (F64.of_Z (-1)) F64.one x)))
      data.
Proof.
  unfold Audio.denormalize, Np.clip.
  rewrite mul_one_l by apply of_Z_valid.
  now rewrite map_map.
Qed.

(** The samples [denormalize] brings into range: those whose clamped value
    is a zero or a finite value of magnitude at most one. *)
Lemma denormalize_bound_clipped (audio : Audio.t) (data : list float) (fs : Z) :
  0 < fs < 2 ^ 53 ->
  Forall (fun x => unit_magnitude (Np.clip1 (F64.of_Z (-1)) F64.one x)) data ->
  Forall (fun v => - fs <= v <= fs) (Audio.denormalize audio data fs).
Proof.
  intros Hfs Hdata. rewrite denormalize_eq.
  apply Forall_map. eapply Forall_impl; [|exact Hdata].
  intros x Hx. now apply scale_unit_bound.
Qed.

Lemma denormalize_bound (audio : Audio.t) (data : list float) (fs : Z) :
  0 < fs < 2 ^ 53 ->
  Forall (fun x => F64.valid x = true /\ F64.is_nan x = false) data ->
  Forall (fun v => - fs <= v <= fs) (Audio.denormalize audio data fs).
Proof.
  intros Hfs Hdata. apply denormalize_bound_clipped; [exact Hfs|].
  eapply Forall_impl; [|exact Hdata].
  intros x [Hv Hn]. now apply clip1_unit.
Qed.

(** C5, as the code behaves.  For every sequence of binary64 values without
    a NaN and every full scale [0 < fs < 2^53] (both [2^15 - 1] and
    [2^31 - 1] are such), [denormalize] clamps each element to
    [[-1.0, 1.0]], multiplies by [fs] and truncates toward zero; every
    output lies in [[-fs, fs]], and with the full scale of a codec
    configuration the output is encoded without error. *)
Theorem denormalize_postcondition (audio : Audio.t) (data : list float) (fs : Z) :
  0 < fs < 2 ^ 53 ->
  Forall (fun x => F64.valid x = true /\ F64.is_nan x = false) data ->
  Audio.denormalize audio data fs =
    map (fun x => F64.to_int64
                    (F64.mul (F64.of_Z fs) (Np.clip1 (F64.of_Z (-1)) F64.one x)))
        data /\
  Forall (fun v => - fs <= v <= fs) (Audio.denormalize audio data fs) /\
  (forall low_res, fs = full_scale low_res ->
     exists s, Audio.serialize (Audio.__init__ low_res)
                 (Audio.denormalize audio data fs) = Some s).
Proof.
  intros Hfs Hdata.
  pose proof (denormalize_bound audio data fs Hfs Hdata) as Hb.
  split; [apply denormalize_eq|]. split; [exact Hb|].
  intros low_res ->. eexists. rewrite serialize_eq.
  apply serialize_loop_ok. eapply Forall_impl; [|exact Hb].
  intros v. apply full_scale_in_range.
Qed.

Lemma denormalize_postcondition_witness :
  let data := [F64.one; F64.of_Z (-7); F64.div F64.one (F64.of_Z 3);
               S754_infinity false] in
  Audio.denormalize (Audio.__init__ true) data 32767 =
    map (fun x => F64.to_int64
                    (F64.mul (F64.of_Z 32767)
                             (Np.clip1 (F64.of_Z (-1)) F64.one x)))
        data /\
  Forall (fun v => - 32767 <= v <= 32767)
         (Audio.denormalize (Audio.__init__ true) data 32767) /\
  (forall low_res, 32767 = full_scale low_res ->
     exists s, Audio.serialize (Audio.__init__ low_res)
                 (Audio.denormalize (Audio.__init__ true) data 32767) = Some s).
Proof.
  apply (denormalize_postcondition (Audio.__init__ true)
           [F64.one; F64.of_Z (-7); F64.div F64.one (F64.of_Z 3);
            S754_infinity false] 32767).
  - split; reflexivity.
  - repeat constructor.
Defined.

(** C5, as stated, fails for a NaN sample: [np.clip] lets it through and
    its conversion to a 64-bit integer is far outside [[-32767, 32767]]. *)
Lemma denormalize_nan_out_of_range : ~ denormalize_in_range [F64.nan] 32767.
Proof.
  unfold denormalize_in_range. intros H. inversion H as [|v l Hv _]; subst.
  vm_compute in Hv. destruct Hv as [Hv _]. apply Hv. reflexivity.
Qed.

(* ===================================================================== *)
(** ** The linear congruential generator                                  *)
(* ===================================================================== *)

(** *** The quotient [state / c] *)

Lemma of_Z_c : F64.of_Z lcg_c = S754_finite false 9007199250546688 (-22).
Proof. reflexivity. Qed.

(** The quotient is [0.0] or a positive number below [1.0] in this form. *)
Lemma quotient_form (a : Z) :
  0 <= a < lcg_c ->
  F64.div (F64.of_Z a) (F64.of_Z lcg_c) = S754_zero false \/
  exists m e,
    F64.div (F64.of_Z a) (F64.of_Z lcg_c) = S754_finite false m e /\
    e <= -53 /\ Zpos m <= lcg_c * 2 ^ (-31 - e).
Proof.
  intros [Ha0 Hac]. rewrite of_Z_c.
  destruct (Z.eq_dec a 0) as [-> | Hne]; [left; reflexivity|].
  assert (Hc : lcg_c = 2147483647) by reflexivity.
  assert (Ha : 0 < a < 2 ^ 53).
  { split; [lia|]. assert (2 ^ 31 < 2 ^ 53) by reflexivity. lia. }
  destruct (of_Z_pos_digits a Ha) as [ma [Ea [Hma [Hdm Hd1]]]]. rewrite Ea.
  assert (Hd31 : Zdigits2 a <= 31).
  { apply Zdigits2_le; [lia|]. change (2 ^ 31) with 2147483648. lia. }
  assert (He0 : Z.min (fexp F64.prec F64.emax
                         (Zpos (digits2_pos ma) + (Zdigits2 a - 53)
                          - (Zpos (digits2_pos 9007199250546688) + -22)))
                      (Zdigits2 a - 53 - -22) = Zdigits2 a - 84).
  { rewrite fexp64, Hdm.
    change (Zpos (digits2_pos 9007199250546688)) with 53. lia. }
  assert (Hq : a * 2 ^ 31 <= 2147483647 * 2147483647)
    by (change (2 ^ 31) with 2147483648; lia).
  assert (Hb : Zpos ma * 2 ^ 53
               <= Zpos 9007199250546688 * (lcg_c * 2 ^ (53 - Zdigits2 a))).
  { rewrite Hma, Hc.
    assert (0 < 2 ^ (53 - Zdigits2 a)) by (apply Z.pow_pos_nonneg; lia).
    change (Zpos 9007199250546688) with (2147483647 * 2 ^ 22).
    change (2 ^ 53) with (2 ^ 31 * 2 ^ 22).
    assert (0 < 2 ^ 22) by reflexivity.
    nia. }
  pose proof (div_bound false false ma 9007199250546688%positive
                (Zdigits2 a - 53) (-22) lcg_c (-31) 31) as H.
  cbv zeta in H. rewrite He0 in H.
  replace (Zdigits2 a - 53 - -22 - (Zdigits2 a - 84)) with 53 in H by lia.
  replace (-31 - (Zdigits2 a - 84)) with (53 - Zdigits2 a) in H by lia.
  specialize (H ltac:(lia) ltac:(rewrite Hc; lia) ltac:(lia) ltac:(lia) Hb).
  destruct H as [E | [m' [e' [E [He' [Hmax Hm']]]]]].
  - left. exact E.
  - right. exists m', e'. split; [exact E|]. split; [lia | exact Hm'].
Qed.

Lemma finite_below_one (m : positive) (e : Z) :
  e <= -53 ->
  F64.ltb (S754_finite false m e) F64.one = true /\
  F64.gtb (S754_finite false m e) F64.one = false.
Proof.
  intros He. rewrite one_eq. unfold F64.ltb, F64.gtb, SFltb, SFcompare.
  replace (e ?= -52) with Lt by (symmetry; apply Z.compare_lt_iff; lia).
  replace (-52 ?= e) with Gt by (symmetry; apply Z.compare_gt_iff; lia).
  split; reflexivity.
Qed.

Lemma quotient_unit (a : Z) :
  0 <= a < lcg_c ->
  F64.leb F64.zero (F64.div (F64.of_Z a) (F64.of_Z lcg_c)) = true /\
  F64.ltb (F64.div (F64.of_Z a) (F64.of_Z lcg_c)) F64.one = true.
Proof.
  intros Ha. destruct (quotient_form a Ha) as [E | [m [e [E [He _]]]]];
    rewrite E; [split; reflexivity|].
  split; [reflexivity|]. now apply finite_below_one.
Qed.

(** The clamp of [denormalize] leaves the quotient as it is, a value of
    magnitude below one. *)
Lemma quotient_clipped (a : Z) :
  0 <= a < lcg_c ->
  unit_magnitude
    (Np.clip1 (F64.of_Z (-1)) F64.one (F64.div (F64.of_Z a) (F64.of_Z lcg_c))).
Proof.
  intros Ha. destruct (quotient_form a Ha) as [E | [m [e [E [He Hm]]]]];
    rewrite E; [exact I|].
  unfold Np.clip1.
  replace (F64.ltb (S754_finite false m e) (F64.of_Z (-1))) with false
    by reflexivity.
  rewrite (proj2 (finite_below_one m e He)).
  cbn [unit_magnitude]. split; [lia|].
  assert (Hc : lcg_c < 2 ^ 31) by reflexivity.
  assert (Hp : 0 < 2 ^ (-31 - e)) by (apply Z.pow_pos_nonneg; lia).
  replace (- e) with (31 + (-31 - e)) by lia.
  rewrite Z.pow_add_r by lia. nia.
Qed.

(** *** The generator *)

Lemma lcg_state_range (seed : Z) (i : nat) : 0 <= lcg_state seed i < lcg_c.
Proof. destruct i; simpl; apply Z.mod_pos_bound; reflexivity. Qed.

Lemma init_lcg_at (seed : Z) : LCG.__init__ seed = lcg_at seed 0.
Proof. reflexivity. Qed.

Lemma next_lcg_at (seed : Z) (k : nat) :
  LCG.next (lcg_at seed k) = (lcg_state seed (S k), lcg_at seed (S k)).
Proof. reflexivity. Qed.

Lemma islice_lcg_at (seed : Z) (n : nat) : forall k : nat,
  LCG.islice (lcg_at seed k) n =
  (map (fun i => lcg_state seed (k + S i)) (seq 0 n), lcg_at seed (k + n)).
Proof.
  induction n as [|n IH]; intros k.
  - simpl. now rewrite Nat.add_0_r.
  - cbn [LCG.islice]. rewrite next_lcg_at, IH. cbn [seq map].
    rewrite <- seq_shift, map_map. f_equal.
    + f_equal; [f_equal; lia|]. apply map_ext. intros i. f_equal. lia.
    + f_equal. lia.
Qed.

Lemma draw_uniform_lcg_at (seed : Z) (k n : nat) :
  LCG.draw_uniform (lcg_at seed k) n =
  (map (fun i => F64.div (F64.of_Z (lcg_state seed (k + S i))) (F64.of_Z lcg_c))
       (seq 0 n),
   lcg_at seed (k + n)).
Proof.
  unfold LCG.draw_uniform. rewrite islice_lcg_at. now rewrite map_map.
Qed.

(** C6 (the generator).  For every seed and every [n], [draw_uniform(n)]
    returns exactly [n] values; the [i]-th of them (counting from 1) is
    [state_i / c] with [state_0 = (64979 * seed + 83) mod c],
    [state_i = (7^5 * state_(i-1) + 0) mod c] and [c = 2^31 - 1]; every
    value [v] satisfies [0.0 <= v < 1.0]; the values are a function of the
    seed alone, and a later draw continues the same sequence. *)
Theorem draw_uniform_spec (seed : Z) (n : nat) :
  let vals := fst (LCG.draw_uniform (LCG.__init__ seed) n) in
  let lcg' := snd (LCG.draw_uniform (LCG.__init__ seed) n) in
  length vals = n /\
  (forall i : nat, (i < n)%nat ->
     nth_error vals i =
       Some (F64.div (F64.of_Z (lcg_state seed (S i))) (F64.of_Z (2 ^ 31 - 1)))) /\
  Forall (fun v => F64.leb F64.zero v = true /\ F64.ltb v F64.one = true) vals /\
  LCG.__state lcg' = lcg_state seed n /\
  (forall m : nat,
     fst (LCG.draw_uniform lcg' m) =
     skipn n (fst (LCG.draw_uniform (LCG.__init__ seed) (n + m)))).
Proof.
  cbv zeta. rewrite init_lcg_at, draw_uniform_lcg_at. cbn [fst snd Nat.add].
  split; [now rewrite length_map, length_seq|]. split; [|split; [|split]].
  - intros i Hi. rewrite nth_error_map.
    rewrite nth_error_nth' with (d := 0%nat) by (rewrite length_seq; exact Hi).
    rewrite seq_nth by exact Hi. reflexivity.
  - apply Forall_map. apply Forall_forall. intros i _.
    apply quotient_unit. apply lcg_state_range.
  - reflexivity.
  - intros m. rewrite !draw_uniform_lcg_at. cbn [fst Nat.add].
    rewrite seq_app, map_app, skipn_app, length_map, length_seq, Nat.sub_diag.
    rewrite skipn_all2 by (rewrite length_map, length_seq; lia).
    cbn [skipn app Nat.add]. rewrite (seq_from n m), map_map.
    apply map_ext. intros i. do 3 f_equal. lia.
Qed.

Lemma draw_uniform_spec_witness :
  let vals := fst (LCG.draw_uniform (LCG.__init__ 1337) 3) in
  let lcg' := snd (LCG.draw_uniform (LCG.__init__ 1337) 3) in
  length vals = 3%nat /\
  (forall i : nat, (i < 3)%nat ->
     nth_error vals i =
       Some (F64.div (F64.of_Z (lcg_state 1337 (S i))) (F64.of_Z (2 ^ 31 - 1)))) /\
  Forall (fun v => F64.leb F64.zero v = true /\ F64.ltb v F64.one = true) vals /\
  LCG.__state lcg' = lcg_state 1337 3 /\
  (forall m : nat,
     fst (LCG.draw_uniform lcg' m) =
     skipn 3 (fst (LCG.draw_uniform (LCG.__init__ 1337) (3 + m)))).
Proof. exact (draw_uniform_spec 1337 3). Defined.

(* ===================================================================== *)
(** ** The rescale step: is it idempotent?                                *)
(* ===================================================================== *)

Lemma div_one_one : F64.div F64.one F64.one = F64.one.
Proof. reflexivity. Qed.

(** A signal whose peak is exactly [1.0] is a fixed point of the step. *)
Lemma rescale_unit_peak (ndata : list float) :
  Forall (fun x => F64.valid x = true) ndata ->
  peak ndata = Some F64.one ->
  rescale ndata = Some ndata.
Proof.
  intros Hv Hp. rewrite rescale_peak, Hp. cbn [bind]. f_equal.
  rewrite div_one_one. rewrite <- (map_id ndata) at 2.
  apply map_ext_in. intros x Hx. apply mul_one_r.
  rewrite Forall_forall in Hv. now apply Hv.
Qed.

Lemma maximum_valid (a b : float) :
  F64.valid a = true -> F64.valid b = true ->
  F64.valid (Np.maximum a b) = true.
Proof.
  intros Ha Hb. destruct (maximum_choice a b) as [-> | ->]; assumption.
Qed.

Lemma fold_maximum_valid (rest : list float) : forall acc : float,
  F64.valid acc = true -> Forall (fun x => F64.valid x = true) rest ->
  F64.valid (fold_left Np.maximum rest acc) = true.
Proof.
  induction rest as [|y rest IH]; intros acc Hacc Hrest; [exact Hacc|].
  inversion Hrest as [|? ? Hy Hrest']; subst. cbn [fold_left].
  apply IH; [now apply maximum_valid | exact Hrest'].
Qed.

Lemma peak_valid (ndata : list float) (p : float) :
  Forall (fun x => F64.valid x = true) ndata ->
  peak ndata = Some p -> F64.valid p = true.
Proof.
  intros Hv Hp. unfold peak in Hp. destruct ndata as [|x rest]; [discriminate|].
  inversion Hv as [|? ? Hx Hrest]; subst.
  cbn [map Np.max] in Hp. injection Hp as <-.
  apply fold_maximum_valid; [now apply abs_valid|].
  apply Forall_map. eapply Forall_impl; [|exact Hrest].
  intros y. apply abs_valid.
Qed.

(** The step maps well-formed signals to well-formed signals. *)
Lemma rescale_valid (ndata once : list float) :
  Forall (fun x => F64.valid x = true) ndata ->
  rescale ndata = Some once ->
  Forall (fun x => F64.valid x = true) once.
Proof.
  intros Hv H. rewrite rescale_peak in H.
  destruct (peak ndata) as [p|] eqn:Hp; [|discriminate].
  assert (E : once = map (fun x => F64.mul x (F64.div F64.one p)) ndata)
    by (unfold bind in H; congruence).
  subst once.
  apply Forall_map. eapply Forall_impl; [|exact Hv].
  intros x Hx. apply mul_valid; [exact Hx|].
  apply div_valid; [apply of_Z_valid | exact (peak_valid ndata p Hv Hp)].
Qed.

(** C9, as the code behaves.  The step multiplies by the rounded
    reciprocal [1.0 / peak]; when the signal it produces has peak exactly
    [1.0], applying the step again leaves that signal unchanged, so two
    applications give what one gives. *)
Theorem rescale_twice (ndata once : list float) :
  Forall (fun x => F64.valid x = true) ndata ->
  rescale ndata = Some once ->
  peak once = Some F64.one ->
  rescale once = Some once /\ rescale_idempotent ndata.
Proof.
  intros Hv H1 Hp.
  pose proof (rescale_valid ndata once Hv H1) as Hv1.
  pose proof (rescale_unit_peak once Hv1 Hp) as H2.
  split; [exact H2|]. unfold rescale_idempotent. rewrite H1. exact H2.
Qed.

Lemma rescale_twice_witness :
  let ndata := [F64.of_Z 2; F64.of_Z (-1)] in
  let once := [F64.one; F64.div (F64.of_Z (-1)) (F64.of_Z 2)] in
  rescale once = Some once /\ rescale_idempotent ndata.
Proof.
  apply (rescale_twice [F64.of_Z 2; F64.of_Z (-1)]
           [F64.one; F64.div (F64.of_Z (-1)) (F64.of_Z 2)]).
  - repeat constructor.
  - reflexivity.
  - reflexivity.
Defined.

(** C9, as stated, fails.  A recorded step of height 5, [[0, 0, 5, 5]],
    has the derivative [[0, p, p, 0]] with [p] the binary64 value of
    [5 / 32767]; its peak [p] is not zero, one application of the step
    gives [0.9999999999999999] at the peak, a second one gives [1.0]. *)
Lemma rescale_not_idempotent :
  exists ndata p,
    derive (Audio.normalize (Audio.__init__ true) [0; 0; 5; 5] 32767)
      = Some ndata /\
    peak ndata = Some p /\ nonzero p /\
    ~ rescale_idempotent ndata.
Proof.
  eexists. eexists. split; [reflexivity|]. split; [reflexivity|].
  split; [reflexivity|].
  unfold rescale_idempotent. vm_compute. discriminate.
Qed.

(* ===================================================================== *)
(** ** The test signal and its replay                                     *)
(* ===================================================================== *)

Section Chunks.

Variable num : Z.
Hypothesis num_pos : 0 < num.

Lemma chunk_list_spec (k : nat) : forall rdata : list float,
  len rdata = Z.of_nat k * num ->
  length (chunk_list k num rdata) = k /\
  Forall (fun ldata => len ldata = num) (chunk_list k num rdata) /\
  concat (chunk_list k num rdata) = rdata /\
  forall j : nat, (j < k)%nat ->
    nth_error (chunk_list k num rdata) j =
      Some (slice rdata (Z.of_nat j * num) (Z.of_nat j * num + num)).
Proof.
  induction k as [|k IH]; intros rdata Hlen.
  - destruct rdata; [|unfold len in Hlen; simpl in Hlen; lia].
    simpl. repeat split; auto. intros j Hj. lia.
  - cbn [chunk_list]. rewrite slice_0. unfold slice_from.
    assert (Hn : (Z.to_nat num <= length rdata)%nat) by (unfold len in Hlen; nia).
    destruct (IH (skipn (Z.to_nat num) rdata)) as [H1 [H2 [H3 H4]]].
    { unfold len in *. rewrite length_skipn. nia. }
    split; [simpl; now rewrite H1|]. split; [|split].
    + constructor; [|exact H2]. unfold len. rewrite length_firstn. lia.
    + cbn [concat]. rewrite H3. apply firstn_skipn.
    + intros [|j] Hj.
      * cbn [nth_error]. rewrite Z.mul_0_l, Z.add_0_l. now rewrite slice_0.
      * cbn [nth_error]. rewrite H4 by lia. f_equal. unfold slice.
        rewrite skipn_skipn. f_equal; [lia|]. f_equal. lia.
Qed.

Lemma emit_ok (ldata : list float) :
  Forall playable ldata ->
  Audio.serialize (Audio.__init__ false)
    (Audio.denormalize (Audio.__init__ false) ldata 2147483647)
  = Some (emit ldata).
Proof.
  intros H. rewrite serialize_eq. unfold emit.
  rewrite (serialize_loop_ok (sample_order false) (sample_code false)).
  - reflexivity.
  - eapply Forall_impl; [apply (full_scale_in_range false)|].
    apply denormalize_bound_clipped; [split; reflexivity | exact H].
Qed.

Lemma chunk_loop_spec (k : nat) : forall (fuel : nat) (rdata : list float) (outp : pcm),
  (k < fuel)%nat ->
  len rdata = Z.of_nat k * num ->
  Forall playable rdata ->
  chunk_loop fuel (Audio.__init__ false) num rdata outp
  = Finished (outp ++ map emit (chunk_list k num rdata)).
Proof.
  induction k as [|k IH]; intros fuel rdata outp Hfuel Hlen Hok.
  - destruct fuel as [|fuel]; [lia|]. cbn [chunk_loop].
    replace (0 <? len rdata) with false by (symmetry; apply Z.ltb_ge; lia).
    simpl. now rewrite app_nil_r.
  - destruct fuel as [|fuel]; [lia|]. cbn [chunk_loop].
    replace (0 <? len rdata) with true by (symmetry; apply Z.ltb_lt; nia).
    rewrite emit_ok.
    + rewrite IH.
      * unfold write. cbn [chunk_list map]. now rewrite <- app_assoc.
      * lia.
      * unfold slice_from, len in *. rewrite length_skipn. nia.
      * unfold slice_from. now apply Forall_firstn_skipn.
    + rewrite slice_0. now apply Forall_firstn_skipn.
Qed.

Lemma replay_spec (cycles : nat) : forall (k fuel : nat) (ndata : list float) (outp : pcm),
  (k < fuel)%nat ->
  len ndata = Z.of_nat k * num ->
  Forall playable ndata ->
  replay cycles fuel (Audio.__init__ false) num ndata outp
  = Finished (outp ++ concat (repeat (map emit (chunk_list k num ndata)) cycles)).
Proof.
  induction cycles as [|cycles IH]; intros k fuel ndata outp Hfuel Hlen Hok.
  - simpl. now rewrite app_nil_r.
  - cbn [replay]. rewrite (chunk_loop_spec k) by assumption.
    rewrite (IH k) by assumption. cbn [repeat concat]. now rewrite <- app_assoc.
Qed.

End Chunks.

Lemma playable_zero : playable F64.zero.
Proof. exact I. Qed.

Lemma playable_one : playable F64.one.
Proof. vm_compute. split; [reflexivity | discriminate]. Qed.

Lemma playable_minus_one : playable (F64.neg F64.one).
Proof. vm_compute. split; [reflexivity | discriminate]. Qed.

Lemma noise_eq :
  noise = map (fun i => F64.div (F64.of_Z (lcg_state 1337 (S i))) (F64.of_Z lcg_c))
              (seq 0 (Z.to_nat rate)).
Proof.
  unfold noise, lcg. rewrite init_lcg_at, draw_uniform_lcg_at. reflexivity.
Qed.

Lemma noise_playable : Forall playable noise.
Proof.
  rewrite noise_eq. apply Forall_map. apply Forall_forall. intros i _.
  apply quotient_clipped. apply lcg_state_range.
Qed.

Lemma ndata_eq :
  ndata = silence ++ noise ++ silence ++ plusone ++ silence ++ minusone
          ++ silence ++ plusone ++ minusone ++ silence.
Proof. unfold ndata. cbn [concat]. now rewrite app_nil_r. Qed.

Lemma segment_lengths :
  length silence = Z.to_nat rate /\ length noise = Z.to_nat rate /\
  length plusone = Z.to_nat rate /\ length minusone = Z.to_nat rate.
Proof.
  unfold silence, plusone, minusone, Np.zeros, Np.ones.
  rewrite noise_eq, !length_map, length_seq, !repeat_length. auto.
Qed.

Lemma ndata_len : len ndata = 10 * rate.
Proof.
  destruct segment_lengths as [Hs [Hn [Hp Hm]]].
  rewrite ndata_eq. unfold len. rewrite !length_app, Hs, Hn, Hp, Hm.
  assert (0 <= rate) by (unfold rate; lia). lia.
Qed.

Lemma ndata_playable : Forall playable ndata.
Proof.
  assert (Hs : Forall playable silence)
    by (apply Forall_repeat; exact playable_zero).
  assert (Hp : Forall playable plusone)
    by (apply Forall_repeat; exact playable_one).
  assert (Hm : Forall playable minusone).
  { unfold minusone, Np.ones. rewrite map_repeat.
    apply Forall_repeat. exact playable_minus_one. }
  pose proof noise_playable as Hn.
  rewrite ndata_eq.
  do 9 (apply Forall_app; split; [assumption|]). assumption.
Qed.

(** C8 (the test signal).  The sample rate is 96000 and the chunk size
    [rate / 50].  The waveform is the concatenation, in this order, of
    silence, noise, silence, +1, silence, -1, silence, +1, -1, silence, each
    segment [rate] samples long, the noise being [draw_uniform(rate)] of the
    generator seeded with 1337; it has [10 * rate] samples.  A round of the
    replay loop cuts it into 500 chunks of exactly [rate / 50] samples that
    together are the whole waveform, and writes one block per chunk; every
    round finishes without an exception and writes the same blocks, so the
    waveform is the same in every round. *)
Theorem waveform_assembly :
  rate = 96000 /\ num = rate / 50 /\
  ndata = silence ++ noise ++ silence ++ plusone ++ silence ++ minusone
          ++ silence ++ plusone ++ minusone ++ silence /\
  silence = repeat F64.zero (Z.to_nat rate) /\
  plusone = repeat F64.one (Z.to_nat rate) /\
  minusone = repeat (F64.of_Z (-1)) (Z.to_nat rate) /\
  noise = fst (LCG.draw_uniform (LCG.__init__ 1337) (Z.to_nat rate)) /\
  length noise = Z.to_nat rate /\
  len ndata = 10 * rate /\
  let chunks := chunk_list 500 num ndata in
  length chunks = 500%nat /\
  Forall (fun ldata => len ldata = num) chunks /\
  concat chunks = ndata /\
  forall (cycles fuel : nat) (outp : pcm), (500 < fuel)%nat ->
    replay cycles fuel (Audio.__init__ false) num ndata outp
    = Finished (outp ++ concat (repeat (map emit chunks) cycles)).
Proof.
  assert (Hlen : len ndata = Z.of_nat 500 * num).
  { rewrite ndata_len. reflexivity. }
  assert (Hnum : 0 < num) by reflexivity.
  destruct (chunk_list_spec num Hnum 500 ndata Hlen) as [H1 [H2 [H3 _]]].
  split; [reflexivity|]. split; [reflexivity|]. split; [exact ndata_eq|].
  split; [reflexivity|]. split; [reflexivity|].
  split; [unfold minusone, Np.ones; rewrite map_repeat; reflexivity|].
  split; [reflexivity|]. split; [exact (proj1 (proj2 segment_lengths))|].
  split; [exact ndata_len|]. cbv zeta.
  split; [exact H1|]. split; [exact H2|]. split; [exact H3|].
  intros cycles fuel outp Hfuel.
  apply (replay_spec num Hnum cycles 500); [exact Hfuel | exact Hlen|].
  exact ndata_playable.
Qed.

(* ===================================================================== *)
(** ** Runs of the converter and remarks on the bounds                    *)
(* ===================================================================== *)

(** The 16-bit codec writes the low byte first, the 32-bit codec the high
    byte first. *)
Lemma serialize_byte_order :
  Audio.serialize (Audio.__init__ true) [1] = Some [Byte.x01; Byte.x00] /\
  Audio.serialize (Audio.__init__ false) [1]
    = Some [Byte.x00; Byte.x00; Byte.x00; Byte.x01].
Proof. split; reflexivity. Qed.

(** A silent recording of three samples: the derivative is zero, the peak
    is [0.0], the rescale step produces NaN samples, their conversion is
    out of the 16-bit range and encoding raises. *)
Lemma convert_silent_recording (fft ifft : list complex -> list complex)
  (samplerate : Z) :
  convert fft ifft false samplerate
    [[Byte.x00; Byte.x00; Byte.x00; Byte.x00; Byte.x00; Byte.x00]; []] = None.
Proof. reflexivity. Qed.

(** A recorded step of height 5: the peak of the output is 32766, one below
    full scale, because the rescaled peak is just below [1.0]. *)
Lemma convert_step_recording (fft ifft : list complex -> list complex)
  (samplerate : Z) :
  convert fft ifft false samplerate
    [[Byte.x00; Byte.x00; Byte.x00; Byte.x00;
      Byte.x05; Byte.x00; Byte.x05; Byte.x00]; []]
  = Some [[Byte.x00; Byte.x00; Byte.xfe; Byte.x7f;
           Byte.xfe; Byte.x7f; Byte.x00; Byte.x00]].
Proof. reflexivity. Qed.

(** The range of [denormalize] needs a full scale that binary64 holds
    exactly: [2^54 - 1] is rounded to [2^54], which the sample [1.0] then
    yields. *)
Lemma denormalize_large_full_scale :
  Audio.denormalize (Audio.__init__ false) [F64.one] (2 ^ 54 - 1) = [2 ^ 54].
Proof. reflexivity. Qed.

(** The signals the converter works on are well formed: normalised samples
    are, and differentiation keeps them so. *)
Lemma normalize_valid (audio : Audio.t) (data : list Z) (max_val : Z) :
  Forall (fun x => F64.valid x = true) (Audio.normalize audio data max_val).
Proof.
  unfold Audio.normalize. apply Forall_map. apply Forall_forall. intros x _.
  apply mul_valid; [|apply of_Z_valid].
  apply div_valid; apply of_Z_valid.
Qed.

Lemma nth_valid (ir : list float) (k : nat) :
  Forall (fun x => F64.valid x = true) ir ->
  F64.valid (nth k ir F64.zero) = true.
Proof.
  intros H. revert k. induction H as [|x l Hx Hl IH]; intros [|k]; simpl; auto.
Qed.

Lemma derive_valid (ir der : list float) :
  Forall (fun x => F64.valid x = true) ir ->
  derive ir = Some der ->
  Forall (fun x => F64.valid x = true) der.
Proof.
  intros Hv H. rewrite derive_eq in H. injection H as <-.
  constructor; [reflexivity|]. apply Forall_app. split.
  - apply Forall_map. apply Forall_forall. intros i _.
    apply sub_valid; now apply nth_valid.
  - repeat constructor.
Qed.

(* ===================================================================== *)
(** * Further properties of the code                                      *)
(* ===================================================================== *)

(* ===================================================================== *)
(** ** The sample codec: errors, inverses, concatenation                  *)
(* ===================================================================== *)

Lemma pack_single_none en c v :
  Struct.in_range c v = false -> Struct.pack (en, [c]) [v] = None.
Proof.
  intros H. unfold Struct.pack; simpl. unfold Struct.pack1. now rewrite H.
Qed.

Lemma serialize_loop_none en c (a : list Z) : forall s,
  Audio.serialize_loop (en, [c]) a s = None <->
  Exists (fun v => Struct.in_range c v = false) a.
Proof.
  induction a as [|v a IH]; intros s; simpl.
  - split; [discriminate | intros H; inversion H].
  - destruct (Struct.in_range c v) eqn:Hv.
    + rewrite (pack_single en c v Hv). simpl. rewrite IH. split.
      * intros H. now apply Exists_cons_tl.
      * intros H. inversion H as [? ? Hx | ? ? Hx]; subst; [congruence | exact Hx].
    + rewrite (pack_single_none en c v Hv). simpl. split; [|reflexivity].
      intros _. now apply Exists_cons_hd.
Qed.

Lemma serialize_loop_some en c (a : list Z) s r :
  Audio.serialize_loop (en, [c]) a s = Some r ->
  Forall (fun v => Struct.in_range c v = true) a.
Proof.
  intros H. apply Forall_forall. intros v Hv.
  destruct (Struct.in_range c v) eqn:E; [reflexivity | exfalso].
  assert (N : Audio.serialize_loop (en, [c]) a s = None).
  { apply serialize_loop_none. apply Exists_exists. now exists v. }
  congruence.
Qed.

Lemma in_range_full_scale low_res v :
  Struct.in_range (sample_code low_res) v = false <->
  v < - full_scale low_res - 1 \/ full_scale low_res < v.
Proof.
  unfold Struct.in_range.
  assert (E : 2 ^ (Struct.bits (sample_code low_res) - 1) = full_scale low_res + 1)
    by (destruct low_res; reflexivity).
  rewrite E. rewrite andb_false_iff, !Z.leb_gt. lia.
Qed.

(** X1.  The encoder does not clamp: [serialize] raises exactly when the
    sequence holds a value outside the signed range of the sample width,
    that is below [-full_scale - 1] or above [full_scale]. *)
Theorem serialize_raises_iff (low_res : bool) (a : list Z) :
  Audio.serialize (Audio.__init__ low_res) a = None <->
  Exists (fun v => v < - full_scale low_res - 1 \/ full_scale low_res < v) a.
Proof.
  rewrite serialize_eq, serialize_loop_none.
  rewrite !Exists_exists. split; intros [v [Hin Hv]]; exists v; split; trivial;
    now apply in_range_full_scale.
Qed.

Lemma serialize_some low_res a s :
  Audio.serialize (Audio.__init__ low_res) a = Some s ->
  Forall (fun v => Struct.in_range (sample_code low_res) v = true) a /\
  s = flat_map (encoding (sample_order low_res) (sample_code low_res)) a.
Proof.
  rewrite serialize_eq. intros H.
  pose proof (serialize_loop_some _ _ _ _ _ H) as Ha. split; [exact Ha|].
  rewrite (serialize_loop_ok _ _ _ [] Ha) in H. now injection H as <-.
Qed.

(** X2.  A successful [serialize] yields exactly [width] bytes for every
    element: two in the 16-bit configuration, four in the 32-bit one. *)
Theorem serialize_length (low_res : bool) (a : list Z) (s : list byte) :
  Audio.serialize (Audio.__init__ low_res) a = Some s ->
  len s = width low_res * len a.
Proof.
  intros H. apply serialize_some in H as [_ ->].
  unfold len. rewrite flat_map_encoding_length, width_size. lia.
Qed.

Lemma serialize_length_witness :
  Audio.serialize (Audio.__init__ true) [1; -32768; 7] =
    Some [Byte.x01; Byte.x00; Byte.x00; Byte.x80; Byte.x07; Byte.x00] /\
  len [Byte.x01; Byte.x00; Byte.x00; Byte.x80; Byte.x07; Byte.x00] =
    width true * len [1; -32768; 7].
Proof.
  split; [reflexivity|].
  apply (serialize_length true [1; -32768; 7]). reflexivity.
Defined.

Lemma unpack1_in_range en c (bs : list byte) :
  length bs = Struct.size c ->
  Struct.in_range c (Struct.unpack1 en c bs) = true.
Proof.
  intros Hl. unfold Struct.unpack1, Struct.in_range.
  pose proof (le_combine_bound (Struct.order en bs)) as Hb.
  rewrite order_length, Hl in Hb.
  replace (8 * Z.of_nat (Struct.size c)) with (Struct.bits c) in Hb
    by (unfold Struct.bits; lia).
  assert (E : 2 ^ Struct.bits c = 2 * 2 ^ (Struct.bits c - 1))
    by (destruct c; reflexivity).
  apply andb_true_intro.
  destruct (Z.ltb_spec (le_combine (Struct.order en bs)) (2 ^ (Struct.bits c - 1)));
    split; apply Z.leb_le; lia.
Qed.

Lemma encoding_unpack1 en c (bs : list byte) :
  length bs = Struct.size c ->
  encoding en c (Struct.unpack1 en c bs) = bs.
Proof.
  intros Hl. unfold encoding, Struct.unpack1.
  assert (E : le_split (Struct.size c)
                (if le_combine (Struct.order en bs) <? 2 ^ (Struct.bits c - 1)
                 then le_combine (Struct.order en bs)
                 else le_combine (Struct.order en bs) - 2 ^ Struct.bits c) =
              Struct.order en bs).
  { destruct (le_combine (Struct.order en bs) <? 2 ^ (Struct.bits c - 1)).
    - apply split_le_combine'. now rewrite order_length.
    - rewrite le_split_mod.
      replace (Z.of_nat (Struct.size c) * 8) with (Struct.bits c)
        by (unfold Struct.bits; lia).
      replace (le_combine (Struct.order en bs) - 2 ^ Struct.bits c)
        with (le_combine (Struct.order en bs) + (-1) * 2 ^ Struct.bits c) by lia.
      rewrite Z.mod_add by (destruct c; discriminate).
      replace (Struct.bits c) with (Z.of_nat (Struct.size c) * 8)
        by (unfold Struct.bits; lia).
      rewrite <- le_split_mod.
      apply split_le_combine'. now rewrite order_length. }
  rewrite E. apply order_involutive.
Qed.

Lemma unpack_items_whole en c (n : nat) : forall (s : list byte),
  length s = (n * Struct.size c)%nat ->
  Forall (fun v => Struct.in_range c v = true)
         (Struct.unpack_items en (repeat c n) s) /\
  flat_map (encoding en c) (Struct.unpack_items en (repeat c n) s) = s.
Proof.
  induction n as [|n IH]; intros s Hl; simpl.
  - split; [constructor|]. destruct s; [reflexivity | discriminate].
  - assert (H1 : length (firstn (Struct.size c) s) = Struct.size c)
      by (rewrite length_firstn; simpl in Hl; lia).
    assert (H2 : length (skipn (Struct.size c) s) = (n * Struct.size c)%nat)
      by (rewrite length_skipn; simpl in Hl; lia).
    destruct (IH _ H2) as [Hr He]. split.
    + constructor; [now apply unpack1_in_range | exact Hr].
    + rewrite He, encoding_unpack1 by exact H1. apply firstn_skipn.
Qed.

Lemma deserialize_some low_res (s : list byte) (a : list Z) :
  Audio.deserialize (Audio.__init__ low_res) s = Some a ->
  Forall (fun v => Struct.in_range (sample_code low_res) v = true) a /\
  flat_map (encoding (sample_order low_res) (sample_code low_res)) a = s.
Proof.
  rewrite deserialize_eq. unfold Struct.unpack.
  rewrite calcsize_repeat.
  destruct (Nat.eqb_spec (length s)
              (Z.to_nat (len s / width low_res) * Struct.size (sample_code low_res)))
    as [E | E]; [|discriminate].
  intros [= <-]. cbn [fst snd]. now apply unpack_items_whole.
Qed.

(** X3.  Encoder and decoder are inverse partial functions: [serialize]
    turns [a] into [s] exactly when [deserialize] turns [s] into [a].  In
    particular every byte string of whole samples is reproduced by decoding
    and encoding it again, and the most negative value of a width, which is
    outside the symmetric full-scale range, survives the round trip too. *)
Theorem codec_inverse (low_res : bool) (a : list Z) (s : list byte) :
  Audio.serialize (Audio.__init__ low_res) a = Some s <->
  Audio.deserialize (Audio.__init__ low_res) s = Some a.
Proof.
  split; intros H.
  - apply serialize_some in H as [Ha ->]. now apply deserialize_encoded.
  - apply deserialize_some in H as [Ha <-].
    rewrite serialize_eq. now rewrite serialize_loop_ok.
Qed.

Lemma serialize_loop_acc fmt (a : list Z) : forall s,
  Audio.serialize_loop fmt a s =
  (r <- Audio.serialize_loop fmt a [] ;; Some (s ++ r)).
Proof.
  induction a as [|v a IH]; intros s; simpl.
  - now rewrite app_nil_r.
  - destruct (Struct.pack fmt [v]) as [p|]; simpl; [|reflexivity].
    rewrite (IH (s ++ p)), (IH p).
    destruct (Audio.serialize_loop fmt a []) as [r|]; simpl; [|reflexivity].
    now rewrite app_assoc.
Qed.

Lemma serialize_loop_app fmt (a b : list Z) : forall s,
  Audio.serialize_loop fmt (a ++ b) s =
  (r <- Audio.serialize_loop fmt a s ;; Audio.serialize_loop fmt b r).
Proof.
  induction a as [|v a IH]; intros s; simpl.
  - reflexivity.
  - destruct (Struct.pack fmt [v]) as [p|]; simpl; [apply IH | reflexivity].
Qed.

(** X4.  Encoding distributes over concatenation: the bytes of [a ++ b] are
    the bytes of [a] followed by the bytes of [b], and the whole raises when
    either part does.  Encoding a signal block by block therefore gives the
    bytes of the whole signal. *)
Theorem serialize_app (self : Audio.t) (a b : list Z) :
  Audio.serialize self (a ++ b) =
  (sa <- Audio.serialize self a ;;
   sb <- Audio.serialize self b ;;
   Some (sa ++ sb)).
Proof.
  unfold Audio.serialize. rewrite serialize_loop_app.
  destruct (Audio.serialize_loop _ a []) as [sa|]; simpl; [|reflexivity].
  apply serialize_loop_acc.
Qed.

Lemma unpack_items_app en c (n1 n2 : nat) (s1 s2 : list byte) :
  length s1 = (n1 * Struct.size c)%nat ->
  Struct.unpack_items en (repeat c (n1 + n2)) (s1 ++ s2) =
  Struct.unpack_items en (repeat c n1) s1 ++ Struct.unpack_items en (repeat c n2) s2.
Proof.
  revert s1. induction n1 as [|n1 IH]; intros s1 Hl; simpl.
  - destruct s1; [reflexivity | discriminate].
  - simpl in Hl.
    assert (Hs : (Struct.size c <= length s1)%nat) by lia.
    rewrite firstn_app, skipn_app.
    replace (Struct.size c - length s1)%nat with 0%nat by lia.
    simpl. rewrite app_nil_r. f_equal.
    apply IH. rewrite length_skipn. lia.
Qed.

Lemma width_pos low_res : 0 < width low_res.
Proof. destruct low_res; reflexivity. Qed.

(** X5.  Decoding distributes over concatenation at sample boundaries: when
    [s1] holds whole samples, decoding [s1 ++ s2] gives the samples of [s1]
    followed by those of [s2], and raises when [s2] does. *)
Theorem deserialize_app (low_res : bool) (s1 s2 : list byte) :
  len s1 mod width low_res = 0 ->
  Audio.deserialize (Audio.__init__ low_res) (s1 ++ s2) =
  (a1 <- Audio.deserialize (Audio.__init__ low_res) s1 ;;
   a2 <- Audio.deserialize (Audio.__init__ low_res) s2 ;;
   Some (a1 ++ a2)).
Proof.
  intros H1. pose proof (width_pos low_res) as Hw.
  destruct (Z.eq_dec (len s2 mod width low_res) 0) as [H2 | H2].
  - destruct (deserialize_multiple low_res s1 H1) as [a1 [E1 L1]].
    destruct (deserialize_multiple low_res s2 H2) as [a2 [E2 L2]].
    rewrite E1, E2. simpl.
    apply deserialize_some in E1 as [F1 <-]. apply deserialize_some in E2 as [F2 <-].
    rewrite <- flat_map_app. apply deserialize_encoded.
    apply Forall_app. now split.
  - destruct (deserialize_multiple low_res s1 H1) as [a1 [E1 L1]].
    rewrite E1. simpl.
    rewrite (deserialize_not_multiple low_res s2 H2). simpl.
    apply deserialize_not_multiple.
    rewrite len_app, Z.add_mod, H1, Z.add_0_l, Z.mod_mod by lia. exact H2.
Qed.

Lemma deserialize_app_witness :
  len [Byte.x01; Byte.x00] mod width true = 0 /\
  Audio.deserialize (Audio.__init__ true)
    ([Byte.x01; Byte.x00] ++ [Byte.xff; Byte.xff]) =
  (a1 <- Audio.deserialize (Audio.__init__ true) [Byte.x01; Byte.x00] ;;
   a2 <- Audio.deserialize (Audio.__init__ true) [Byte.xff; Byte.xff] ;;
   Some (a1 ++ a2)).
Proof.
  split; [reflexivity|].
  apply (deserialize_app true [Byte.x01; Byte.x00] [Byte.xff; Byte.xff]).
  reflexivity.
Defined.

(* ===================================================================== *)
(** ** The converter: input loop, output loop, lengths                    *)
(* ===================================================================== *)

Lemma deserialize_app_some low_res (s1 s2 : list byte) (a1 a2 : list Z) :
  Audio.deserialize (Audio.__init__ low_res) s1 = Some a1 ->
  Audio.deserialize (Audio.__init__ low_res) s2 = Some a2 ->
  Audio.deserialize (Audio.__init__ low_res) (s1 ++ s2) = Some (a1 ++ a2).
Proof.
  intros E1 E2.
  apply deserialize_some in E1 as [F1 <-]. apply deserialize_some in E2 as [F2 <-].
  rewrite <- flat_map_app. apply deserialize_encoded.
  apply Forall_app. now split.
Qed.


Lemma normalize_app audio (a b : list Z) (max_val : Z) :
  Audio.normalize audio (a ++ b) max_val =
  Audio.normalize audio a max_val ++ Audio.normalize audio b max_val.
Proof. unfold Audio.normalize. apply map_app. Qed.


Lemma read_loop_whole low_res (data : list (list byte)) :
  forall acc : list float,
  Forall (fun buf => len buf mod width low_res = 0) data ->
  exists samples,
    Audio.deserialize (Audio.__init__ low_res) (concat data) = Some samples /\
    read_loop (Audio.__init__ low_res) data acc =
      Some (acc ++ Audio.normalize (Audio.__init__ low_res) samples 32767).
Proof.
  induction data as [|buf data IH]; intros acc Hd.
  - exists []. split; [now destruct low_res|]. simpl. now rewrite app_nil_r.
  - inversion Hd as [|? ? Hb Hd']; subst.
    destruct (deserialize_multiple low_res buf Hb) as [pbuf [E _]].
    destruct (IH (acc ++ Audio.normalize (Audio.__init__ low_res) pbuf 32767) Hd')
      as [samples [Hs Hr]].
    exists (pbuf ++ samples). split.
    + simpl. now apply deserialize_app_some.
    + simpl. rewrite E. simpl. rewrite Hr. now rewrite normalize_app, app_assoc.
Qed.

Lemma read_loop_partial low_res (data : list (list byte)) :
  forall acc : list float,
  Exists (fun buf => len buf mod width low_res <> 0) data ->
  read_loop (Audio.__init__ low_res) data acc = None.
Proof.
  induction data as [|buf data IH]; intros acc Hd.
  - inversion Hd.
  - simpl.
    destruct (Audio.deserialize (Audio.__init__ low_res) buf) as [pbuf|] eqn:E;
      [|reflexivity].
    simpl. apply IH. inversion Hd as [? ? Hb | ? ? Hr]; subst; [|exact Hr].
    rewrite (deserialize_not_multiple low_res buf Hb) in E. discriminate.
Qed.

(** X6.  The input loop of the converter.  When every buffer holds whole
    16-bit samples, decoding and normalising buffer by buffer gives what
    decoding and normalising the concatenated bytes gives; a buffer with an
    odd number of bytes makes the loop raise, even if the concatenation
    would have an even length. *)
Theorem read_loop_concat (data : list (list byte)) :
  (Forall (fun buf => len buf mod 2 = 0) data ->
     exists samples,
       Audio.deserialize (Audio.__init__ true) (concat data) = Some samples /\
       read_loop (Audio.__init__ true) data [] =
         Some (Audio.normalize (Audio.__init__ true) samples 32767)) /\
  (Exists (fun buf => len buf mod 2 <> 0) data ->
     read_loop (Audio.__init__ true) data [] = None).
Proof.
  split.
  - intros H. destruct (read_loop_whole true data [] H) as [samples [Hs Hr]].
    exists samples. split; [exact Hs | exact Hr].
  - intros H. now apply (read_loop_partial true).
Qed.

Lemma read_loop_concat_witness :
  (exists samples,
     Audio.deserialize (Audio.__init__ true)
       (concat [[Byte.x01; Byte.x00]; [Byte.x02; Byte.x00; Byte.x03; Byte.x00]; []])
       = Some samples /\
     read_loop (Audio.__init__ true)
       [[Byte.x01; Byte.x00]; [Byte.x02; Byte.x00; Byte.x03; Byte.x00]; []] [] =
       Some (Audio.normalize (Audio.__init__ true) samples 32767)) /\
  read_loop (Audio.__init__ true) [[Byte.x01]; [Byte.x00]] [] = None.
Proof.
  split.
  - apply (proj1 (read_loop_concat
                    [[Byte.x01; Byte.x00]; [Byte.x02; Byte.x00; Byte.x03; Byte.x00]; []])).
    repeat constructor.
  - apply (proj2 (read_loop_concat [[Byte.x01]; [Byte.x00]])).
    apply Exists_cons_hd. discriminate.
Defined.

(** *** Blocks of a list *)

Lemma firstn_plus {A : Type} (c m : nat) : forall l : list A,
  firstn (c + m) l = firstn c l ++ firstn m (skipn c l).
Proof.
  induction c as [|c IH]; intros l; simpl; [reflexivity|].
  destruct l as [|x l]; simpl.
  - now rewrite firstn_nil.
  - now rewrite IH.
Qed.

Lemma concat_blocks_from {A : Type} (c : nat) (l : list A) (K : nat) : forall j : nat,
  concat (map (fun k => firstn c (skipn (k * c) l)) (seq j K))
  = firstn (K * c) (skipn (j * c) l).
Proof.
  induction K as [|K IH]; intros j; simpl; [reflexivity|].
  rewrite IH, firstn_plus, skipn_skipn. reflexivity.
Qed.

Lemma range_step_blocks {A : Type} (l : list A) :
  map (fun i => slice l i (i + 8192)) (range_step 0 (len l) 8192)
  = map (fun k => firstn (Z.to_nat 8192) (skipn (k * Z.to_nat 8192) l))
        (seq 0 (Z.to_nat ((len l + 8191) / 8192))).
Proof.
  unfold range_step. rewrite map_map.
  replace (len l - 0 + 8192 - 1) with (len l + 8191) by lia.
  apply map_ext. intros k. unfold slice. f_equal; [f_equal; lia|].
  f_equal. lia.
Qed.

Lemma concat_blocks {A : Type} (l : list A) :
  concat (map (fun i => slice l i (i + 8192)) (range_step 0 (len l) 8192)) = l.
Proof.
  rewrite range_step_blocks, concat_blocks_from. simpl skipn.
  apply firstn_all2.
  assert (H : len l <= 8192 * ((len l + 8191) / 8192)).
  { pose proof (Z.div_mod (len l + 8191) 8192 ltac:(lia)).
    pose proof (Z.mod_pos_bound (len l + 8191) 8192 ltac:(lia)). lia. }
  unfold len in *.
  assert (0 <= (Z.of_nat (length l) + 8191) / 8192)
    by (apply Z.div_pos; lia).
  nia.
Qed.

Lemma denormalize_concat audio (blocks : list (list float)) (fs : Z) :
  concat (map (fun b => Audio.denormalize audio b fs) blocks)
  = Audio.denormalize audio (concat blocks) fs.
Proof.
  rewrite (denormalize_eq audio (concat blocks)).
  rewrite concat_map. f_equal. apply map_ext. intros b. apply denormalize_eq.
Qed.

Lemma write_loop_concat (audio : Audio.t) (ndata : list float) (idx : list Z) :
  forall data : list (list byte),
  (out <- write_loop audio ndata idx data ;; Some (concat out)) =
  (r <- Audio.serialize audio
          (concat (map (fun i => Audio.denormalize audio (slice ndata i (i + 8192)) 32767)
                       idx)) ;;
   Some (concat data ++ r)).
Proof.
  induction idx as [|i idx IH]; intros data.
  - simpl. unfold Audio.serialize. simpl. now rewrite app_nil_r.
  - cbn [write_loop map concat].
    unfold Audio.serialize at 2. rewrite serialize_loop_app.
    fold (Audio.serialize audio
            (Audio.denormalize audio (slice ndata i (i + 8192)) 32767)).
    destruct (Audio.serialize audio
                (Audio.denormalize audio (slice ndata i (i + 8192)) 32767))
      as [buf|]; [|reflexivity].
    cbn [bind]. rewrite IH. rewrite serialize_loop_acc.
    unfold Audio.serialize.
    destruct (Audio.serialize_loop _ _ []) as [sb|]; [|reflexivity].
    cbn [bind]. rewrite concat_app. simpl. now rewrite app_nil_r, app_assoc.
Qed.

Lemma write_loop_blocks_length (audio : Audio.t) (ndata : list float) (idx : list Z) :
  forall data out : list (list byte),
  write_loop audio ndata idx data = Some out ->
  exists bufs, out = data ++ bufs /\ length bufs = length idx /\
    Forall (fun buf => len buf <= width (Audio.__low_res audio) * 8192) bufs.
Proof.
  induction idx as [|i idx IH]; intros data out H.
  - injection H as <-. exists []. rewrite app_nil_r. auto.
  - cbn [write_loop] in H.
    destruct (Audio.serialize audio
                (Audio.denormalize audio (slice ndata i (i + 8192)) 32767))
      as [buf|] eqn:E; [|discriminate].
    cbn [bind] in H. destruct (IH _ _ H) as [bufs [-> [Hl Hf]]].
    exists (buf :: bufs). split; [now rewrite <- app_assoc|].
    split; [simpl; now rewrite Hl|].
    constructor; [|exact Hf].
    unfold Audio.serialize in E.
    assert (Hs : exists en c, Audio.serialize_loop (en, [c])
               (Audio.denormalize audio (slice ndata i (i + 8192)) 32767) [] = Some buf
               /\ Z.of_nat (Struct.size c) = width (Audio.__low_res audio)).
    { destruct (Audio.__low_res audio); eauto. }
    destruct Hs as [en [c [Hs Hw]]].
    pose proof (serialize_loop_some _ _ _ _ _ Hs) as Hr.
    rewrite (serialize_loop_ok _ _ _ [] Hr) in Hs. injection Hs as <-.
    unfold len. rewrite flat_map_encoding_length.
    rewrite denormalize_eq, length_map. unfold slice.
    rewrite length_firstn. rewrite <- Hw.
    assert (Struct.size c <= 4)%nat by (destruct c; simpl; lia).
    nia.
Qed.

(** X7.  The output loop of the converter.  Denormalising and encoding the
    signal in blocks of 8192 samples gives, block after block, the bytes of
    the whole denormalised signal, and raises exactly when encoding the whole
    would; there are [ceil(len / 8192)] blocks of at most 16384 bytes. *)
Theorem write_loop_whole (ndata : list float) :
  (out <- write_loop (Audio.__init__ true) ndata
            (range_step 0 (len ndata) 8192) [] ;;
   Some (concat out))
  = Audio.serialize (Audio.__init__ true)
      (Audio.denormalize (Audio.__init__ true) ndata 32767) /\
  forall out : list (list byte),
    write_loop (Audio.__init__ true) ndata (range_step 0 (len ndata) 8192) []
      = Some out ->
    len out = (len ndata + 8191) / 8192 /\
    Forall (fun buf => len buf <= 16384) out.
Proof.
  split.
  - rewrite write_loop_concat.
    rewrite <- (map_map (fun i => slice ndata i (i + 8192))
                        (fun b => Audio.denormalize (Audio.__init__ true) b 32767)).
    rewrite denormalize_concat, concat_blocks.
    destruct (Audio.serialize _ _); reflexivity.
  - intros out H.
    destruct (write_loop_blocks_length _ _ _ _ _ H) as [bufs [-> [Hl Hf]]].
    split; [|exact Hf].
    unfold len. simpl. rewrite Hl. unfold range_step.
    rewrite length_map, length_seq.
    replace (len ndata - 0 + 8192 - 1) with (len ndata + 8191) by lia.
    apply Z2Nat.id. apply Z.div_pos; unfold len; lia.
Qed.

Lemma write_loop_whole_witness :
  write_loop (Audio.__init__ true) [F64.one; F64.zero]
    (range_step 0 (len [F64.one; F64.zero]) 8192) []
    = Some [[Byte.xff; Byte.x7f; Byte.x00; Byte.x00]] /\
  len [[Byte.xff; Byte.x7f; Byte.x00; Byte.x00]]
    = (len [F64.one; F64.zero] + 8191) / 8192 /\
  Forall (fun buf => len buf <= 16384) [[Byte.xff; Byte.x7f; Byte.x00; Byte.x00]].
Proof.
  split; [reflexivity|].
  apply (proj2 (write_loop_whole [F64.one; F64.zero])). reflexivity.
Defined.

(** *** Normalised samples are finite *)

Lemma binary_round_aux_opp (s : bool) (m e : Z) (l : location) :
  SFopp (binary_round_aux F64.prec F64.emax s m e l)
  = binary_round_aux F64.prec F64.emax (negb s) m e l.
Proof.
  unfold binary_round_aux.
  destruct (shr_fexp F64.prec F64.emax m e l) as [mrs' e'].
  destruct (shr_fexp F64.prec F64.emax _ e' loc_Exact) as [mrs'' e''].
  destruct (shr_m mrs''); [reflexivity | | reflexivity].
  destruct (e'' <=? F64.emax - F64.prec); reflexivity.
Qed.

Lemma of_Z_neg (p : positive) :
  F64.of_Z (Zneg p) = F64.neg (F64.of_Z (Zpos p)).
Proof.
  unfold F64.of_Z, F64.neg, binary_normalize, binary_round.
  destruct (shl_align p 0 _) as [mz ez].
  symmetry. apply binary_round_aux_opp.
Qed.


Lemma fac_16 :
  F64.div F64.one (F64.of_Z 32767) = S754_finite false 4503737070518400 (-67).
Proof. vm_compute. reflexivity. Qed.



Lemma sub_self (x : float) : F64.is_finite x = true -> F64.sub x x = F64.zero.
Proof.
  destruct x as [[|]| | |s m e]; try discriminate; try reflexivity.
  intros _. unfold F64.sub, SFsub. rewrite Z.sub_diag. reflexivity.
Qed.

(** *** The whole conversion *)










Lemma write_loop_nan (r : list float) :
  r <> [] -> Forall (fun x => x = F64.nan) r ->
  write_loop (Audio.__init__ true) r (range_step 0 (len r) 8192) [] = None.
Proof.
  intros Hne Hn.
  pose proof (write_loop_concat (Audio.__init__ true) r
                (range_step 0 (len r) 8192) []) as E.
  rewrite <- (map_map (fun i => slice r i (i + 8192))
                      (fun b => Audio.denormalize (Audio.__init__ true) b 32767)) in E.
  rewrite denormalize_concat, concat_blocks in E.
  destruct r as [|x r]; [congruence|].
  inversion Hn as [|? ? Hx _]; subst.
  assert (N : Audio.serialize (Audio.__init__ true)
                (Audio.denormalize (Audio.__init__ true) (F64.nan :: r) 32767) = None)
    by reflexivity.
  rewrite N in E. cbn [bind] in E.
  destruct (write_loop _ _ _ _); [discriminate | reflexivity].
Qed.



(* ===================================================================== *)
(** ** The signal generator: generator states, blocks, saturation         *)
(* ===================================================================== *)

Lemma lcg_step_zero (s : Z) :
  0 <= s < lcg_c -> (7 ^ 5 * s + 0) mod lcg_c = 0 -> s = 0.
Proof.
  intros Hs H. rewrite Z.add_0_r in H.
  apply Z.mod_divide in H; [|discriminate].
  apply Z.gauss in H; [|reflexivity].
  destruct H as [q Hq].
  assert (Hc : lcg_c = 2147483647) by reflexivity.
  rewrite Hc in *. nia.
Qed.

Lemma lcg_state_nonzero (seed : Z) (i : nat) :
  lcg_state seed 0 <> 0 -> lcg_state seed i <> 0.
Proof.
  intros H0. induction i as [|i IH]; [exact H0|].
  intros E. apply IH. simpl in E.
  apply lcg_step_zero; [apply lcg_state_range | exact E].
Qed.

Lemma lcg_state_stuck (seed : Z) (i : nat) :
  lcg_state seed 0 = 0 -> lcg_state seed i = 0.
Proof.
  intros H0. induction i as [|i IH]; [exact H0|].
  simpl. rewrite IH. reflexivity.
Qed.

(** X10.  The generator is purely multiplicative ([b = 0]) and its
    multiplier is coprime to the modulus, so the value zero is never reached
    and never left: when the initial state [(64979 * seed + 83) mod c] is not
    zero every value drawn lies strictly between 0 and [c]; when it is zero,
    every value drawn is zero. *)
Theorem lcg_zero_state (seed : Z) (n : nat) :
  let draws := fst (LCG.islice (LCG.__init__ seed) n) in
  ((64979 * seed + 83) mod (2 ^ 31 - 1) <> 0 ->
     Forall (fun v => 0 < v < LCG.get_c (LCG.__init__ seed)) draws) /\
  ((64979 * seed + 83) mod (2 ^ 31 - 1) = 0 ->
     Forall (fun v => v = 0) draws).
Proof.
  cbv zeta. rewrite init_lcg_at, islice_lcg_at. cbn [fst].
  change (LCG.get_c (lcg_at seed 0)) with lcg_c.
  split; intros H; apply Forall_map, Forall_forall; intros i _.
  - pose proof (lcg_state_range seed (0 + S i)).
    pose proof (lcg_state_nonzero seed (0 + S i) H). lia.
  - now apply lcg_state_stuck.
Qed.

Lemma lcg_zero_state_witness :
  Forall (fun v => 0 < v < LCG.get_c (LCG.__init__ 1337))
         (fst (LCG.islice (LCG.__init__ 1337) 4)) /\
  Forall (fun v => v = 0) (fst (LCG.islice (LCG.__init__ 1434685246) 4)).
Proof.
  split.
  - apply (proj1 (lcg_zero_state 1337 4)). vm_compute. discriminate.
  - apply (proj2 (lcg_zero_state 1434685246 4)). vm_compute. reflexivity.
Defined.

Lemma emit_length (ldata : list float) : len (emit ldata) = 4 * len ldata.
Proof.
  unfold emit, len. rewrite flat_map_encoding_length, denormalize_eq, length_map.
  change (Struct.size Struct.i) with 4%nat. lia.
Qed.

Lemma concat_repeat_length {A : Type} (l : list A) (n : nat) :
  length (concat (repeat l n)) = (n * length l)%nat.
Proof.
  induction n as [|n IH]; simpl; [reflexivity|].
  now rewrite length_app, IH.
Qed.

Lemma Forall_concat_repeat {A : Type} (P : A -> Prop) (l : list A) (n : nat) :
  Forall P l -> Forall P (concat (repeat l n)).
Proof.
  intros H. induction n as [|n IH]; simpl; [constructor|].
  apply Forall_app. now split.
Qed.

(** X11.  Every block the replay loop hands to the playback device has
    exactly [num * 4 = 7680] bytes, the period size the device was set up
    with, and each round through the waveform writes 500 blocks. *)
Theorem replay_blocks (cycles fuel : nat) :
  (500 < fuel)%nat ->
  exists out : pcm,
    replay cycles fuel (Audio.__init__ false) num ndata [] = Finished out /\
    length out = (cycles * 500)%nat /\
    Forall (fun block => len block = periodsize) out /\
    periodsize = 7680.
Proof.
  intros Hfuel.
  assert (Hlen : len ndata = Z.of_nat 500 * num)
    by (rewrite ndata_len; reflexivity).
  assert (Hnum : 0 < num) by reflexivity.
  destruct (chunk_list_spec num Hnum 500 ndata Hlen) as [H1 [H2 _]].
  exists (concat (repeat (map emit (chunk_list 500 num ndata)) cycles)).
  split.
  { exact (replay_spec num Hnum cycles 500 fuel ndata [] Hfuel Hlen ndata_playable). }
  split.
  { now rewrite concat_repeat_length, length_map, H1. }
  split; [|reflexivity].
  apply Forall_concat_repeat. apply Forall_map.
  eapply Forall_impl; [|exact H2].
  intros ldata Hl. cbv beta in Hl. rewrite emit_length, Hl.
  unfold periodsize. lia.
Qed.

Lemma replay_blocks_witness :
  exists out : pcm,
    replay 2 501 (Audio.__init__ false) num ndata [] = Finished out /\
    length out = (2 * 500)%nat /\
    Forall (fun block => len block = periodsize) out /\
    periodsize = 7680.
Proof. apply (replay_blocks 2 501). lia. Defined.

(** *** Saturation of [denormalize] *)

Lemma to_int64_of_Z (fs : Z) : 0 < fs < 2 ^ 53 -> F64.to_int64 (F64.of_Z fs) = fs.
Proof.
  intros H. destruct (of_Z_pos_digits fs H) as [m [E [Hm [_ Hd]]]].
  rewrite E. unfold F64.to_int64, F64.trunc. cbn [cond_Zopp].
  assert (Hv : (if 0 <=? Zdigits2 fs - 53
                then Zpos m * 2 ^ (Zdigits2 fs - 53)
                else Zpos m / 2 ^ (- (Zdigits2 fs - 53))) = fs).
  { destruct (Z.leb_spec 0 (Zdigits2 fs - 53)).
    - replace (Zdigits2 fs - 53) with 0 by lia.
      rewrite Hm. replace (53 - Zdigits2 fs) with 0 by lia.
      change (2 ^ 0) with 1. lia.
    - rewrite Hm. replace (- (Zdigits2 fs - 53)) with (53 - Zdigits2 fs) by lia.
      apply Z.div_mul. apply Z.pow_nonzero; lia. }
  rewrite Hv.
  assert (Hr : (F64.int64_min <=? fs) && (fs <=? F64.int64_max) = true).
  { apply andb_true_intro. unfold F64.int64_min, F64.int64_max.
    assert (2 ^ 53 < 2 ^ 63) by reflexivity.
    split; apply Z.leb_le; lia. }
  now rewrite Hr.
Qed.

Lemma to_int64_neg_of_Z (fs : Z) :
  0 < fs < 2 ^ 53 -> F64.to_int64 (F64.neg (F64.of_Z fs)) = - fs.
Proof.
  intros H. destruct (of_Z_pos_digits fs H) as [m [E [Hm [_ Hd]]]].
  rewrite E. unfold F64.to_int64, F64.trunc, F64.neg, SFopp. cbn [cond_Zopp negb].
  assert (Hv : (if 0 <=? Zdigits2 fs - 53
                then Zpos m * 2 ^ (Zdigits2 fs - 53)
                else Zpos m / 2 ^ (- (Zdigits2 fs - 53))) = fs).
  { destruct (Z.leb_spec 0 (Zdigits2 fs - 53)).
    - replace (Zdigits2 fs - 53) with 0 by lia.
      rewrite Hm. replace (53 - Zdigits2 fs) with 0 by lia.
      change (2 ^ 0) with 1. lia.
    - rewrite Hm. replace (- (Zdigits2 fs - 53)) with (53 - Zdigits2 fs) by lia.
      apply Z.div_mul. apply Z.pow_nonzero; lia. }
  rewrite Hv.
  assert (Hr : (F64.int64_min <=? - fs) && (- fs <=? F64.int64_max) = true).
  { apply andb_true_intro. unfold F64.int64_min, F64.int64_max.
    assert (2 ^ 53 < 2 ^ 63) by reflexivity.
    split; apply Z.leb_le; lia. }
  now rewrite Hr.
Qed.

Lemma mul_neg_one (x : float) :
  F64.valid x = true -> F64.is_finite x = true -> x <> S754_zero false ->
  x <> S754_zero true ->
  F64.mul x (F64.of_Z (-1)) = F64.neg x.
Proof.
  intros Hv Hf Hz1 Hz2. destruct x as [[|]| | |s m e]; try discriminate; try congruence.
  pose proof (mul_one_r (S754_finite s m e) Hv) as H1.
  rewrite one_eq in H1. rewrite minus_one_eq.
  unfold F64.mul, SFmul in *.
  replace (xorb s true) with (negb (xorb s false)) by (destruct s; reflexivity).
  rewrite <- binary_round_aux_opp, H1. reflexivity.
Qed.

Lemma compare_Eq_finite (s : bool) (m : positive) (e : Z) (y : float) :
  SFcompare (S754_finite s m e) y = Some Eq -> y = S754_finite s m e.
Proof.
  destruct y as [s'|s'| |s' m' e']; cbv [SFcompare];
    try discriminate; try (destruct s; discriminate);
    try (destruct s'; discriminate).
  destruct s, s'; try discriminate;
    destruct (Z.compare_spec e e') as [-> | |]; try discriminate;
    intros [= H].
  - apply (f_equal CompOpp) in H. rewrite CompOpp_involutive in H. simpl in H.
    apply Pos.compare_eq in H. now subst.
  - apply Pos.compare_eq in H. now subst.
Qed.

Lemma clip1_above (x : float) :
  F64.leb F64.one x = true -> Np.clip1 (F64.of_Z (-1)) F64.one x = F64.one.
Proof.
  intros H. rewrite one_eq in H. unfold F64.leb, SFleb in H.
  destruct (SFcompare (S754_finite false (2 ^ 52) (-52)) x) as [[| |]|] eqn:C;
    try discriminate.
  - apply compare_Eq_finite in C. subst x. vm_compute. reflexivity.
  - assert (A : F64.ltb x (F64.of_Z (-1)) = false).
    { rewrite minus_one_eq. unfold F64.ltb, SFltb.
      destruct x as [s|[|]| |[|] m e]; cbv [SFcompare] in C |- *;
        try discriminate C; reflexivity. }
    assert (B : F64.gtb x F64.one = true).
    { rewrite one_eq. unfold F64.gtb, SFltb. now rewrite C. }
    unfold Np.clip1. now rewrite A, B.
Qed.

Lemma clip1_below (x : float) :
  F64.leb x (F64.of_Z (-1)) = true ->
  Np.clip1 (F64.of_Z (-1)) F64.one x = F64.of_Z (-1).
Proof.
  intros H. rewrite minus_one_eq in H. unfold F64.leb, SFleb in H.
  destruct (SFcompare x (S754_finite true (2 ^ 52) (-52))) as [[| |]|] eqn:C;
    try discriminate.
  - assert (C' : SFcompare (S754_finite true (2 ^ 52) (-52)) x = Some Eq)
      by (rewrite SFcompare_swap, C; reflexivity).
    apply compare_Eq_finite in C'. subst x. vm_compute. reflexivity.
  - unfold Np.clip1, F64.ltb, SFltb. rewrite minus_one_eq, C. reflexivity.
Qed.

(** X12.  [denormalize] saturates symmetrically: every sample that is at
    least [1.0], including [+inf], becomes exactly [+max_val], and every
    sample that is at most [-1.0], including [-inf], becomes exactly
    [-max_val]; the most negative integer of the sample width, which is
    [-max_val - 1], is never produced from them. *)
Theorem denormalize_saturates (audio : Audio.t) (x : float) (fs : Z) :
  0 < fs < 2 ^ 53 ->
  (F64.leb F64.one x = true -> Audio.denormalize audio [x] fs = [fs]) /\
  (F64.leb x (F64.of_Z (-1)) = true -> Audio.denormalize audio [x] fs = [- fs]).
Proof.
  intros Hfs. rewrite denormalize_eq. cbn [map].
  destruct (of_Z_pos_digits fs Hfs) as [m [E _]].
  split; intros Hx.
  - rewrite (clip1_above x Hx), mul_one_r by apply of_Z_valid.
    now rewrite to_int64_of_Z.
  - rewrite (clip1_below x Hx), mul_neg_one.
    + now rewrite to_int64_neg_of_Z.
    + apply of_Z_valid.
    + now rewrite E.
    + rewrite E. discriminate.
    + rewrite E. discriminate.
Qed.

Lemma denormalize_saturates_witness :
  Audio.denormalize (Audio.__init__ false) [S754_infinity false] 2147483647
    = [2147483647] /\
  Audio.denormalize (Audio.__init__ false) [F64.of_Z (-3)] 2147483647
    = [- 2147483647].
Proof.
  split.
  - apply (proj1 (denormalize_saturates (Audio.__init__ false)
                    (S754_infinity false) 2147483647 ltac:(split; reflexivity))).
    reflexivity.
  - apply (proj2 (denormalize_saturates (Audio.__init__ false)
                    (F64.of_Z (-3)) 2147483647 ltac:(split; reflexivity))).
    reflexivity.
Defined.

(* ===================================================================== *)
(** ** Band limiting: computed frequencies                                *)
(* ===================================================================== *)

(** X13.  The frequency of a bin is the rounded product
    [k * (1.0 / (n * (1.0 / samplerate)))], not the quotient
    [k * samplerate / n].  With 132 bins at 48000 Hz the bin at index 55 is
    nominally at [55 * 48000 / 132 = 20000] Hz, but the computed frequency is
    the next binary64 value above [20000.0], so the band-limiting loop clears
    this bin, whatever it holds. *)
Theorem nominal_band_edge_cleared (bins : list complex) :
  let freqs := Np.fftfreq 132 (F64.div F64.one (F64.of_Z 48000)) in
  length bins = 132%nat ->
  55 * 48000 = 20000 * 132 /\
  F64.of_Z 20000 = S754_finite false 5497558138880000 (-38) /\
  nth_error freqs 55 = Some (S754_finite false 5497558138880001 (-38)) /\
  exists out,
    clear_inaudible freqs bins = Some out /\
    nth_error out 55 = Some (complex_of_float F64.zero).
Proof.
  intros freqs Hlen.
  assert (Hf : nth_error freqs 55 = Some (S754_finite false 5497558138880001 (-38)))
    by (vm_compute; reflexivity).
  split; [reflexivity|]. split; [vm_compute; reflexivity|]. split; [exact Hf|].
  assert (Hl : length freqs = length bins) by (rewrite Hlen; reflexivity).
  destruct (clear_inaudible_spec freqs bins Hl) as [out [Hout [_ Hnth]]].
  exists out. split; [exact Hout|].
  destruct (nth_error bins 55) as [x|] eqn:Hx;
    [|apply nth_error_None in Hx; lia].
  destruct (Hnth 55%nat _ x Hf Hx) as [E _]. rewrite E. reflexivity.
Qed.

Lemma nominal_band_edge_cleared_witness :
  let bins := repeat {| re := F64.one; im := F64.one |} 132 in
  55 * 48000 = 20000 * 132 /\
  F64.of_Z 20000 = S754_finite false 5497558138880000 (-38) /\
  nth_error (Np.fftfreq 132 (F64.div F64.one (F64.of_Z 48000))) 55
    = Some (S754_finite false 5497558138880001 (-38)) /\
  exists out,
    clear_inaudible (Np.fftfreq 132 (F64.div F64.one (F64.of_Z 48000))) bins
      = Some out /\
    nth_error out 55 = Some (complex_of_float F64.zero).
Proof.
  apply (nominal_band_edge_cleared (repeat {| re := F64.one; im := F64.one |} 132)).
  reflexivity.
Defined.

(* ===================================================================== *)
(** ** When the conversion succeeds                                       *)
(* ===================================================================== *)

(** *** Rounding in the normal range *)

(** A mantissa of at least 53 bits whose rounded value is in the normal
    range and does not overflow: the result is finite with a 53-bit
    mantissa, and differs from the exact value by less than one unit of the
    last place kept. *)
Lemma binary_round_aux_normal (s : bool) (m e : Z) (l : location) :
  0 < m -> 53 <= Zdigits2 m ->
  -1074 <= Zdigits2 m + e - 53 -> Zdigits2 m + e - 52 <= 971 ->
  exists m'' e'',
    binary_round_aux F64.prec F64.emax s m e l = S754_finite s m'' e'' /\
    Zpos (digits2_pos m'') = 53 /\
    Zdigits2 m + e - 53 <= e'' <= Zdigits2 m + e - 52 /\
    m - 2 ^ (Zdigits2 m - 53) < Zpos m'' * 2 ^ (e'' - e)
      <= m + 2 ^ (Zdigits2 m - 53).
Proof.
  intros Hm Hd53 Hlo Hhi. unfold binary_round_aux.
  set (d := Zdigits2 m) in *.
  assert (Hmd : 2 ^ (d - 1) <= m < 2 ^ d) by (apply Zdigits2_bounds; exact Hm).
  set (e' := d + e - 53).
  assert (E1 : shr_fexp F64.prec F64.emax m e l
               = shr (shr_record_of_loc m l) e (e' - e)).
  { unfold shr_fexp. rewrite fexp64. fold d.
    replace (Z.max (d + e - 53) (-1074)) with e' by (unfold e'; lia).
    reflexivity. }
  pose proof (shr_spec (shr_record_of_loc m l) e (e' - e)) as H.
  rewrite shr_record_of_loc_m, shr_record_of_loc_upper in H.
  specialize (H ltac:(lia)). cbv zeta in H.
  replace (Z.max (e' - e) 0) with (e' - e) in H by (unfold e'; lia).
  rewrite E1.
  destruct (shr (shr_record_of_loc m l) e (e' - e)) as [mrs e1].
  cbn [fst snd] in H. destruct H as [He1 [H0 [Hfl Hup]]].
  replace (e + (e' - e)) with e' in He1 by lia. subst e1.
  replace (e' - e) with (d - 53) in * by (unfold e'; lia).
  assert (Hk : 0 < 2 ^ (d - 53)) by (apply Z.pow_pos_nonneg; lia).
  assert (Hlu : m <= loc_upper m l <= m + 1)
    by (unfold loc_upper; destruct l; lia).
  pose proof (round_nearest_even_bounds mrs) as Hr.
  set (r := round_nearest_even (shr_m mrs) (loc_of_shr_record mrs)) in *.
  assert (Hsplit : 2 ^ d = 2 ^ 53 * 2 ^ (d - 53)).
  { rewrite <- Z.pow_add_r by lia. f_equal. lia. }
  assert (Hsplit' : 2 ^ (d - 1) = 2 ^ 52 * 2 ^ (d - 53)).
  { rewrite <- Z.pow_add_r by lia. f_equal. lia. }
  assert (Hm52 : 2 ^ 52 <= shr_m mrs) by nia.
  assert (Hu53 : upper mrs <= 2 ^ 53) by nia.
  assert (Herr : m - 2 ^ (d - 53) < r * 2 ^ (d - 53) <= m + 2 ^ (d - 53)) by nia.
  destruct (Z_lt_le_dec r (2 ^ 53)) as [Hlt | Hge].
  - assert (Hdr : Zdigits2 r = 53) by (apply Zdigits2_unique; lia).
    rewrite shr_fexp_fixed by (rewrite ?Hdr; unfold e'; lia).
    cbn [shr_m]. destruct r as [|p|p] eqn:Er; try lia.
    exists p, e'.
    replace (e' <=? F64.emax - F64.prec) with true
      by (symmetry; apply Z.leb_le; change (F64.emax - F64.prec) with 971;
          unfold e'; lia).
    split; [reflexivity|]. split; [exact Hdr|].
    split; [unfold e'; lia|].
    replace (e' - e) with (d - 53) by (unfold e'; lia). exact Herr.
  - assert (Hr53 : r = 2 ^ 53) by lia. rewrite Hr53.
    unfold shr_fexp. rewrite fexp64.
    change (Zdigits2 (2 ^ 53)) with 54.
    replace (Z.max (54 + e' - 53) (-1074) - e') with 1 by (unfold e'; lia).
    cbn [shr shr_record_of_loc SpecFloat.iter_pos shr_1 shr_m].
    change (2 ^ 53) with (Zpos (xO (2 ^ 52))). cbn [shr_1 shr_m orb].
    exists (2 ^ 52)%positive, (e' + 1).
    replace (e' + 1 <=? F64.emax - F64.prec) with true
      by (symmetry; apply Z.leb_le; change (F64.emax - F64.prec) with 971;
          unfold e'; lia).
    split; [reflexivity|]. split; [reflexivity|].
    split; [unfold e'; lia|].
    replace (e' + 1 - e) with (1 + (d - 53)) by (unfold e'; lia).
    rewrite Z.pow_add_r by lia.
    change (Zpos (2 ^ 52) * (2 ^ 1 * 2 ^ (d - 53)))
      with (Zpos (2 ^ 52) * (2 * 2 ^ (d - 53))).
    rewrite Hr53 in Herr. change (2 ^ 53) with (Zpos (2 ^ 52) * 2) in Herr.
    lia.
Qed.

Lemma binary_round_aux_not_nan (s : bool) (m e : Z) (l : location) :
  0 <= m -> F64.is_nan (binary_round_aux F64.prec F64.emax s m e l) = false.
Proof.
  intros Hm. unfold binary_round_aux.
  assert (E1 : shr_fexp F64.prec F64.emax m e l
               = shr (shr_record_of_loc m l) e
                     (fexp F64.prec F64.emax (Zdigits2 m + e) - e)) by reflexivity.
  pose proof (shr_spec (shr_record_of_loc m l) e
                (fexp F64.prec F64.emax (Zdigits2 m + e) - e)) as H.
  rewrite shr_record_of_loc_m in H. specialize (H Hm). cbv zeta in H.
  rewrite E1.
  destruct (shr (shr_record_of_loc m l) e _) as [mrs e1].
  cbn [fst snd] in H. destruct H as [_ [H0 _]].
  pose proof (round_nearest_even_bounds mrs) as Hr.
  set (r := round_nearest_even (shr_m mrs) (loc_of_shr_record mrs)) in *.
  assert (E2 : shr_fexp F64.prec F64.emax r e1 loc_Exact
               = shr (shr_record_of_loc r loc_Exact) e1
                     (fexp F64.prec F64.emax (Zdigits2 r + e1) - e1)) by reflexivity.
  pose proof (shr_spec (shr_record_of_loc r loc_Exact) e1
                (fexp F64.prec F64.emax (Zdigits2 r + e1) - e1)) as H2.
  rewrite shr_record_of_loc_m in H2. specialize (H2 ltac:(lia)). cbv zeta in H2.
  rewrite E2.
  destruct (shr (shr_record_of_loc r loc_Exact) e1 _) as [mrs2 e2].
  cbn [fst snd] in H2. destruct H2 as [_ [H0' _]].
  destruct (shr_m mrs2) as [|p|p]; [reflexivity | | lia].
  destruct (e2 <=? F64.emax - F64.prec); reflexivity.
Qed.

(** *** Normalised samples *)

Lemma normalize_map (audio : Audio.t) (data : list Z) :
  Audio.normalize audio data 32767 = map normalize1 data.
Proof. reflexivity. Qed.

Lemma of_Z_sample53 (v : Z) :
  v <> 0 -> - 2 ^ 15 <= v <= 2 ^ 15 ->
  exists s m d,
    F64.of_Z v = S754_finite s m (d - 53) /\
    Zpos m = Z.abs v * 2 ^ (53 - d) /\ 1 <= d <= 16 /\
    2 ^ 52 <= Zpos m < 2 ^ 53 /\
    (s = true <-> v < 0).
Proof.
  intros Hv Hr.
  assert (Hd : forall z, 0 < z <= 2 ^ 15 -> Zdigits2 z <= 16).
  { intros z Hz. apply Zdigits2_le; [lia|]. change (2 ^ 16) with (2 * 2 ^ 15). lia. }
  assert (Hb : forall m : positive, Zpos (digits2_pos m) = 53 ->
                 2 ^ 52 <= Zpos m < 2 ^ 53).
  { intros m Hm. pose proof (digits2_pos_bounds m) as H. rewrite Hm in H. exact H. }
  destruct v as [|p|p]; [congruence | |].
  - destruct (of_Z_pos_digits (Zpos p)) as [m [E [Hm [Hdm Hdd]]]].
    { change (2 ^ 53) with (2 ^ 38 * 2 ^ 15). lia. }
    exists false, m, (Zdigits2 (Zpos p)).
    split; [exact E|]. split; [exact Hm|].
    split; [split; [lia | apply Hd; lia]|].
    split; [now apply Hb|]. split; [discriminate | lia].
  - destruct (of_Z_pos_digits (Zpos p)) as [m [E [Hm [Hdm Hdd]]]].
    { change (2 ^ 53) with (2 ^ 38 * 2 ^ 15). lia. }
    exists true, m, (Zdigits2 (Zpos p)).
    split; [rewrite of_Z_neg, E; reflexivity|].
    split; [exact Hm|].
    split; [split; [lia | apply Hd; lia]|].
    split; [now apply Hb|]. split; [lia | reflexivity].
Qed.

(** A normalised nonzero sample: sign, shape, and its distance from the
    exact product [F * |v| * 2^-67], in units of [2^-120]. *)
Lemma normalize1_form (v : Z) :
  v <> 0 -> - 2 ^ 15 <= v <= 2 ^ 15 ->
  exists s m e,
    normalize1 v = S754_finite s m e /\
    (s = true <-> v < 0) /\
    Zpos (digits2_pos m) = 53 /\ -67 <= e <= -50 /\
    Z.abs (Zpos m * 2 ^ (e + 120) - 4503737070518400 * Z.abs v * 2 ^ 53) <= 2 ^ 69.
Proof.
  intros Hv Hr. unfold normalize1. rewrite fac_16.
  destruct (of_Z_sample53 v Hv Hr) as [s [mv [d [E [Hmv [Hd [Hb Hs]]]]]]].
  rewrite E. unfold F64.mul, SFmul. cbn [xorb].
  set (m := Zpos (4503737070518400 * mv)).
  assert (Em : m = 4503737070518400 * Zpos mv) by reflexivity.
  assert (Hm104 : 2 ^ 104 <= m < 2 ^ 106).
  { rewrite Em. change (2 ^ 104) with (2 ^ 52 * 2 ^ 52).
    change (2 ^ 106) with (2 ^ 53 * 2 ^ 53).
    assert (2 ^ 52 <= 4503737070518400 < 2 ^ 53) by (split; [discriminate | reflexivity]).
    nia. }
  assert (HD : 105 <= Zdigits2 m <= 106).
  { split; [apply (Zdigits2_ge m 104); lia | apply Zdigits2_le; lia]. }
  destruct (binary_round_aux_normal s m (-67 + (d - 53)) loc_Exact)
    as [m'' [e'' [Er [Hd'' [He'' Herr]]]]]; try lia.
  exists s, m'', e''. split; [exact Er|]. split; [exact Hs|].
  split; [exact Hd''|]. split; [lia|].
  (* the error, scaled to units of 2^-120 *)
  assert (Hsc : Zpos m'' * 2 ^ (e'' + 120)
                = Zpos m'' * 2 ^ (e'' - (-67 + (d - 53))) * 2 ^ d).
  { rewrite <- Z.mul_assoc, <- Z.pow_add_r by lia. do 2 f_equal. lia. }
  assert (Hex : 4503737070518400 * Z.abs v * 2 ^ 53 = m * 2 ^ d).
  { rewrite Em, Hmv.
    replace (2 ^ 53) with (2 ^ (53 - d) * 2 ^ d)
      by (rewrite <- Z.pow_add_r by lia; f_equal; lia).
    ring. }
  rewrite Hsc, Hex.
  assert (Hp : 0 < 2 ^ d) by (apply Z.pow_pos_nonneg; lia).
  assert (Hk : 2 ^ (Zdigits2 m - 53) * 2 ^ d <= 2 ^ 69).
  { rewrite <- Z.pow_add_r by lia. apply Z.pow_le_mono_r; lia. }
  set (R := Zpos m'' * 2 ^ (e'' - (-67 + (d - 53)))) in *.
  set (U := 2 ^ (Zdigits2 m - 53)) in *.
  apply Z.abs_le. nia.
Qed.

Lemma normalize1_zero : normalize1 0 = S754_zero false.
Proof. vm_compute. reflexivity. Qed.

Lemma normalize1_sample (v : Z) :
  - 2 ^ 15 <= v <= 2 ^ 15 -> sample_value (normalize1 v).
Proof.
  intros Hr. destruct (Z.eq_dec v 0) as [-> | Hv].
  - rewrite normalize1_zero. reflexivity.
  - destruct (normalize1_form v Hv Hr) as [s [m [e [E [_ [Hd [He _]]]]]]].
    rewrite E. split; assumption.
Qed.

Lemma normalize1_injective (v w : Z) :
  - 2 ^ 15 <= v <= 2 ^ 15 -> - 2 ^ 15 <= w <= 2 ^ 15 ->
  normalize1 v = normalize1 w -> v = w.
Proof.
  intros Hv Hw E.
  destruct (Z.eq_dec v 0) as [-> | Hv0]; destruct (Z.eq_dec w 0) as [-> | Hw0];
    try reflexivity.
  - destruct (normalize1_form w Hw0 Hw) as [s [m [e [Ew _]]]].
    rewrite normalize1_zero, Ew in E. discriminate.
  - destruct (normalize1_form v Hv0 Hv) as [s [m [e [Ev _]]]].
    rewrite normalize1_zero, Ev in E. discriminate.
  - destruct (normalize1_form v Hv0 Hv) as [s [m [e [Ev [Hs [_ [_ Herr]]]]]]].
    destruct (normalize1_form w Hw0 Hw) as [s' [m' [e' [Ew [Hs' [_ [_ Herr']]]]]]].
    rewrite Ev, Ew in E. injection E as <- <- <-.
    apply Z.abs_le in Herr. apply Z.abs_le in Herr'.
    assert (H70 : 2 ^ 69 = 590295810358705651712) by reflexivity.
    assert (H53 : 2 ^ 53 = 9007199254740992) by reflexivity.
    rewrite H70, H53 in *.
    set (X := Zpos m * 2 ^ (e + 120)) in *.
    assert (Ha : Z.abs v = Z.abs w) by lia.
    destruct s; [assert (v < 0) by (now apply Hs); assert (w < 0) by (now apply Hs'); lia|].
    assert (~ v < 0) by (intros C; apply Hs in C; discriminate).
    assert (~ w < 0) by (intros C; apply Hs' in C; discriminate).
    lia.
Qed.

(** *** Differences of normalised samples *)

Lemma binary_round_normal (s : bool) (p : positive) (e : Z) :
  -1074 <= Zpos (digits2_pos p) + e - 53 ->
  Zpos (digits2_pos p) + e - 52 <= 971 ->
  exists m'' e'',
    binary_round F64.prec F64.emax s p e = S754_finite s m'' e'' /\
    Zpos (digits2_pos m'') = 53 /\
    Zpos (digits2_pos p) + e - 53 <= e'' <= Zpos (digits2_pos p) + e - 52.
Proof.
  intros Hlo Hhi. unfold binary_round. rewrite fexp64.
  set (D := Zpos (digits2_pos p) + e) in *.
  replace (Z.max (D - 53) (-1074)) with (D - 53) by lia.
  destruct (Z_le_gt_dec (D - 53) e) as [Hle | Hgt].
  - pose proof (shl_align_spec p e (D - 53) Hle) as [Hs Hm].
    destruct (shl_align p e (D - 53)) as [mz ez]. cbn [fst snd] in *. subst ez.
    assert (Hdz : Zdigits2 (Zpos mz) = 53).
    { rewrite Hm, Zdigits2_mul_pow2 by lia. unfold D. lia. }
    destruct (binary_round_aux_normal s (Zpos mz) (D - 53) loc_Exact)
      as [m'' [e'' [Er [Hd'' [He'' _]]]]]; try lia.
    exists m'', e''. split; [exact Er|]. split; [exact Hd''|]. lia.
  - assert (E : shl_align p e (D - 53) = (p, e)).
    { unfold shl_align. destruct (D - 53 - e) as [|q|q] eqn:Eq; try reflexivity. lia. }
    rewrite E.
    assert (Hdz : Zdigits2 (Zpos p) = Zpos (digits2_pos p)) by reflexivity.
    destruct (binary_round_aux_normal s (Zpos p) e loc_Exact)
      as [m'' [e'' [Er [Hd'' [He'' _]]]]]; try (unfold D in *; lia).
    exists m'', e''. split; [exact Er|]. split; [exact Hd''|].
    unfold D in *. lia.
Qed.

Lemma aligned_bounds (m : positive) (e ez : Z) :
  Zpos (digits2_pos m) = 53 -> -67 <= ez <= e -> e <= -50 ->
  0 < Zpos (fst (shl_align m e ez)) < 2 ^ 70 /\
  Zdigits2 (Zpos (fst (shl_align m e ez))) = 53 + (e - ez).
Proof.
  intros Hd Hz He.
  pose proof (shl_align_spec m e ez ltac:(lia)) as [_ Hm].
  rewrite Hm. rewrite Zdigits2_mul_pow2 by lia.
  pose proof (digits2_pos_bounds m) as Hb. rewrite Hd in Hb.
  assert (0 < 2 ^ (e - ez) <= 2 ^ 17).
  { split; [apply Z.pow_pos_nonneg; lia | apply Z.pow_le_mono_r; lia]. }
  change (2 ^ 70) with (2 ^ 53 * 2 ^ 17).
  split; [nia | lia].
Qed.

(** The difference of two normalised samples is a zero or a normal number
    far from overflow and underflow, and it is a zero only if the two
    samples are the same number. *)
Lemma sub_sample (x y : float) :
  sample_value x -> sample_value y ->
  difference_value (F64.sub x y) /\
  (F64.eqb (F64.sub x y) F64.zero = true -> x = y).
Proof.
  intros Hx Hy.
  destruct x as [sx| | |sx mx ex]; try contradiction;
    destruct y as [sy| | |sy my ey]; try contradiction.
  - simpl in Hx, Hy. subst. split; [exact I | reflexivity].
  - destruct Hy as [Hdy Hey]. split.
    + simpl. split; [exact Hdy | lia].
    + intros H. destruct sy; discriminate H.
  - destruct Hx as [Hdx Hex]. split.
    + simpl. split; [exact Hdx | lia].
    + intros H. destruct sx; discriminate H.
  - destruct Hx as [Hdx Hex]. destruct Hy as [Hdy Hey].
    unfold F64.sub, SFsub.
    set (ez := Z.min ex ey).
    destruct (aligned_bounds mx ex ez Hdx ltac:(unfold ez; lia) ltac:(lia))
      as [Hbx Hgx].
    destruct (aligned_bounds my ey ez Hdy ltac:(unfold ez; lia) ltac:(lia))
      as [Hby Hgy].
    set (ax := Zpos (fst (shl_align mx ex ez))) in *.
    set (ay := Zpos (fst (shl_align my ey ez))) in *.
    set (M := cond_Zopp sx ax - cond_Zopp sy ay).
    assert (HM : Z.abs M < 2 ^ 71).
    { change (2 ^ 71) with (2 ^ 70 + 2 ^ 70). unfold M.
      destruct sx, sy; cbn [cond_Zopp]; lia. }
    assert (Hround : forall (s : bool) (p : positive), Zpos p = Z.abs M ->
              difference_value (binary_round F64.prec F64.emax s p ez) /\
              (F64.eqb (binary_round F64.prec F64.emax s p ez) F64.zero = true ->
               S754_finite sx mx ex = S754_finite sy my ey)).
    { intros s p Hp.
      assert (Hdp : 1 <= Zpos (digits2_pos p) <= 71).
      { change (Zpos (digits2_pos p)) with (Zdigits2 (Zpos p)).
        split; [apply Zdigits2_pos; lia | apply Zdigits2_le; lia]. }
      destruct (binary_round_normal s p ez) as [m'' [e'' [Er [Hd'' He'']]]];
        try (unfold ez; lia).
      rewrite Er. split.
      - simpl. split; [exact Hd'' | unfold ez in *; lia].
      - intros H. destruct s; discriminate H. }
    destruct M as [|p|p] eqn:EM.
    + (* equal aligned mantissas *)
      split; [exact I|]. intros _.
      assert (Hs : sx = sy /\ ax = ay).
      { unfold M in EM. destruct sx, sy; cbn [cond_Zopp] in EM; split; try reflexivity; lia. }
      destruct Hs as [-> Ha].
      assert (He : ex = ey) by (rewrite Ha in Hgx; lia).
      subst ey.
      assert (Hm : Zpos mx = Zpos my).
      { pose proof (shl_align_spec mx ex ez ltac:(unfold ez; lia)) as [_ H1].
        pose proof (shl_align_spec my ex ez ltac:(unfold ez; lia)) as [_ H2].
        fold ax in H1. fold ay in H2. rewrite Ha, H2 in H1.
        assert (0 < 2 ^ (ex - ez)) by (apply Z.pow_pos_nonneg; unfold ez; lia).
        nia. }
      injection Hm as ->. reflexivity.
    + apply (Hround false p). simpl. reflexivity.
    + apply (Hround true p). simpl. reflexivity.
Qed.

(** *** The derivative, its peak and the rescaled signal *)

Lemma sample_value_nth (ir : list float) (k : nat) :
  Forall sample_value ir -> sample_value (nth k ir F64.zero).
Proof.
  intros H. destruct (Nat.lt_ge_cases k (length ir)) as [Hk | Hk].
  - rewrite Forall_forall in H. apply H. now apply nth_In.
  - rewrite nth_overflow by exact Hk. reflexivity.
Qed.

Lemma sub_same_sample (x : float) :
  sample_value x -> F64.eqb (F64.sub x x) F64.zero = true.
Proof.
  destruct x as [s| | |s m e]; try contradiction.
  - simpl. intros ->. reflexivity.
  - intros _. rewrite sub_self by reflexivity. reflexivity.
Qed.

Lemma derive_samples (ir der : list float) :
  Forall sample_value ir -> derive ir = Some der ->
  Forall difference_value der /\
  (Exists nonzero der <->
   exists k : nat, (k + 2 < length ir)%nat /\
                   nth k ir F64.zero <> nth (k + 2) ir F64.zero).
Proof.
  intros Hs. rewrite derive_eq. intros [= <-]. split.
  - constructor; [exact I|]. apply Forall_app. split; [|repeat constructor].
    apply Forall_map. apply Forall_forall. intros i _.
    apply sub_sample; now apply sample_value_nth.
  - split.
    + intros H. apply Exists_cons in H as [H | H]; [discriminate H|].
      apply Exists_app in H as [H | H].
      * apply Exists_exists in H as [d [Hin Hd]].
        apply in_map_iff in Hin as [i [<- Hi]]. apply range_In in Hi.
        unfold len in Hi. exists (Z.to_nat (i - 1)). split; [lia|].
        intros E. unfold nonzero, central_difference in Hd.
        replace (Z.to_nat (i + 1)) with (Z.to_nat (i - 1) + 2)%nat in Hd by lia.
        rewrite <- E in Hd.
        rewrite sub_same_sample in Hd by (now apply sample_value_nth).
        discriminate.
      * apply Exists_cons in H as [H | H]; [discriminate H | inversion H].
    + intros [k [Hk Hne]]. apply Exists_cons_tl. apply Exists_app. left.
      apply Exists_exists.
      exists (central_difference ir (Z.of_nat k + 1)). split.
      * apply in_map. apply range_In. unfold len. lia.
      * unfold nonzero, central_difference.
        replace (Z.to_nat (Z.of_nat k + 1 + 1)) with (k + 2)%nat by lia.
        replace (Z.to_nat (Z.of_nat k + 1 - 1)) with k by lia.
        destruct (F64.eqb (F64.sub (nth (k + 2) ir F64.zero) (nth k ir F64.zero))
                          F64.zero) eqn:E; [|reflexivity].
        exfalso. apply Hne. symmetry.
        apply (sub_sample _ _ (sample_value_nth ir (k + 2) Hs)
                 (sample_value_nth ir k Hs)). exact E.
Qed.

Lemma fold_maximum_In (rest : list float) : forall acc : float,
  In (fold_left Np.maximum rest acc) (acc :: rest).
Proof.
  induction rest as [|y rest IH]; intros acc; simpl; [now left|].
  destruct (IH (Np.maximum acc y)) as [H | H].
  - destruct (maximum_choice acc y) as [E | E];
      [left | right; left]; congruence.
  - auto.
Qed.

Lemma peak_In (ndata : list float) (p : float) :
  peak ndata = Some p -> In p (map Np.absolute ndata).
Proof.
  unfold peak, Np.max. destruct (map Np.absolute ndata) as [|x rest];
    [discriminate|].
  intros [= <-]. apply fold_maximum_In.
Qed.

Lemma difference_value_abs (x : float) :
  difference_value x -> difference_value (Np.absolute x).
Proof. destruct x; simpl; auto. Qed.

Lemma difference_value_finite (x : float) :
  difference_value x -> F64.is_finite x = true.
Proof. destruct x; simpl; auto; contradiction. Qed.

Lemma scale_finite (p : float) :
  difference_value p -> nonzero p ->
  F64.is_finite (F64.div F64.one p) = true.
Proof.
  intros Hp Hn. destruct p as [s| | |s m e]; try contradiction.
  - destruct s; discriminate Hn.
  - destruct Hp as [Hd He]. rewrite one_eq.
    pose proof (digits2_pos_bounds m) as Hb. rewrite Hd in Hb.
    pose proof (div_bound false s (2 ^ 52) m (-52) e 1 (-52 - e) 1) as H.
    cbv zeta in H. rewrite fexp64 in H.
    change (Zpos (digits2_pos (2 ^ 52))) with 53 in H. rewrite Hd in H.
    replace (Z.min (Z.max (53 + -52 - (53 + e) - 53) (-1074)) (-52 - e))
      with (-105 - e) in H by lia.
    replace (-52 - e - (-105 - e)) with 53 in H by lia.
    assert (Hq : Zpos (2 ^ 52) * 2 ^ 53 <= Zpos m * (1 * 2 ^ 53)).
    { change (Zpos (2 ^ 52)) with 4503599627370496.
      change (2 ^ 53) with 9007199254740992.
      change (2 ^ (53 - 1)) with 4503599627370496 in Hb. lia. }
    specialize (H ltac:(lia) ltac:(split; reflexivity) ltac:(lia) ltac:(lia) Hq).
    destruct H as [Hz | [m' [e' [Hf _]]]].
    + now rewrite Hz.
    + now rewrite Hf.
Qed.

Lemma mul_not_nan (x y : float) :
  F64.is_finite x = true -> F64.is_finite y = true ->
  F64.is_nan (F64.mul x y) = false.
Proof.
  destruct x as [sx| | |sx mx ex]; try discriminate;
    destruct y as [sy| | |sy my ey]; try discriminate; intros _ _;
    try reflexivity.
  unfold F64.mul, SFmul. apply binary_round_aux_not_nan. lia.
Qed.

Lemma rescale_not_nan (der : list float) :
  Forall difference_value der -> Exists nonzero der ->
  exists r, rescale der = Some r /\ Forall (fun x => F64.is_nan x = false) r.
Proof.
  intros Hd Hn. destruct (peak_nonzero der Hn) as [p [Hp Hnz]].
  rewrite rescale_peak, Hp. cbn [bind]. eexists. split; [reflexivity|].
  assert (Hdp : difference_value p).
  { apply peak_In in Hp. apply in_map_iff in Hp as [x [<- Hx]].
    apply difference_value_abs. rewrite Forall_forall in Hd. now apply Hd. }
  apply Forall_map. eapply Forall_impl; [|exact Hd].
  intros x Hx. apply mul_not_nan.
  - now apply difference_value_finite.
  - now apply scale_finite.
Qed.

Lemma write_loop_ok (r : list float) :
  Forall (fun x => F64.valid x = true /\ F64.is_nan x = false) r ->
  exists out,
    write_loop (Audio.__init__ true) r (range_step 0 (len r) 8192) [] = Some out.
Proof.
  intros Hr.
  pose proof (write_loop_concat (Audio.__init__ true) r
                (range_step 0 (len r) 8192) []) as E.
  rewrite <- (map_map (fun i => slice r i (i + 8192))
                      (fun b => Audio.denormalize (Audio.__init__ true) b 32767)) in E.
  rewrite denormalize_concat, concat_blocks in E.
  pose proof (denormalize_bound (Audio.__init__ true) r 32767
                ltac:(split; reflexivity) Hr) as Hb.
  assert (Hs : Audio.serialize (Audio.__init__ true)
                 (Audio.denormalize (Audio.__init__ true) r 32767)
               = Some (flat_map (encoding Struct.Little Struct.h)
                         (Audio.denormalize (Audio.__init__ true) r 32767))).
  { apply (serialize_loop_ok Struct.Little Struct.h _ []).
    eapply Forall_impl; [|exact Hb].
    intros v Hv. apply (full_scale_in_range true). exact Hv. }
  rewrite Hs in E. cbn [bind] in E.
  destruct (write_loop _ _ _ _) as [out|]; [now exists out | discriminate].
Qed.

Lemma period_two_dec (l : list Z) :
  (forall k : nat, (k + 2 < length l)%nat ->
     nth_error l (k + 2) = nth_error l k) \/
  (exists k : nat, (k + 2 < length l)%nat /\ nth k l 0 <> nth (k + 2) l 0).
Proof.
  induction l as [|a l IH].
  - left. intros k Hk. simpl in Hk. lia.
  - destruct IH as [Hall | [k [Hk Hne]]].
    + destruct (Nat.lt_ge_cases 2 (length (a :: l))) as [H3 | H3].
      * destruct (Z.eq_dec a (nth 2 (a :: l) 0)) as [E | E].
        -- left. intros [|k] Hk.
           ++ cbn [Nat.add]. rewrite (nth_error_nth' (a :: l) 0 H3).
              rewrite <- E. reflexivity.
           ++ apply (Hall k). simpl in Hk. lia.
        -- right. exists 0%nat. split; [exact H3 | exact E].
      * left. intros k Hk. lia.
    + right. exists (S k). split; [simpl; lia | exact Hne].
Qed.

Lemma sample_range (s : list byte) (samples : list Z) :
  Audio.deserialize (Audio.__init__ true) s = Some samples ->
  Forall (fun v => - 2 ^ 15 <= v <= 2 ^ 15 - 1) samples.
Proof.
  intros H. apply deserialize_some in H as [Hr _].
  eapply Forall_impl; [|exact Hr].
  intros v Hv. apply in_range_bounds in Hv. exact Hv.
Qed.

Lemma nth_in_range (samples : list Z) (k : nat) :
  Forall (fun v => - 2 ^ 15 <= v <= 2 ^ 15 - 1) samples ->
  - 2 ^ 15 <= nth k samples 0 <= 2 ^ 15.
Proof.
  intros H. destruct (Nat.lt_ge_cases k (length samples)) as [Hk | Hk].
  - rewrite Forall_forall in H. specialize (H _ (nth_In samples 0 Hk)). lia.
  - rewrite nth_overflow by exact Hk. split; [|lia]. now apply Z.opp_nonpos_nonneg.
Qed.

Lemma normalized_samples (samples : list Z) :
  Forall (fun v => - 2 ^ 15 <= v <= 2 ^ 15 - 1) samples ->
  Forall sample_value (map normalize1 samples).
Proof.
  intros H. apply Forall_map. eapply Forall_impl; [|exact H].
  intros v Hv. cbv beta in Hv. apply normalize1_sample. lia.
Qed.

Lemma nth_normalized (samples : list Z) (k : nat) :
  nth k (map normalize1 samples) F64.zero = normalize1 (nth k samples 0).
Proof.
  change F64.zero with (normalize1 0). apply map_nth.
Qed.

Lemma rescale_all_zero (der : list float) :
  der <> [] -> Forall (fun x => F64.eqb x F64.zero = true) der ->
  rescale der = Some (map (fun _ => F64.nan) der).
Proof.
  intros Hne Hz. rewrite rescale_peak, (peak_zero der Hne Hz). cbn [bind].
  f_equal. apply map_ext_in. intros x Hx.
  rewrite Forall_forall in Hz.
  destruct (eqb_zero_inv x (Hz x Hx)) as [s ->]. reflexivity.
Qed.

Lemma nonzero_dec (x : float) : {nonzero x} + {~ nonzero x}.
Proof.
  unfold nonzero. destruct (F64.eqb x F64.zero); [right; discriminate | now left].
Defined.

(** X14.  Normalisation loses nothing: two sequences of 16-bit samples with
    the same normalised signal are the same sequence. *)
Theorem normalize_injective (audio : Audio.t) (a b : list Z) :
  Forall (fun v => - 2 ^ 15 <= v <= 2 ^ 15 - 1) a ->
  Forall (fun v => - 2 ^ 15 <= v <= 2 ^ 15 - 1) b ->
  Audio.normalize audio a 32767 = Audio.normalize audio b 32767 ->
  a = b.
Proof.
  rewrite !normalize_map. revert b.
  induction a as [|v a IH]; intros [|w b] Ha Hb E; try discriminate;
    [reflexivity|].
  inversion Ha as [|? ? Hv Ha']; inversion Hb as [|? ? Hw Hb']; subst.
  simpl in E. injection E as E1 E2. f_equal.
  - apply normalize1_injective; [lia | lia | exact E1].
  - now apply IH.
Qed.

Lemma normalize_injective_witness :
  Audio.normalize (Audio.__init__ true) [-32768; 5] 32767
    = Audio.normalize (Audio.__init__ true) [-32768; 5] 32767 /\
  [-32768; 5] = [-32768; 5].
Proof.
  split; [reflexivity|].
  apply (normalize_injective (Audio.__init__ true) [-32768; 5] [-32768; 5]).
  - repeat constructor; discriminate.
  - repeat constructor; discriminate.
  - reflexivity.
Defined.

Lemma convert_some_varies (fft ifft : list complex -> list complex)
    (samplerate : Z) (data out : list (list byte)) :
  convert fft ifft false samplerate data = Some out ->
  Forall (fun buf => len buf mod 2 = 0) data /\
  exists samples,
    Audio.deserialize (Audio.__init__ true) (concat data) = Some samples /\
    exists k : nat, (k + 2 < length samples)%nat /\
                    nth k samples 0 <> nth (k + 2) samples 0.
Proof.
  unfold convert. intros H.
  destruct (Forall_Exists_dec (fun buf : list byte => len buf mod 2 = 0)
              (fun buf => Z.eq_dec (len buf mod 2) 0) data) as [Hev | Hodd].
  2:{ rewrite (read_loop_partial true data [] Hodd) in H. discriminate. }
  split; [exact Hev|].
  destruct (read_loop_whole true data [] Hev) as [samples [Hs Hr]].
  rewrite Hr in H. cbn [bind app] in H. rewrite normalize_map in H.
  exists samples. split; [exact Hs|].
  pose proof (sample_range _ _ Hs) as Hrange.
  destruct (derive (map normalize1 samples)) as [der|] eqn:Ed; [|discriminate].
  cbn [bind] in H.
  destruct (derive_samples _ _ (normalized_samples _ Hrange) Ed) as [_ Hiff].
  destruct (Exists_dec nonzero der nonzero_dec) as [Hex | Hnex].
  - apply Hiff in Hex as [k [Hk Hne]]. rewrite length_map in Hk.
    exists k. split; [exact Hk|].
    intros E. apply Hne. rewrite !nth_normalized. now rewrite E.
  - exfalso.
    assert (Hz : Forall (fun x => F64.eqb x F64.zero = true) der).
    { apply Forall_forall. intros x Hx.
      destruct (F64.eqb x F64.zero) eqn:Ex; [reflexivity|].
      exfalso. apply Hnex. apply Exists_exists. now exists x. }
    assert (Hne : der <> []).
    { rewrite derive_eq in Ed. injection Ed as <-. discriminate. }
    rewrite (rescale_all_zero der Hne Hz) in H. cbn [bind] in H.
    rewrite write_loop_nan in H; [discriminate | |].
    + destruct der; [congruence | discriminate].
    + apply Forall_map. apply Forall_forall. reflexivity.
Qed.

Lemma convert_varies_some (fft ifft : list complex -> list complex)
    (samplerate : Z) (data : list (list byte)) (samples : list Z) (k : nat) :
  Forall (fun buf => len buf mod 2 = 0) data ->
  Audio.deserialize (Audio.__init__ true) (concat data) = Some samples ->
  (k + 2 < length samples)%nat ->
  nth k samples 0 <> nth (k + 2) samples 0 ->
  exists out, convert fft ifft false samplerate data = Some out.
Proof.
  unfold convert. intros Hev Hs Hk Hne.
  destruct (read_loop_whole true data [] Hev) as [samples' [Hs' Hr]].
  rewrite Hs in Hs'. injection Hs' as <-.
  rewrite Hr. cbn [bind app]. rewrite normalize_map.
  pose proof (sample_range _ _ Hs) as Hrange.
  pose proof (normalized_samples _ Hrange) as Hsv.
  destruct (derive (map normalize1 samples)) as [der|] eqn:Ed;
    [|rewrite derive_eq in Ed; discriminate].
  cbn [bind].
  destruct (derive_samples _ _ Hsv Ed) as [Hdv Hiff].
  assert (Hex : Exists nonzero der).
  { apply Hiff. exists k. rewrite length_map. split; [exact Hk|].
    rewrite !nth_normalized. intros E. apply Hne.
    apply normalize1_injective; [now apply nth_in_range .. | exact E]. }
  destruct (rescale_not_nan der Hdv Hex) as [r [Er Hnan]].
  rewrite Er. cbn [bind].
  assert (Hval : Forall (fun x => F64.valid x = true) r).
  { apply (rescale_valid der r); [|exact Er].
    apply (derive_valid (map normalize1 samples) der); [|exact Ed].
    rewrite <- (normalize_map (Audio.__init__ true)). apply normalize_valid. }
  apply write_loop_ok.
  apply Forall_forall. intros x Hx. rewrite Forall_forall in Hval, Hnan. auto.
Qed.

(** X15.  When the conversion succeeds.  Without post-processing the
    program produces output exactly when every buffer read holds whole
    16-bit samples and some sample differs from the sample two places
    before it.  For every other recording (silence, a constant level, an
    alternating pattern, fewer than three samples, a buffer with an odd
    length) it raises. *)
Theorem convert_succeeds_iff (fft ifft : list complex -> list complex)
    (samplerate : Z) (data : list (list byte)) :
  (exists out, convert fft ifft false samplerate data = Some out) <->
  (Forall (fun buf => len buf mod 2 = 0) data /\
   exists samples,
     Audio.deserialize (Audio.__init__ true) (concat data) = Some samples /\
     exists k : nat, (k + 2 < length samples)%nat /\
                     nth k samples 0 <> nth (k + 2) samples 0).
Proof.
  split.
  - intros [out H]. exact (convert_some_varies fft ifft samplerate data out H).
  - intros [Hev [samples [Hs [k [Hk Hne]]]]].
    exact (convert_varies_some fft ifft samplerate data samples k Hev Hs Hk Hne).
Qed.
